(** * static-images: the sizing calculator of [src/utilities.ts]

    A shallow embedding of [cssValue], [deviceWidths], [filterSizes],
    [widthsFromSizes] and [parseSizes], and the properties of the
    specification that concern them.

    Conventions of the embedding.
    - A JavaScript [number] is an IEEE 754 double.  The type [number] below
      holds a finite value as the rational it denotes, beside [NaN],
      [+Infinity] and [-Infinity]; every product and quotient the code
      computes, and every decimal literal it reads, is rounded to the
      nearest double, ties to even, with overflow to an infinity and
      gradual underflow ([Num.round]).  The sign of zero is not kept: the
      code never tells [-0] from [0] unless a dimension pair is given
      with a side [-0].
    - A value that may be [undefined] at run time is an [option].
    - A [throw] is the [Throw] outcome of the [result] type.
    - A [Set<number>] is the list of its elements in insertion order.
    - The [for] loop of [filterSizes] has no structural bound, so it is run
      with fuel; [None] means the fuel ran out. *)

From Stdlib Require Import ZArith QArith Qround Qpower List String Ascii Bool
  Lia Lqa Permutation Sorted.
Import ListNotations.

Set Implicit Arguments.

(** ** JavaScript numbers *)

Inductive number : Type :=
| NaN
| NegInf
| Fin (q : Q)
| PosInf.

Module Num.

Definition of_Z (z : Z) : number := Fin (inject_Z z).

(** Sign of a rational as a [comparison] with zero. *)
Definition Qsign (q : Q) : comparison := (q ?= 0)%Q.

(** *** Rounding to the nearest double

    A finite double is [m * 2^e] for integers [m] and [e] with
    [|m| < 2^53] and [-1074 <= e <= 971]. *)

Definition pow2 (e : Z) : Q := (2 ^ e)%Q.

(** The binary exponent of a positive rational: [2^ilog2 q <= q] and
    [q < 2^(ilog2 q + 1)]. *)
Definition ilog2 (q : Q) : Z :=
  let e := (Z.log2 (Qnum q) - Z.log2 (Zpos (Qden q)))%Z in
  if Qle_bool (pow2 e) q then e else (e - 1)%Z.

(** The exponent of the unit in the last place at a positive rational: 53
    significant bits, and no exponent below that of the subnormals. *)
Definition ulp_exp (q : Q) : Z := Z.max (ilog2 q - 52) (-1074).

(** The nearest integer, the even one of two that are equally near. *)
Definition rne (x : Q) : Z :=
  let f := Qfloor x in
  match (x - inject_Z f ?= 1 # 2)%Q with
  | Lt => f
  | Gt => (f + 1)%Z
  | Eq => if Z.even f then f else (f + 1)%Z
  end.

(** The nearest multiple of the unit in the last place, for [q > 0]. *)
Definition nearest (q : Q) : Q :=
  let e := ulp_exp q in (inject_Z (rne (q / pow2 e)) * pow2 e)%Q.

(** A rounded magnitude beyond the largest double is an infinity. *)
Definition overflow (r : Q) : bool := Qle_bool (pow2 1024) r.

(** The double nearest to a rational. *)
Definition round (q : Q) : number :=
  match Qsign q with
  | Eq => Fin 0
  | Gt => let r := nearest q in if overflow r then PosInf else Fin (Qred r)
  | Lt => let r := nearest (- q) in
          if overflow r then NegInf else Fin (Qred (- r))
  end.

(** *** Arithmetic *)

(** An infinity of sign [pos] scaled by a finite [q]. *)
Definition inf_times (pos : bool) (q : Q) : number :=
  match Qsign q with
  | Eq => NaN
  | Gt => if pos then PosInf else NegInf
  | Lt => if pos then NegInf else PosInf
  end.

Definition mul (x y : number) : number :=
  match x, y with
  | NaN, _ | _, NaN => NaN
  | Fin a, Fin b => round (a * b)
  | PosInf, Fin q | Fin q, PosInf => inf_times true q
  | NegInf, Fin q | Fin q, NegInf => inf_times false q
  | PosInf, PosInf | NegInf, NegInf => PosInf
  | PosInf, NegInf | NegInf, PosInf => NegInf
  end.

Definition div (x y : number) : number :=
  match x, y with
  | NaN, _ | _, NaN => NaN
  | Fin a, Fin b =>
      match Qsign b with
      | Eq => match Qsign a with
              | Eq => NaN
              | Gt => PosInf
              | Lt => NegInf
              end
      | _ => round (a / b)
      end
  | Fin _, (PosInf | NegInf) => Fin 0
  | PosInf, Fin q => match Qsign q with Lt => NegInf | _ => PosInf end
  | NegInf, Fin q => match Qsign q with Lt => PosInf | _ => NegInf end
  | (PosInf | NegInf), (PosInf | NegInf) => NaN
  end.

(** The difference is read by [sort] only, for its sign.  Two doubles
    differ by a multiple of [2^-1074], which never rounds to zero, so the
    sign of their rounded difference is the sign of the exact difference
    computed here (lemma [sub_sign] below). *)
Definition sub (x y : number) : number :=
  match x, y with
  | NaN, _ | _, NaN => NaN
  | Fin a, Fin b => Fin (a - b)
  | PosInf, PosInf | NegInf, NegInf => NaN
  | PosInf, _ | _, NegInf => PosInf
  | NegInf, _ | _, PosInf => NegInf
  end.

(** [x < y]; every comparison with [NaN] is false. *)
Definition ltb (x y : number) : bool :=
  match x, y with
  | NaN, _ | _, NaN => false
  | Fin a, Fin b => match (a ?= b)%Q with Lt => true | _ => false end
  | NegInf, (Fin _ | PosInf) => true
  | Fin _, PosInf => true
  | _, _ => false
  end.

(** [x <= y]. *)
Definition leb (x y : number) : bool :=
  match x, y with
  | NaN, _ | _, NaN => false
  | Fin a, Fin b => match (a ?= b)%Q with Gt => false | _ => true end
  | NegInf, _ => true
  | _, PosInf => true
  | _, _ => false
  end.

Definition gtb (x y : number) : bool := ltb y x.
Definition geb (x y : number) : bool := leb y x.

(** [Math.ceil]; the integer above a double is a double. *)
Definition ceil (x : number) : number :=
  match x with
  | Fin q => of_Z (Qceiling q)
  | _ => x
  end.

(** [ToBoolean] on a number: [0] and [NaN] are falsy. *)
Definition truthy (x : number) : bool :=
  match x with
  | NaN => false
  | Fin q => match Qsign q with Eq => false | _ => true end
  | _ => true
  end.

(** [SameValueZero], the equality of [Set.prototype.add]. *)
Definition same (x y : number) : bool :=
  match x, y with
  | NaN, NaN | NegInf, NegInf | PosInf, PosInf => true
  | Fin a, Fin b => Qeq_bool a b
  | _, _ => false
  end.

(** A number is a double when rounding leaves its value as it is. *)
Definition is_double (x : number) : bool :=
  match x with
  | Fin q => same (round q) (Fin q)
  | _ => true
  end.

End Num.

(** ** Strings: the regular expression of [cssValue] and [Number] *)

Module Str.

Open Scope char_scope.

(** [\d] *)
Definition is_digit (c : ascii) : bool :=
  let n := nat_of_ascii c in (48 <=? n)%nat && (n <=? 57)%nat.

(** [[\d.]] *)
Definition is_digit_or_dot (c : ascii) : bool :=
  is_digit c || Ascii.eqb c ".".

(** White space and line terminators that [Number] strips (ASCII part). *)
Definition is_space (c : ascii) : bool :=
  let n := nat_of_ascii c in
  ((9 <=? n)%nat && (n <=? 13)%nat) || (n =? 32)%nat.

Fixpoint dropWhile (p : ascii -> bool) (s : string) : string :=
  match s with
  | EmptyString => EmptyString
  | String c s' => if p c then dropWhile p s' else s
  end.

Fixpoint takeWhile (p : ascii -> bool) (s : string) : string :=
  match s with
  | EmptyString => EmptyString
  | String c s' => if p c then String c (takeWhile p s') else EmptyString
  end.

Fixpoint rev_app (s acc : string) : string :=
  match s with
  | EmptyString => acc
  | String c s' => rev_app s' (String c acc)
  end.

Definition trim (s : string) : string :=
  let s1 := dropWhile is_space s in
  rev_app (dropWhile is_space (rev_app s1 EmptyString)) EmptyString.

Fixpoint all_digits (s : string) : bool :=
  match s with
  | EmptyString => true
  | String c s' => is_digit c && all_digits s'
  end.

(** Value of a run of decimal digits, most significant first. *)
Fixpoint digits_value (s : string) (acc : Z) : Z :=
  match s with
  | EmptyString => acc
  | String c s' => digits_value s' (10 * acc + (Z.of_nat (nat_of_ascii c) - 48))%Z
  end.

End Str.

(** [v.match(valueRegex)], where the expression is one or more digits or dots
    (group 1) followed by any number of non-digits (group 2): the leftmost
    match starts at the first digit or dot; group 1 is the longest run of
    digits and dots from there and group 2 the longest run of non-digits
    after it.  [None] is [null]. *)
Definition valueRegex (v : string) : option (string * string) :=
  let s := Str.dropWhile (fun c => negb (Str.is_digit_or_dot c)) v in
  match s with
  | EmptyString => None
  | _ =>
      let value := Str.takeWhile Str.is_digit_or_dot s in
      let rest := Str.dropWhile Str.is_digit_or_dot s in
      Some (value, Str.takeWhile (fun c => negb (Str.is_digit c)) rest)
  end.

(** [Number(s)] on the two kinds of string [cssValue] passes to it: a run of
    digits and dots (a decimal literal when it has at most one dot and at
    least one digit, read as the double nearest to it, [NaN] otherwise), or
    a string without any digit or dot (empty or blank is [0], a signed
    [Infinity] is infinite, the rest is [NaN]). *)
Definition Number_ (s : string) : number :=
  let t := Str.trim s in
  match valueRegex t with
  | None =>
      if String.eqb t EmptyString then Num.of_Z 0
      else if String.eqb t "Infinity" || String.eqb t "+Infinity" then PosInf
      else if String.eqb t "-Infinity" then NegInf
      else NaN
  | Some _ =>
      let ip := Str.takeWhile Str.is_digit t in
      let after := Str.dropWhile Str.is_digit t in
      match after with
      | EmptyString => Num.round (inject_Z (Str.digits_value ip 0))
      | String c fp =>
          if Ascii.eqb c "."%char && Str.all_digits fp
             && negb (String.eqb ip EmptyString && String.eqb fp EmptyString)
          then Num.round (Str.digits_value fp (Str.digits_value ip 0)
                          # Z.to_pos (10 ^ Z.of_nat (String.length fp)))
          else NaN
      end
  end.

(** ** Outcomes of a call *)

Inductive exn : Type :=
| TypeError                 (* reading a property of [undefined] *)
| Error (message : string). (* [throw new Error(message)] *)

Inductive result (A : Type) : Type :=
| Ok (a : A)
| Throw (e : exn).

Arguments Ok {A} a.
Arguments Throw {A} e.

Definition bind {A B : Type} (r : result A) (k : A -> result B) : result B :=
  match r with
  | Ok a => k a
  | Throw e => Throw e
  end.

Notation "x <- r ;; k" := (bind r (fun x => k))
  (at level 61, r at next level, right associativity).
Notation "' p <- r ;; k" := (bind r (fun x => match x with p => k end))
  (at level 61, p pattern, r at next level, right associativity).

(** ** Data model *)

Record MediaCondition : Type := mkCond {
  mediaFeature : string;
  value : string
}.

Record Size : Type := mkSize {
  conditions : list MediaCondition;
  width : string
}.

(** The fields [w] and [h] of a [Dimension] that is not a [Device]. *)
Record Dimension : Type := mkDim {
  dim_w : number;
  dim_h : number
}.

Record Device : Type := mkDevice {
  w : number;
  h : number;
  dppx : list number;
  flip : bool
}.

(** ** [cssValue]

    [v] is typed [string], but [deviceWidths] can pass a variable that was
    never assigned; [None] is that [undefined], on which [v.match] throws. *)
Definition cssValue (v : option string) : result (number * string) :=
  match v with
  | None => Throw TypeError
  | Some v =>
      match valueRegex v with
      | Some (value, unit) => Ok (Number_ value, unit)
      | None => Ok (Number_ v, EmptyString)
      end
  end.

(** Magnitude and unit of a string that is defined. *)
Definition magnitude (v : string) : number :=
  match valueRegex v with
  | Some (value, _) => Number_ value
  | None => Number_ v
  end.

Definition unit_of (v : string) : string :=
  match valueRegex v with
  | Some (_, unit) => unit
  | None => EmptyString
  end.

(** ** [deviceWidths] *)

Definition unitError (unit : string) : exn :=
  Error ("Invalid query unit " ++ unit ++ ": only px is supported").

(** The inner loop over the conditions of one rule.  [Ok true] is falling
    out of the loop (to [break whichSize]), [Ok false] is
    [continue whichSize]. *)
Fixpoint conditionsLoop (device : Device) (conds : list MediaCondition)
  : result bool :=
  match conds with
  | [] => Ok true
  | c :: rest =>
      '(value, unit) <- cssValue (Some c.(value)) ;;
      if negb (String.eqb unit "px") then Throw (unitError unit)
      else
        let feature := c.(mediaFeature) in
        let match_ :=
          (String.eqb feature "min-width" && Num.geb device.(w) value)
          || (String.eqb feature "max-width" && Num.leb device.(w) value)
          || (String.eqb feature "min-height" && Num.geb device.(h) value)
          || (String.eqb feature "max-height" && Num.leb device.(h) value) in
        if negb match_ then Ok false
        else conditionsLoop device rest
  end.

(** The labelled loop [whichSize]; the state is the variable [imgWidth],
    [None] while it is unassigned. *)
Fixpoint whichSize (device : Device) (sizes : list Size)
  (imgWidth : option string) : result (option string) :=
  match sizes with
  | [] => Ok imgWidth
  | s :: rest =>
      let imgWidth := Some s.(width) in
      all_hold <- conditionsLoop device s.(conditions) ;;
      if all_hold then Ok imgWidth
      else whichSize device rest imgWidth
  end.

(** [Set.prototype.add]: a value already in the set is not added again. *)
Definition Set_add (x : number) (s : list number) : list number :=
  if existsb (Num.same x) s then s else s ++ [x].

(** The body of the callback given to [device.dppx.forEach].  The default
    ['px'] of the destructuring applies to [undefined] only, and [cssValue]
    returns the empty string for a missing unit, so it never applies. *)
Definition scaleWidth (device : Device) (imgWidth : option string)
  (dppx : number) : result number :=
  '(scaledWidth, unit) <- cssValue imgWidth ;;
  let scaledWidth :=
    if String.eqb unit "vw"
    then Num.div (Num.mul device.(w) scaledWidth) (Num.of_Z 100)
    else scaledWidth in
  Ok (Num.ceil (Num.mul scaledWidth dppx)).

Fixpoint forEach_dppx (device : Device) (imgWidth : option string)
  (densities : list number) (needWidths : list number)
  : result (list number) :=
  match densities with
  | [] => Ok needWidths
  | d :: rest =>
      scaledWidth <- scaleWidth device imgWidth d ;;
      forEach_dppx device imgWidth rest (Set_add scaledWidth needWidths)
  end.

(** [deviceWidths(sizes, device)]; the [console.log] is not modelled. *)
Definition deviceWidths (sizes : list Size) (device : Device)
  : result (list number) :=
  imgWidth <- whichSize device sizes None ;;
  forEach_dppx device imgWidth device.(dppx) [].

(** The integer [z] as a number. *)
Definition num (z : Z) : number := Num.of_Z z.

(** ** [filterSizes] *)

(** The two kinds of candidate the overloads of [filterSizes] accept.  For
    an element [x] the loop reads [isDimension(x) ? x.w : x] and
    [isDimension(x) ? x.h : x], tests [x] for truthiness, and the list is
    sorted by [b - a] or by [b.w * b.h - a.w * a.h].  (An empty list of
    numbers passes [isDimensionArray] and is sorted by area, to the same
    empty list.) *)
Class Candidate (T : Type) : Type := {
  toBoolean : T -> bool;
  axis_w : T -> number;
  axis_h : T -> number;
  sortKey : T -> number
}.

#[global] Instance Candidate_number : Candidate number := {
  toBoolean := Num.truthy;
  axis_w := fun x => x;
  axis_h := fun x => x;
  sortKey := fun x => x
}.

(** An object is always truthy. *)
#[global] Instance Candidate_Dimension : Candidate Dimension := {
  toBoolean := fun _ => true;
  axis_w := dim_w;
  axis_h := dim_h;
  sortKey := fun d => Num.mul d.(dim_w) d.(dim_h)
}.

Section FilterSizes.

Context {T : Type} `{Candidate T}.

(** The comparator given to [sort]: [(a, b) => key(b) - key(a)]. *)
Definition compareFn (a b : T) : number :=
  Num.sub (sortKey b) (sortKey a).

(** [Array.prototype.sort] is stable, and places [a] after [b] exactly
    when the comparator is positive on [(a, b)]; for a consistent
    comparator every such sort yields the list computed here.  The
    comparator is consistent when no key is [NaN]; with a [NaN] key among
    others the language leaves the order to the engine, and the list
    computed here is one such order. *)
Fixpoint insert (x : T) (l : list T) : list T :=
  match l with
  | [] => [x]
  | y :: l' =>
      if Num.gtb (compareFn x y) (Num.of_Z 0) then y :: insert x l'
      else x :: l
  end.

Fixpoint sort (l : list T) : list T :=
  match l with
  | [] => []
  | x :: l' => insert x (sort l')
  end.

(** Reading an element that may be [undefined]: [undefined] is falsy and
    is [NaN] in a division. *)
Definition toBoolean_opt (b : option T) : bool :=
  match b with Some b => toBoolean b | None => false end.

Definition axis_w_opt (b : option T) : number :=
  match b with Some b => axis_w b | None => NaN end.

Definition axis_h_opt (b : option T) : number :=
  match b with Some b => axis_h b | None => NaN end.

(** The [for (let i = 0, j = 1; i < sorted.length; )] loop, one unit of
    fuel per evaluation of its test. *)
Fixpoint filterLoop (fuel : nat) (sorted : list T) (factor : number)
  (i j : nat) (filtered : list T) : option (list T) :=
  match fuel with
  | O => None
  | S fuel =>
      match nth_error sorted i with
      | None => Some filtered
      | Some a =>
          let b := nth_error sorted j in
          if toBoolean a && negb (toBoolean_opt b)
          then Some (filtered ++ [a])
          else
            let scale1 := Num.div (axis_w_opt b) (axis_w a) in
            let scale2 := Num.div (axis_h_opt b) (axis_h a) in
            if Num.ltb (Num.mul scale1 scale2) factor
            then filterLoop fuel sorted factor j (j + 1) (filtered ++ [a])
            else filterLoop fuel sorted factor i (j + 1) filtered
      end
  end.

(** The parameter [factor: number = 0.8]; [None] is an omitted argument,
    and [0.8] is the double nearest to 8/10. *)
Definition factor_arg (factor : option number) : number :=
  match factor with Some f => f | None => Num.round (8 # 10) end.

(** [filterSizes(list, factor)]. *)
Definition filterSizes (fuel : nat) (lst : list T) (factor : option number)
  : option (list T) :=
  let factor := factor_arg factor in
  let sorted := sort lst in
  filterLoop fuel sorted factor 0 1 [].

End FilterSizes.


(** ** [widthsFromSizes] *)

(** [devices.reduce(...)]: the widths of each device of the catalog in turn,
    added to one set.  The catalog, [default-devices.json], is not among
    the sources and is an argument here. *)
Fixpoint collectWidths (sizes : list Size) (devices : list Device)
  (all : list number) : result (list number) :=
  match devices with
  | [] => Ok all
  | device :: rest =>
      ws <- deviceWidths sizes device ;;
      collectWidths sizes rest (fold_left (fun s n => Set_add n s) ws all)
  end.

(** [widthsFromSizes] from the rule list that [parseSizes] returned (the
    tokenizer [parseSizes] calls is an external package).  A string without
    blank and without comma, [0px] say, never reaches the tokenizer:
    [parseSizes] returns the single rule with no condition and the string as
    its width. *)
Definition widthsFromSizes (fuel : nat) (devices : list Device)
  (sizes : list Size) (minScale : option number)
  : result (option (list number)) :=
  needWidths <- collectWidths sizes devices [] ;;
  Ok (filterSizes fuel needWidths minScale).

(** ** [isDimension], [isDimensionArray] and the list [filterSizes] is given

    Behind its two overloads [filterSizes] takes a list of anything and
    tells the elements apart at run time.  [any] holds the values the code
    can tell apart: a number, or an object, of which only [w], [h] and
    [dppx] are read ([w] and [h] are present here when they are numbers,
    [dppx] tells whether that property is defined).  An object is a plain
    one: as a number it is [NaN]. *)
Inductive any : Type :=
| ANumber (n : number)
| AObject (w h : option number) (dppx : bool).

(** [isDimension(object)] as a condition; [None] is [undefined]. *)
Definition isDimension (object : option any) : bool :=
  match object with
  | Some (AObject (Some _) (Some _) false) => true
  | _ => false
  end.

(** [isDimensionArray(array)]: no item fails [isDimension]. *)
Definition isDimensionArray (array : list any) : bool :=
  forallb (fun item => isDimension (Some item)) array.

(** A value where a number is expected. *)
Definition toNumber (x : any) : number :=
  match x with
  | ANumber n => n
  | AObject _ _ _ => NaN
  end.

(** [x.w] and [x.h] in an arithmetic expression; a missing property is
    [undefined], hence [NaN]. *)
Definition prop_w (x : any) : number :=
  match x with
  | AObject (Some w) _ _ => w
  | _ => NaN
  end.

Definition prop_h (x : any) : number :=
  match x with
  | AObject _ (Some h) _ => h
  | _ => NaN
  end.

Definition any_truthy (x : any) : bool :=
  match x with
  | ANumber n => Num.truthy n
  | AObject _ _ _ => true
  end.

(** The list sorted by [b.w * b.h - a.w * a.h], the branch taken when
    [isDimensionArray(list)] holds ... *)
Definition any_by_area : Candidate any := {|
  toBoolean := any_truthy;
  axis_w := fun x => if isDimension (Some x) then prop_w x else toNumber x;
  axis_h := fun x => if isDimension (Some x) then prop_h x else toNumber x;
  sortKey := fun x => Num.mul (prop_w x) (prop_h x)
|}.

(** ... and by [b - a], the branch taken when it does not. *)
Definition any_by_value : Candidate any := {|
  toBoolean := any_truthy;
  axis_w := fun x => if isDimension (Some x) then prop_w x else toNumber x;
  axis_h := fun x => if isDimension (Some x) then prop_h x else toNumber x;
  sortKey := toNumber
|}.

(** [filterSizes] on the list as it is given. *)
Definition filterSizes_any (fuel : nat) (lst : list any)
  (factor : option number) : option (list any) :=
  if isDimensionArray lst
  then @filterSizes any any_by_area fuel lst factor
  else @filterSizes any any_by_value fuel lst factor.

(** A [Dimension] and a [Device] as such values. *)
Definition Dimension_any (d : Dimension) : any :=
  AObject (Some d.(dim_w)) (Some d.(dim_h)) false.

Definition Device_any (d : Device) : any :=
  AObject (Some d.(w)) (Some d.(h)) true.

(** ** [parseSizes]

    The strings are taken to be ASCII: [\s] is modelled by [Str.is_space]
    and the line terminators that [.] does not match are the line feed and
    the carriage return. *)

(** Every character of a string satisfies [p]. *)
Fixpoint string_all (p : ascii -> bool) (s : string) : bool :=
  match s with
  | EmptyString => true
  | String c s' => p c && string_all p s'
  end.

Module Sizes.

(** Line terminators, which [.] does not match. *)
Definition is_newline (c : ascii) : bool :=
  let n := nat_of_ascii c in (n =? 10)%nat || (n =? 13)%nat.

Definition is_comma (c : ascii) : bool := Ascii.eqb c ","%char.

Definition rev (s : string) : string := Str.rev_app s EmptyString.

(** [s.split(separator)] for the separator "blanks, a comma, blanks".
    [acc] is the current piece, last character first; [skip] tells that
    the blanks read belong to the separator just passed.  The blanks in
    front of a comma are taken off the piece; the last piece keeps its
    blanks. *)
Fixpoint split_go (skip : bool) (acc : string) (s : string) : list string :=
  match s with
  | EmptyString => [rev acc]
  | String c s' =>
      if is_comma c then rev (Str.dropWhile Str.is_space acc)
                         :: split_go true EmptyString s'
      else if skip && Str.is_space c then split_go true acc s'
      else split_go false (String c acc) s'
  end.

Definition split (s : string) : list string :=
  split_go false EmptyString s.

(** [descriptor.match(re)] for the expression "anything, blanks, a word, to
    the end": the word (group 2) is the longest run of non-blanks at the
    end; the blanks are the run before it; group 1 is as long as it can
    be, that is, everything up to the last of these blanks, or up to the
    first line terminator if that comes earlier.  [None] is [null]: there
    is no word at the end, no blank before it, or a line terminator before
    the blanks. *)
Definition descriptorRegex (descriptor : string) : option (string * string) :=
  let r := rev descriptor in
  let word := Str.takeWhile (fun c => negb (Str.is_space c)) r in
  let before := Str.dropWhile (fun c => negb (Str.is_space c)) r in
  let blanks := Str.takeWhile Str.is_space before in
  let front := Str.dropWhile Str.is_space before in
  let m := String.length
             (Str.takeWhile (fun c => negb (is_newline c)) descriptor) in
  match word, blanks with
  | EmptyString, _ | _, EmptyString => None
  | _, _ =>
      if (String.length front <=? m)%nat
      then
        let k := Nat.min m (String.length front + String.length blanks - 1) in
        Some (String.substring 0 k descriptor, rev word)
      else None
  end.

(** [s.indexOf(c, from)], [-1] when there is none. *)
Fixpoint indexOf_go (c : ascii) (from pos : nat) (s : string) : Z :=
  match s with
  | EmptyString => (-1)%Z
  | String x s' =>
      if (from <=? pos)%nat && Ascii.eqb x c then Z.of_nat pos
      else indexOf_go c from (S pos) s'
  end.

Definition indexOf (c : ascii) (from : nat) (s : string) : Z :=
  indexOf_go c from 0 s.

(** The test of the expression "an opening parenthesis, anything, a closing
    parenthesis" on the whole string. *)
Definition parenthesised (s : string) : bool :=
  match s with
  | String c s' =>
      Ascii.eqb c "("%char
      && match rev s' with
         | String d inner =>
             Ascii.eqb d ")"%char
             && string_all (fun x => negb (is_newline x)) inner
         | EmptyString => false
         end
  | EmptyString => false
  end.

(** [s.slice(1, -1)]. *)
Definition slice_1_m1 (s : string) : string :=
  String.substring 1 (String.length s - 2) s.

(** A node of the tree the tokenizer returns; of the interface
    [MediaQueryNode] the code reads [type], [value] and [nodes]. *)
#[warnings="-register-all"]
Inductive MediaQueryNode : Type :=
| mkNode (type : string) (value : string) (nodes : list MediaQueryNode).

Definition node_type (n : MediaQueryNode) : string :=
  match n with mkNode t _ _ => t end.

Definition node_value (n : MediaQueryNode) : string :=
  match n with mkNode _ v _ => v end.

Definition node_nodes (n : MediaQueryNode) : list MediaQueryNode :=
  match n with mkNode _ _ ns => ns end.

(** [node.nodes.find(n => n.type === type)!.value]: reading [value] of a
    missing node is a type error. *)
Definition child_value (type : string) (node : MediaQueryNode)
  : result string :=
  match find (fun n => String.eqb (node_type n) type) (node_nodes node) with
  | Some n => Ok (node_value n)
  | None => Throw TypeError
  end.

(** The loop over [parsed.nodes]. *)
Fixpoint nodesLoop (nodes : list MediaQueryNode)
  (conditions : list MediaCondition) : result (list MediaCondition) :=
  match nodes with
  | [] => Ok conditions
  | node :: rest =>
      if String.eqb (node_type node) "media-feature-expression"
      then
        mediaFeature <- child_value "media-feature" node ;;
        value <- child_value "value" node ;;
        nodesLoop rest (conditions ++ [mkCond mediaFeature value])
      else if String.eqb (node_type node) "keyword"
              && String.eqb (node_value node) "and"
      then nodesLoop rest conditions
      else Ok conditions
  end.

(** The clause handed to the tokenizer: stripped of its first and last
    character when the test on the parentheses holds. *)
Definition clause (mediaCondition : string) : string :=
  if parenthesised mediaCondition
     && (indexOf ")"%char 0 mediaCondition
         <? indexOf "("%char 1 mediaCondition)%Z
  then slice_1_m1 mediaCondition
  else mediaCondition.

Section Parser.

(** The tokenizer, an external package: from a clause to the root of its
    tree. *)
Variable mediaParser : string -> MediaQueryNode.

(** The callback given to [map]. *)
Definition parseDescriptor (descriptor : string) : result Size :=
  match descriptorRegex descriptor with
  | None => Ok (mkSize [] descriptor)
  | Some (mediaCondition, width) =>
      match mediaCondition with
      | EmptyString => Ok (mkSize [] width)
      | _ =>
          match node_nodes (mediaParser (clause mediaCondition)) with
          | [] => Throw TypeError
          | parsed :: _ =>
              conditions <- nodesLoop (node_nodes parsed) [] ;;
              Ok (mkSize conditions width)
          end
      end
  end.

Fixpoint mapM (descriptors : list string) : result (list Size) :=
  match descriptors with
  | [] => Ok []
  | d :: rest =>
      size <- parseDescriptor d ;;
      sizes <- mapM rest ;;
      Ok (size :: sizes)
  end.

Definition parseSizes (sizesQueryString : string) : result (list Size) :=
  mapM (split sizesQueryString).

End Parser.

End Sizes.

(** [widthsFromSizes(sizesQueryString, opt)] from the string: the rules are
    those [parseSizes] returns; the tokenizer and the catalog are
    arguments. *)
Definition widthsFromSizesString (mediaParser : string -> Sizes.MediaQueryNode)
  (fuel : nat) (devices : list Device) (sizesQueryString : string)
  (minScale : option number) : result (option (list number)) :=
  sizes <- Sizes.parseSizes mediaParser sizesQueryString ;;
  widthsFromSizes fuel devices sizes minScale.

(** ** Test data of the repository *)

Definition sampleWidths : list number :=
  map num [200; 250; 380; 800; 801; 1000; 1050; 1100; 1440; 1900; 2000]%Z.

(** Dimension pairs from pairs of rationals. *)
Definition dims (l : list (Q * Q)) : list Dimension :=
  map (fun d => mkDim (Fin (fst d)) (Fin (snd d))) l.

Definition sampleDevices : list Dimension :=
  dims [(200, 200); (250, 500); (380, 2000); (800, 450); (801, 450);
        (1000, 5625 # 10); (1050, 600); (1100, 600); (1440, 810);
        (1900, 1600); (2000, 1125)]%Q.

(** The [template.sizes] of the resolver's tests. *)
Definition templateSizes : list Size :=
  [ mkSize [mkCond "min-width" "680px"] "400px"; mkSize [] "500px" ].

(** * Notions used in the statements *)

Open Scope string_scope.

(** ** The selection of a rule *)

(** When a condition holds, in the words of the specification: [min-*] is
    [dimension >= value], [max-*] is [dimension <= value]. *)
Definition condition_holds (device : Device) (c : MediaCondition) : bool :=
  let v := magnitude c.(value) in
  let feature := c.(mediaFeature) in
  if feature =? "min-width" then Num.geb device.(w) v
  else if feature =? "max-width" then Num.leb device.(w) v
  else if feature =? "min-height" then Num.geb device.(h) v
  else if feature =? "max-height" then Num.leb device.(h) v
  else false.

Definition rule_matches (device : Device) (s : Size) : bool :=
  forallb (condition_holds device) s.(conditions).

(** The first rule, in list order, all of whose conditions hold. *)
Definition first_matching_rule (device : Device) (sizes : list Size)
  : option Size :=
  find (rule_matches device) sizes.

(** The invariant of the data model: every condition value is in [px]. *)
Definition conditions_px (conds : list MediaCondition) : Prop :=
  Forall (fun c => unit_of c.(value) = "px") conds.

Definition rules_px (sizes : list Size) : Prop :=
  Forall (fun s => conditions_px s.(conditions)) sizes.

(** ** The widths of one device *)

(** The pixel width a width token stands for on a device: a [vw] token is a
    percentage of the device width, every other token is its magnitude. *)
Definition effectiveWidth (device : Device) (imgWidth : string) : number :=
  if unit_of imgWidth =? "vw"
  then Num.div (Num.mul device.(w) (magnitude imgWidth)) (Num.of_Z 100)
  else magnitude imgWidth.

(** The set built by adding the width of every density in turn. *)
Definition scaledWidths (eff : number) (densities : list number)
  (needWidths : list number) : list number :=
  fold_left (fun s d => Set_add (Num.ceil (Num.mul eff d)) s)
            densities needWidths.

(** Membership in a [Set], up to the equality the set uses. *)
Definition Set_has (x : number) (s : list number) : bool :=
  existsb (Num.same x) s.


(** A device of the resolver's tests: 555 by 600, one density, no rotation. *)
Definition failDevice : Device := mkDevice (num 555) (num 600) [num 1] false.

Close Scope string_scope.

(** ** The loop of [filterSizes] seen from its reference *)

Section ScanDefinition.

Context {T : Type} `{Candidate T}.

(** The scale product of a probe [b] against the reference [a]. *)
Definition scale (a b : T) : number :=
  Num.mul (Num.div (axis_w b) (axis_w a)) (Num.div (axis_h b) (axis_h a)).

(** What the loop does from a reference [a] with the probes [rest] still
    ahead, by recursion on the probes.  [None] here is a loop that never
    ends: once the probes are used up every further probe is [undefined],
    and a falsy reference then neither breaks nor advances. *)
Fixpoint scan (factor : number) (a : T) (rest : list T) : option (list T) :=
  match rest with
  | [] => if toBoolean a then Some [a] else None
  | b :: rest' =>
      if toBoolean a && negb (toBoolean b) then Some [a]
      else if Num.ltb (scale a b) factor
           then option_map (cons a) (scan factor b rest')
           else scan factor a rest'
  end.

Definition scanAll (factor : number) (sorted : list T) : option (list T) :=
  match sorted with
  | [] => Some []
  | a :: rest => scan factor a rest
  end.

End ScanDefinition.

(** ** The order the sort works with *)

(** [desc x y]: the comparator does not ask for [y] before [x], that is,
    [y - x] is not positive. *)
Definition desc (x y : number) : Prop :=
  Num.gtb (Num.sub y x) (Num.of_Z 0) = false.

Section Keys.

Context {T : Type} `{Candidate T}.

(** [ordered x y]: the sort may leave [x] before [y]. *)
Definition ordered (x y : T) : Prop :=
  desc (sortKey x) (sortKey y).

(** The sort key in lowest terms, to tell equal keys apart. *)
Definition keyQ (x : T) : Q :=
  match sortKey x with
  | Fin q => Qred q
  | _ => 0%Q
  end.

(** No two candidates have the same sort key. *)
Definition distinct_keys (l : list T) : Prop := NoDup (map keyQ l).

End Keys.

(** A positive finite number. *)
Definition positive (x : number) : Prop :=
  match x with
  | Fin q => (0 < q)%Q
  | _ => False
  end.

(** A positive double. *)
Definition positive_double (x : number) : Prop :=
  positive x /\ Num.is_double x = true.

(** A dimension pair with positive finite sides. *)
Definition positive_sides (d : Dimension) : Prop :=
  positive d.(dim_w) /\ positive d.(dim_h).

(** ** Notions for the further properties *)

(** No two elements of a [Set] are the same value. *)
Fixpoint Set_unique (s : list number) : Prop :=
  match s with
  | [] => True
  | x :: s' => Set_has x s' = false /\ Set_unique s'
  end.

(** [Subseq r l]: [r] is [l] with some elements left out. *)
Inductive Subseq {A : Type} : list A -> list A -> Prop :=
| Subseq_nil : Subseq [] []
| Subseq_skip (x : A) (r l : list A) : Subseq r l -> Subseq r (x :: l)
| Subseq_keep (x : A) (r l : list A) : Subseq r l -> Subseq (x :: r) (x :: l).

(** The string holds a digit or a dot, so that [valueRegex] matches. *)
Definition has_numeric (s : string) : bool :=
  negb (string_all (fun c => negb (Str.is_digit_or_dot c)) s).

(** The string does not begin with a digit or a dot. *)
Definition no_leading_numeric (u : string) : bool :=
  match u with
  | EmptyString => true
  | String c _ => negb (Str.is_digit_or_dot c)
  end.

(** Every character is an ASCII character. *)
Definition ascii_only (s : string) : bool :=
  string_all (fun c => (nat_of_ascii c <? 128)%nat) s.

(** The first element of a list, if any, is truthy. *)
Definition head_truthy {T : Type} `{Candidate T} (l : list T) : bool :=
  match l with
  | [] => true
  | a :: _ => toBoolean a
  end.

(** Number of candidates the loop keeps from a reference [a] on, over the
    probes [rest]. *)
Definition kept {T : Type} `{Candidate T} (f : number) (a : T)
  (rest : list T) : nat :=
  match scan f a rest with
  | Some r => List.length r
  | None => O
  end.

(** A factor that is [NaN], negative, or zero. *)
Definition not_positive (f : number) : Prop :=
  match f with
  | Fin q => (q <= 0)%Q
  | PosInf => False
  | NaN | NegInf => True
  end.

(** An object that [isDimension] rejects, a device for one. *)
Definition other_object (x : any) : bool :=
  match x with
  | ANumber _ => false
  | AObject _ _ _ => negb (isDimension (Some x))
  end.

(** Number of commas in a string. *)
Fixpoint count_commas (s : string) : nat :=
  match s with
  | EmptyString => O
  | String c s' => (if Sizes.is_comma c then 1 else 0) + count_commas s'
  end.

(** A node at which the loop over the nodes stops. *)
Definition stops (node : Sizes.MediaQueryNode) : bool :=
  negb (String.eqb (Sizes.node_type node) "media-feature-expression")
  && negb (String.eqb (Sizes.node_type node) "keyword"
           && String.eqb (Sizes.node_value node) "and").

(** The keyword [and]. *)
Definition is_and (node : Sizes.MediaQueryNode) : bool :=
  String.eqb (Sizes.node_type node) "keyword"
  && String.eqb (Sizes.node_value node) "and".

(** A tokenizer for the examples: whatever the clause, the tree of the one
    feature expression [(min-width: 680px)]. *)
Definition sampleParser (clause : string) : Sizes.MediaQueryNode :=
  Sizes.mkNode "media-query-list" clause
    [Sizes.mkNode "media-query" clause
       [Sizes.mkNode "media-feature-expression" clause
          [Sizes.mkNode "media-feature" "min-width" [];
           Sizes.mkNode "colon" ":" [];
           Sizes.mkNode "value" "680px" []]]].

(** * Properties of the rounding *)

Module Rounding.

Import Num.

Lemma two_neq_0 : ~ (2 == 0)%Q.
Proof. discriminate. Qed.

Lemma pow2_pos (e : Z) : (0 < pow2 e)%Q.
Proof. apply Qpower_0_lt. reflexivity. Qed.

Lemma pow2_add (a b : Z) : (pow2 (a + b) == pow2 a * pow2 b)%Q.
Proof. apply Qpower_plus, two_neq_0. Qed.

Lemma pow2_le (a b : Z) : (a <= b)%Z -> (pow2 a <= pow2 b)%Q.
Proof. intros Hab. apply Qpower_le_compat_l; [exact Hab | discriminate]. Qed.

Lemma pow2_lt (a b : Z) : (a < b)%Z -> (pow2 a < pow2 b)%Q.
Proof. intros Hab. apply Qpower_lt_compat_l; [exact Hab | reflexivity]. Qed.

(** A power of two with an exponent that is not negative is an integer. *)
Lemma pow2_Z (n : Z) : (0 <= n)%Z -> (pow2 n == inject_Z (2 ^ n))%Q.
Proof. intros Hn. symmetry. now apply Zpower_Qpower. Qed.

Lemma pow2_split (a b : Z) : (pow2 a == pow2 (a - b) * pow2 b)%Q.
Proof. rewrite <- pow2_add. now replace (a - b + b)%Z with a by lia. Qed.

Lemma pow2_div (q : Q) (e : Z) : (q / pow2 e * pow2 e == q)%Q.
Proof. field. pose proof (pow2_pos e). lra. Qed.

(** *** The binary exponent *)

Lemma ilog2_spec (q : Q) :
  (0 < q)%Q -> (pow2 (ilog2 q) <= q)%Q /\ (q < pow2 (ilog2 q + 1))%Q.
Proof.
  intros Hq. destruct q as [n d].
  assert (Hn : (0 < n)%Z).
  { unfold Qlt in Hq. cbn in Hq. lia. }
  unfold ilog2. cbn [Qnum Qden].
  set (ln := Z.log2 n). set (ld := Z.log2 (Z.pos d)).
  destruct (Z.log2_spec n Hn) as [Hn1 Hn2].
  destruct (Z.log2_spec (Z.pos d) eq_refl) as [Hd1 Hd2].
  fold ln in Hn1, Hn2. fold ld in Hd1, Hd2.
  assert (Hln : (0 <= ln)%Z) by apply Z.log2_nonneg.
  assert (Hld : (0 <= ld)%Z) by apply Z.log2_nonneg.
  rewrite Zle_Qle, <- pow2_Z in Hn1, Hd1 by lia.
  rewrite Zlt_Qlt, <- pow2_Z in Hn2, Hd2 by lia.
  pose proof (Qmake_Qdiv n d) as Eq.
  assert (HD : (0 < inject_Z (Z.pos d))%Q)
    by (change 0%Q with (inject_Z 0); rewrite <- Zlt_Qlt; lia).
  assert (Eq' : ((n # d) * inject_Z (Z.pos d) == inject_Z n)%Q).
  { rewrite Eq. field. lra. }
  revert Hn1 Hn2 Hd1 Hd2 Eq' HD Hq. clear Eq.
  generalize (inject_Z n) (inject_Z (Z.pos d)) (n # d). intros N D q.
  intros Hn1 Hn2 Hd1 Hd2 Eq HD Hq.
  pose proof (pow2_pos ld) as Pld.
  (* the two bounds that hold in any case *)
  assert (Hup : (q < pow2 (ln - ld + 1))%Q).
  { apply (Qmult_lt_r _ _ D HD). rewrite Eq.
    eapply Qlt_le_trans; [exact Hn2|].
    replace (Z.succ ln) with ((ln - ld + 1) + ld)%Z by lia.
    rewrite pow2_add. apply Qmult_le_l; [apply pow2_pos | exact Hd1]. }
  assert (Hlow : (pow2 (ln - ld - 1) < q)%Q).
  { apply (Qmult_lt_r _ _ D HD). rewrite Eq.
    eapply Qlt_le_trans; [|exact Hn1].
    replace ln with ((ln - ld - 1) + Z.succ ld)%Z at 2 by lia.
    rewrite pow2_add. apply Qmult_lt_l; [apply pow2_pos | exact Hd2]. }
  destruct (Qle_bool (pow2 (ln - ld)) q) eqn:E.
  - apply Qle_bool_iff in E. split; [exact E | exact Hup].
  - split; [now apply Qlt_le_weak|].
    replace (ln - ld - 1 + 1)%Z with (ln - ld)%Z by lia.
    apply Qnot_le_lt. intros Hle. apply Qle_bool_iff in Hle. congruence.
Qed.

Lemma ilog2_unique (q : Q) (e : Z) :
  (pow2 e <= q)%Q -> (q < pow2 (e + 1))%Q -> ilog2 q = e.
Proof.
  intros H1 H2.
  assert (Hq : (0 < q)%Q)
    by (eapply Qlt_le_trans; [apply (pow2_pos e) | exact H1]).
  destruct (ilog2_spec Hq) as [H3 H4].
  destruct (Z.lt_trichotomy (ilog2 q) e) as [Hlt|[Heq|Hgt]]; [|exact Heq|].
  - exfalso. assert (H5 : (pow2 (ilog2 q + 1) <= pow2 e)%Q)
      by (apply pow2_le; lia). lra.
  - exfalso. assert (H5 : (pow2 (e + 1) <= pow2 (ilog2 q))%Q)
      by (apply pow2_le; lia). lra.
Qed.

Lemma ilog2_comp (q q' : Q) : (0 < q)%Q -> (q == q')%Q -> ilog2 q = ilog2 q'.
Proof.
  intros Hq E. symmetry. destruct (ilog2_spec Hq) as [H1 H2].
  apply ilog2_unique; rewrite <- E; assumption.
Qed.

Lemma ilog2_mono (q1 q2 : Q) :
  (0 < q1)%Q -> (q1 <= q2)%Q -> (ilog2 q1 <= ilog2 q2)%Z.
Proof.
  intros H1 H12. assert (H2 : (0 < q2)%Q) by lra.
  destruct (ilog2_spec H1) as [A1 B1]. destruct (ilog2_spec H2) as [A2 B2].
  destruct (Z.le_gt_cases (ilog2 q1) (ilog2 q2)) as [Hle|Hgt]; [exact Hle|].
  exfalso. assert (H5 : (pow2 (ilog2 q2 + 1) <= pow2 (ilog2 q1))%Q)
    by (apply pow2_le; lia). lra.
Qed.

Lemma ulp_exp_comp (q q' : Q) :
  (0 < q)%Q -> (q == q')%Q -> ulp_exp q = ulp_exp q'.
Proof. intros Hq E. unfold ulp_exp. now rewrite (ilog2_comp Hq E). Qed.

Lemma ulp_exp_mono (q1 q2 : Q) :
  (0 < q1)%Q -> (q1 <= q2)%Q -> (ulp_exp q1 <= ulp_exp q2)%Z.
Proof.
  intros H1 H12. pose proof (ilog2_mono H1 H12). unfold ulp_exp. lia.
Qed.

(** *** The nearest integer *)

Lemma rne_bounds (x : Q) : (Qfloor x <= rne x <= Qfloor x + 1)%Z.
Proof.
  unfold rne. destruct (_ ?= _)%Q; [destruct (Z.even _)| |]; lia.
Qed.

Lemma rne_comp (x y : Q) : (x == y)%Q -> rne x = rne y.
Proof.
  intros E. unfold rne. rewrite (Qfloor_comp _ _ E).
  now rewrite E.
Qed.

Lemma rne_Z (n : Z) : rne (inject_Z n) = n.
Proof.
  unfold rne. rewrite Qfloor_Z.
  destruct (Qcompare_spec (inject_Z n - inject_Z n) (1 # 2)) as [X|X|X];
    [lra | reflexivity | lra].
Qed.

Lemma rne_mono (x y : Q) : (x <= y)%Q -> (rne x <= rne y)%Z.
Proof.
  intros Hxy. pose proof (Qfloor_resp_le _ _ Hxy) as Hf.
  pose proof (rne_bounds x) as Bx. pose proof (rne_bounds y) as By.
  destruct (Z.eq_dec (Qfloor x) (Qfloor y)) as [E|N]; [|lia].
  unfold rne. rewrite <- E.
  destruct (Qcompare_spec (x - inject_Z (Qfloor x)) (1 # 2)) as [X|X|X];
    destruct (Qcompare_spec (y - inject_Z (Qfloor x)) (1 # 2)) as [Y|Y|Y];
    try destruct (Z.even (Qfloor x)); try lia; lra.
Qed.

(** *** The nearest multiple of the unit in the last place *)

Lemma nearest_comp (q q' : Q) :
  (0 < q)%Q -> (q == q')%Q -> (nearest q == nearest q')%Q.
Proof.
  intros Hq E. unfold nearest. rewrite (ulp_exp_comp Hq E).
  assert (E' : (q / pow2 (ulp_exp q') == q' / pow2 (ulp_exp q'))%Q)
    by now rewrite E.
  now rewrite (rne_comp E').
Qed.

Lemma nearest_nonneg (q : Q) : (0 < q)%Q -> (0 <= nearest q)%Q.
Proof.
  intros Hq. unfold nearest. pose proof (pow2_pos (ulp_exp q)) as P.
  apply Qmult_le_0_compat; [|lra].
  change 0%Q with (inject_Z 0). rewrite <- Zle_Qle.
  apply Z.le_trans with (m := rne (inject_Z 0)); [rewrite rne_Z; lia|].
  apply rne_mono. apply Qle_shift_div_l; [exact P|].
  change (inject_Z 0) with 0%Q. lra.
Qed.

(** A value on the grid is left as it is. *)
Lemma nearest_grid (q : Q) (m : Z) :
  (q == inject_Z m * pow2 (ulp_exp q))%Q -> (nearest q == q)%Q.
Proof.
  intros E. unfold nearest. pose proof (pow2_pos (ulp_exp q)) as P.
  assert (E' : (q / pow2 (ulp_exp q) == inject_Z m)%Q).
  { rewrite E at 1. field. lra. }
  rewrite (rne_comp E'), rne_Z. now symmetry.
Qed.

(** A grid point above, or below, stays above, or below. *)
Lemma nearest_le_grid (q : Q) (n : Z) :
  (q <= inject_Z n * pow2 (ulp_exp q))%Q ->
  (nearest q <= inject_Z n * pow2 (ulp_exp q))%Q.
Proof.
  intros H. unfold nearest. pose proof (pow2_pos (ulp_exp q)) as P.
  apply Qmult_le_compat_r; [|lra]. rewrite <- Zle_Qle.
  apply Z.le_trans with (m := rne (inject_Z n)); [|rewrite rne_Z; lia].
  apply rne_mono. apply Qle_shift_div_r; [exact P | exact H].
Qed.

Lemma nearest_ge_grid (q : Q) (n : Z) :
  (inject_Z n * pow2 (ulp_exp q) <= q)%Q ->
  (inject_Z n * pow2 (ulp_exp q) <= nearest q)%Q.
Proof.
  intros H. unfold nearest. pose proof (pow2_pos (ulp_exp q)) as P.
  apply Qmult_le_compat_r; [|lra]. rewrite <- Zle_Qle.
  apply Z.le_trans with (m := rne (inject_Z n)); [rewrite rne_Z; lia|].
  apply rne_mono. apply Qle_shift_div_l; [exact P | exact H].
Qed.

Lemma pow2_grid (k e : Z) :
  (e <= k)%Z -> (pow2 k == inject_Z (2 ^ (k - e)) * pow2 e)%Q.
Proof.
  intros H. rewrite <- pow2_Z by lia. apply pow2_split.
Qed.

Lemma nearest_le_pow2 (q : Q) (k : Z) :
  (ulp_exp q <= k)%Z -> (q <= pow2 k)%Q -> (nearest q <= pow2 k)%Q.
Proof.
  intros He H. rewrite (pow2_grid He) in *. now apply nearest_le_grid.
Qed.

Lemma nearest_ge_pow2 (q : Q) (k : Z) :
  (ulp_exp q <= k)%Z -> (pow2 k <= q)%Q -> (pow2 k <= nearest q)%Q.
Proof.
  intros He H. rewrite (pow2_grid He) in *. now apply nearest_ge_grid.
Qed.

Lemma nearest_mono (q1 q2 : Q) :
  (0 < q1)%Q -> (q1 <= q2)%Q -> (nearest q1 <= nearest q2)%Q.
Proof.
  intros H1 H12. assert (H2 : (0 < q2)%Q) by lra.
  pose proof (ilog2_mono H1 H12) as HE.
  destruct (Z.eq_dec (ulp_exp q1) (ulp_exp q2)) as [E|N].
  - unfold nearest. rewrite E. pose proof (pow2_pos (ulp_exp q2)) as P.
    apply Qmult_le_compat_r; [|lra]. rewrite <- Zle_Qle. apply rne_mono.
    apply Qle_shift_div_r; [exact P|]. now rewrite pow2_div.
  - destruct (ilog2_spec H1) as [A1 B1]. destruct (ilog2_spec H2) as [A2 B2].
    assert (He : (ulp_exp q1 < ulp_exp q2)%Z) by (unfold ulp_exp in *; lia).
    assert (HE' : (ilog2 q1 + 1 <= ilog2 q2)%Z) by (unfold ulp_exp in *; lia).
    assert (He2 : (ulp_exp q2 <= ilog2 q2)%Z) by (unfold ulp_exp in *; lia).
    apply Qle_trans with (y := pow2 (ilog2 q2)).
    + apply nearest_le_pow2; [lia|].
      pose proof (pow2_le HE'). lra.
    + now apply nearest_ge_pow2.
Qed.

(** *** The nearest double *)

Lemma Qsign_Gt (q : Q) : (0 < q)%Q -> Qsign q = Gt.
Proof. intros Hq. unfold Qsign. exact (proj1 (Qgt_alt q 0) Hq). Qed.

Lemma Qsign_Lt (q : Q) : (q < 0)%Q -> Qsign q = Lt.
Proof. intros Hq. unfold Qsign. exact (proj1 (Qlt_alt q 0) Hq). Qed.

Lemma Qsign_Eq (q : Q) : (q == 0)%Q -> Qsign q = Eq.
Proof. intros Hq. unfold Qsign. exact (proj1 (Qeq_alt q 0) Hq). Qed.

Lemma round_pos (q : Q) :
  (0 < q)%Q ->
  round q = if overflow (nearest q) then PosInf else Fin (Qred (nearest q)).
Proof. intros Hq. unfold round. now rewrite (Qsign_Gt Hq). Qed.

Lemma round_neg (q : Q) :
  (q < 0)%Q ->
  round q = if overflow (nearest (- q)) then NegInf
            else Fin (Qred (- nearest (- q))).
Proof. intros Hq. unfold round. now rewrite (Qsign_Lt Hq). Qed.

Lemma round_zero (q : Q) : (q == 0)%Q -> round q = Fin 0.
Proof. intros Hq. unfold round. now rewrite (Qsign_Eq Hq). Qed.

Lemma overflow_comp (r r' : Q) : (r == r')%Q -> overflow r = overflow r'.
Proof. intros E. unfold overflow. now rewrite E. Qed.

(** The result depends on the value only, not on the fraction that
    denotes it. *)
Lemma round_comp (q q' : Q) : (q == q')%Q -> round q = round q'.
Proof.
  intros E. destruct (Q_dec q 0) as [[Hq|Hq]|Hq].
  - assert (Hq' : (q' < 0)%Q) by lra.
    rewrite (round_neg Hq), (round_neg Hq').
    assert (En : (nearest (- q) == nearest (- q'))%Q)
      by (apply nearest_comp; lra).
    rewrite (overflow_comp En). destruct (overflow _); [reflexivity|].
    f_equal. apply Qred_complete. now rewrite En.
  - assert (Hq' : (0 < q')%Q) by lra.
    rewrite (round_pos Hq), (round_pos Hq').
    assert (En : (nearest q == nearest q')%Q)
      by (apply nearest_comp; lra).
    rewrite (overflow_comp En). destruct (overflow _); [reflexivity|].
    f_equal. now apply Qred_complete.
  - assert (Hq' : (q' == 0)%Q) by lra.
    now rewrite (round_zero Hq), (round_zero Hq').
Qed.

Lemma leb_Fin (a b : Q) : leb (Fin a) (Fin b) = true <-> (a <= b)%Q.
Proof.
  unfold leb. destruct (Qcompare_spec a b) as [X|X|X];
    split; intros Hx; try reflexivity; try discriminate; lra.
Qed.

(** A number that is not negative rounds to one that is not. *)
Lemma round_nonneg (q : Q) :
  (0 <= q)%Q ->
  round q = PosInf \/ exists r, round q = Fin r /\ (0 <= r)%Q.
Proof.
  intros Hq. destruct (Qle_lt_or_eq _ _ Hq) as [Hpos|Hz].
  - rewrite (round_pos Hpos). destruct (overflow _); [now left|].
    right. eexists. split; [reflexivity|].
    rewrite Qred_correct. now apply nearest_nonneg.
  - right. exists 0%Q. split; [apply round_zero; lra | lra].
Qed.

Lemma round_nonpos (q : Q) :
  (q <= 0)%Q ->
  round q = NegInf \/ exists r, round q = Fin r /\ (r <= 0)%Q.
Proof.
  intros Hq. destruct (Qle_lt_or_eq _ _ Hq) as [Hneg|Hz].
  - rewrite (round_neg Hneg). destruct (overflow _); [now left|].
    right. eexists. split; [reflexivity|].
    rewrite Qred_correct.
    assert (H : (0 <= nearest (- q))%Q) by (apply nearest_nonneg; lra).
    lra.
  - right. exists 0%Q. split; [apply round_zero; lra | lra].
Qed.

Lemma round_Fin_nonneg (x q : Q) :
  (0 <= x)%Q -> round x = Fin q -> (0 <= q)%Q.
Proof.
  intros Hx. destruct (round_nonneg Hx) as [E|[r [E Hr]]]; rewrite E;
    [discriminate | now intros [= <-]].
Qed.

(** Rounding keeps the order. *)
Lemma round_mono (q1 q2 : Q) :
  (q1 <= q2)%Q -> leb (round q1) (round q2) = true.
Proof.
  intros H12. destruct (Q_dec q2 0) as [[H2|H2]|H2].
  - (* both negative *)
    assert (H1 : (q1 < 0)%Q) by lra.
    rewrite (round_neg H1), (round_neg H2).
    assert (Hn : (nearest (- q2) <= nearest (- q1))%Q)
      by (apply nearest_mono; lra).
    unfold overflow.
    destruct (Qle_bool (pow2 1024) (nearest (- q1))) eqn:O1;
      [destruct (Qle_bool (pow2 1024) (nearest (- q2))); reflexivity|].
    destruct (Qle_bool (pow2 1024) (nearest (- q2))) eqn:O2.
    + apply Qle_bool_iff in O2.
      assert (O1' : Qle_bool (pow2 1024) (nearest (- q1)) = true)
        by (apply Qle_bool_iff; lra).
      congruence.
    + apply leb_Fin. rewrite !Qred_correct. lra.
  - (* the second is positive *)
    rewrite (round_pos H2).
    destruct (overflow (nearest q2)) eqn:O2.
    { destruct (Qlt_le_dec 0 q1) as [H1|H1].
      - destruct (round_nonneg (Qlt_le_weak _ _ H1)) as [->|[r [-> _]]];
          reflexivity.
      - destruct (round_nonpos H1) as [->|[r [-> _]]]; reflexivity. }
    pose proof (nearest_nonneg H2) as N2.
    destruct (Qlt_le_dec 0 q1) as [H1|H1].
    + rewrite (round_pos H1).
      assert (Hn : (nearest q1 <= nearest q2)%Q) by now apply nearest_mono.
      unfold overflow in *.
      destruct (Qle_bool (pow2 1024) (nearest q1)) eqn:O1.
      * apply Qle_bool_iff in O1.
        assert (O2' : Qle_bool (pow2 1024) (nearest q2) = true)
          by (apply Qle_bool_iff; lra).
        congruence.
      * apply leb_Fin. rewrite !Qred_correct. exact Hn.
    + destruct (round_nonpos H1) as [->|[r [-> Hr]]]; [reflexivity|].
      apply leb_Fin. rewrite Qred_correct. lra.
  - (* the second is zero *)
    rewrite (round_zero H2).
    assert (H1 : (q1 <= 0)%Q) by lra.
    destruct (round_nonpos H1) as [->|[r [-> Hr]]]; [reflexivity|].
    now apply leb_Fin.
Qed.

Lemma Qred_inject_Z (z : Z) : Qred (inject_Z z) = inject_Z z.
Proof.
  unfold Qred, inject_Z.
  pose proof (Z.ggcd_gcd z 1) as Hg.
  pose proof (Z.ggcd_correct_divisors z 1) as Hd.
  destruct (Z.ggcd z 1) as [g [aa bb]]. cbn [fst] in Hg.
  rewrite Z.gcd_1_r in Hg. subst g. destruct Hd as [Ha Hb].
  rewrite Z.mul_1_l in Ha, Hb. subst aa bb. reflexivity.
Qed.

(** A positive double is on the grid of its binade ... *)
Lemma double_nearest (q : Q) :
  (0 < q)%Q -> is_double (Fin q) = true -> (nearest q == q)%Q.
Proof.
  intros Hq Hd. cbn [is_double] in Hd. rewrite (round_pos Hq) in Hd.
  destruct (overflow (nearest q)); [discriminate|].
  cbn [same] in Hd. apply Qeq_bool_iff in Hd.
  now rewrite Qred_correct in Hd.
Qed.

Lemma double_grid (q : Q) :
  (0 < q)%Q -> is_double (Fin q) = true ->
  exists m : Z, (0 < m)%Z /\ (q == inject_Z m * pow2 (ulp_exp q))%Q.
Proof.
  intros Hq Hd. pose proof (double_nearest Hq Hd) as E.
  exists (rne (q / pow2 (ulp_exp q))). split; [|now symmetry].
  unfold nearest in E. pose proof (pow2_pos (ulp_exp q)) as P.
  apply Z.nle_gt. intros Hle. rewrite Zle_Qle in Hle.
  change (inject_Z 0) with 0%Q in Hle.
  assert (H : (inject_Z (rne (q / pow2 (ulp_exp q))) * pow2 (ulp_exp q)
               <= 0 * pow2 (ulp_exp q))%Q)
    by (apply Qmult_le_compat_r; lra).
  lra.
Qed.

(** ... and a double is a multiple of [2^-1074]. *)
Lemma double_multiple (q : Q) :
  is_double (Fin q) = true ->
  exists k : Z, (q == inject_Z k * pow2 (-1074))%Q.
Proof.
  intros Hd.
  assert (Hpos : forall x, (0 < x)%Q -> (nearest x == x)%Q ->
                      exists k : Z, (x == inject_Z k * pow2 (-1074))%Q).
  { intros x Hx E. unfold nearest in E.
    exists (rne (x / pow2 (ulp_exp x)) * 2 ^ (ulp_exp x - -1074))%Z.
    rewrite inject_Z_mult, <- pow2_Z by (unfold ulp_exp; lia).
    rewrite <- Qmult_assoc, <- pow2_add.
    replace (ulp_exp x - -1074 + -1074)%Z with (ulp_exp x) by lia.
    now symmetry. }
  destruct (Q_dec q 0) as [[Hq|Hq]|Hq].
  - cbn [is_double] in Hd. rewrite (round_neg Hq) in Hd.
    destruct (overflow (nearest (- q))); [discriminate|].
    cbn [same] in Hd. apply Qeq_bool_iff in Hd.
    rewrite Qred_correct in Hd.
    destruct (Hpos (- q)%Q) as [k Hk]; [lra | lra |].
    exists (- k)%Z. rewrite inject_Z_opp. lra.
  - apply Hpos; [exact Hq | now apply double_nearest].
  - exists 0%Z. rewrite Hq. reflexivity.
Qed.

(** Between two positive doubles the quotient of the smaller by the
    greater is at most [1 - 2^-53]. *)
Lemma double_below (a b : Q) :
  (0 < b)%Q -> (b < a)%Q ->
  is_double (Fin a) = true -> is_double (Fin b) = true ->
  (b <= a * (1 - pow2 (-53)))%Q.
Proof.
  intros Hb Hba Da Db. assert (Ha : (0 < a)%Q) by lra.
  destruct (double_grid Hb Db) as [mb [Hmb Eb]].
  destruct (ilog2_spec Hb) as [Lb Ub].
  set (E := ilog2 b) in *. set (e := ulp_exp b) in *.
  pose proof (pow2_pos e) as Pe. pose proof (pow2_pos (E + 1)) as Pp.
  assert (Hc : (pow2 (-53) < 1)%Q) by (change 1%Q with (pow2 0); now apply pow2_lt).
  pose proof (pow2_pos (-53)) as Pc.
  (* one unit is at least 2^-53 of the next power of two *)
  assert (Hu : (pow2 (E + 1) * pow2 (-53) <= pow2 e)%Q).
  { rewrite <- pow2_add. apply pow2_le. unfold e, ulp_exp. fold E. lia. }
  (* the unit is below that power *)
  assert (Hone : (pow2 e <= b)%Q).
  { rewrite Eb. rewrite <- (Qmult_1_l (pow2 e)) at 1.
    apply Qmult_le_compat_r; [|lra].
    change 1%Q with (inject_Z 1). rewrite <- Zle_Qle. lia. }
  assert (HeE : (e <= E)%Z).
  { destruct (Z.le_gt_cases e E) as [H|H]; [exact H|]. exfalso.
    assert (H' : (pow2 (E + 1) <= pow2 e)%Q) by (apply pow2_le; lia). lra. }
  destruct (Qlt_le_dec a (pow2 (E + 1))) as [Hap|Hap].
  - (* same binade *)
    assert (HEa : ilog2 a = E) by (apply ilog2_unique; lra).
    destruct (double_grid Ha Da) as [ma [Hma Ea]].
    assert (Hea : ulp_exp a = e) by (unfold e, ulp_exp; now rewrite HEa).
    rewrite Hea in Ea.
    assert (Hm : (mb + 1 <= ma)%Z).
    { apply Z.le_succ_l. rewrite Zlt_Qlt.
      apply (Qmult_lt_r _ _ (pow2 e) Pe). now rewrite <- Ea, <- Eb. }
    rewrite Zle_Qle, inject_Z_plus in Hm.
    assert (Hstep : (b + pow2 e <= a)%Q).
    { rewrite Ea, Eb. change (inject_Z 1) with 1%Q in Hm.
      apply Qle_trans with (y := ((inject_Z mb + 1) * pow2 e)%Q); [lra|].
      apply Qmult_le_compat_r; lra. }
    assert (Hac : (a * pow2 (-53) <= pow2 (E + 1) * pow2 (-53))%Q)
      by (apply Qmult_le_compat_r; lra).
    lra.
  - (* the greater is in a binade above *)
    assert (Hp : (pow2 (E + 1) == inject_Z (2 ^ (E + 1 - e)) * pow2 e)%Q)
      by (apply pow2_grid; lia).
    assert (Hm : (mb + 1 <= 2 ^ (E + 1 - e))%Z).
    { apply Z.le_succ_l. rewrite Zlt_Qlt.
      apply (Qmult_lt_r _ _ (pow2 e) Pe). now rewrite <- Hp, <- Eb. }
    rewrite Zle_Qle, inject_Z_plus in Hm.
    assert (Hstep : (b + pow2 e <= pow2 (E + 1))%Q).
    { rewrite Hp, Eb. change (inject_Z 1) with 1%Q in Hm.
      apply Qle_trans with (y := ((inject_Z mb + 1) * pow2 e)%Q); [lra|].
      apply Qmult_le_compat_r; lra. }
    assert (Hac : (pow2 (E + 1) * (1 - pow2 (-53))
                   <= a * (1 - pow2 (-53)))%Q)
      by (apply Qmult_le_compat_r; lra).
    lra.
Qed.

Lemma ltb_Fin_lt (a b : Q) : ltb (Fin a) (Fin b) = true <-> (a < b)%Q.
Proof.
  unfold ltb. destruct (Qcompare_spec a b) as [X|X|X];
    split; intros Hx; try reflexivity; try discriminate; lra.
Qed.

Lemma min_double : round (pow2 (-1074)) = Fin (Qred (pow2 (-1074))).
Proof. vm_compute. reflexivity. Qed.

(** The sign of a difference of two doubles survives the rounding, so
    that [sub], which does not round, gives [sort] what the code gives
    it. *)
Lemma sub_sign (a b : Q) :
  is_double (Fin a) = true -> is_double (Fin b) = true ->
  gtb (round (b - a)) (of_Z 0) = gtb (sub (Fin b) (Fin a)) (of_Z 0).
Proof.
  intros Da Db. unfold gtb, sub, of_Z. change (inject_Z 0) with 0%Q.
  destruct (Qlt_le_dec a b) as [Hab|Hab].
  - transitivity true; [|symmetry; apply ltb_Fin_lt; lra].
    destruct (@double_multiple a Da) as [ka Ea].
    destruct (@double_multiple b Db) as [kb Eb].
    pose proof (pow2_pos (-1074)) as P.
    assert (Hk : (ka + 1 <= kb)%Z).
    { apply Z.le_succ_l. rewrite Zlt_Qlt.
      apply (Qmult_lt_r _ _ (pow2 (-1074)) P). now rewrite <- Ea, <- Eb. }
    rewrite Zle_Qle, inject_Z_plus in Hk. change (inject_Z 1) with 1%Q in Hk.
    assert (Hstep : (pow2 (-1074) <= b - a)%Q).
    { rewrite Ea, Eb.
      assert (H : ((inject_Z ka + 1) * pow2 (-1074)
                   <= inject_Z kb * pow2 (-1074))%Q)
        by (apply Qmult_le_compat_r; lra).
      lra. }
    pose proof (round_mono Hstep) as Hr. rewrite min_double in Hr.
    rewrite <- (Qred_correct (pow2 (-1074))) in P.
    destruct (round (b - a)) as [| |r|]; try discriminate; [|reflexivity].
    apply leb_Fin in Hr. apply ltb_Fin_lt. lra.
  - transitivity false.
    + assert (H : (b - a <= 0)%Q) by lra.
      destruct (round_nonpos H) as [->|[r [-> Hr]]]; [reflexivity|].
      destruct (ltb (Fin 0) (Fin r)) eqn:E; [|reflexivity].
      apply ltb_Fin_lt in E. lra.
    + symmetry. destruct (ltb (Fin 0) (Fin (b - a))) eqn:E; [|reflexivity].
      apply ltb_Fin_lt in E. lra.
Qed.

(** An integer up to [2^53] is a double. *)
Lemma round_Z (z : Z) :
  (0 <= z <= 2 ^ 53)%Z -> round (inject_Z z) = Fin (inject_Z z).
Proof.
  intros [H0 H53]. destruct (Z.eq_dec z 0) as [->|Hz]; [reflexivity|].
  assert (Hq : (0 < inject_Z z)%Q)
    by (change 0%Q with (inject_Z 0); rewrite <- Zlt_Qlt; lia).
  destruct (ilog2_spec Hq) as [L U].
  set (E := ilog2 (inject_Z z)) in *.
  assert (HE0 : (0 <= E)%Z).
  { destruct (Z.le_gt_cases 0 E) as [H|H]; [exact H|]. exfalso.
    assert (H' : (pow2 (E + 1) <= pow2 0)%Q) by (apply pow2_le; lia).
    assert (H1 : (inject_Z 1 <= inject_Z z)%Q) by (rewrite <- Zle_Qle; lia).
    change (pow2 0) with 1%Q in H'. change (inject_Z 1) with 1%Q in H1. lra. }
  rewrite pow2_Z, <- Zle_Qle in L by lia.
  rewrite pow2_Z, <- Zlt_Qlt in U by lia.
  assert (HE53 : (E <= 53)%Z).
  { destruct (Z.le_gt_cases E 53) as [H|H]; [exact H|]. exfalso.
    assert (H' : (2 ^ 54 <= 2 ^ E)%Z) by (apply Z.pow_le_mono_r; lia). lia. }
  assert (He : ulp_exp (inject_Z z) = (E - 52)%Z)
    by (unfold ulp_exp; fold E; lia).
  assert (Hgrid : exists m : Z,
             (inject_Z z == inject_Z m * pow2 (ulp_exp (inject_Z z)))%Q).
  { rewrite He. destruct (Z.eq_dec E 53) as [->|HE].
    - exists (2 ^ 52)%Z.
      assert (z = 2 ^ 53)%Z by lia. subst z.
      rewrite <- !pow2_Z by lia. rewrite <- pow2_add. reflexivity.
    - exists (z * 2 ^ (52 - E))%Z.
      rewrite inject_Z_mult, <- pow2_Z by lia.
      rewrite <- Qmult_assoc, <- pow2_add.
      replace (52 - E + (E - 52))%Z with 0%Z by lia.
      change (pow2 0) with 1%Q. now rewrite Qmult_1_r. }
  destruct Hgrid as [m Hm]. pose proof (@nearest_grid (inject_Z z) m Hm) as En.
  rewrite (round_pos Hq), (overflow_comp En).
  assert (Ho : overflow (inject_Z z) = false).
  { unfold overflow. destruct (Qle_bool _ _) eqn:O; [|reflexivity].
    apply Qle_bool_iff in O. exfalso.
    assert (H1 : (inject_Z z <= inject_Z (2 ^ 53))%Q)
      by (rewrite <- Zle_Qle; lia).
    rewrite <- pow2_Z in H1 by lia.
    assert (H2 : (pow2 53 < pow2 1024)%Q) by (apply pow2_lt; lia). lra. }
  rewrite Ho. f_equal. rewrite (Qred_complete _ _ En). apply Qred_inject_Z.
Qed.

Lemma rne_small (x : Q) : (0 <= x)%Q -> (x <= 1 # 2)%Q -> rne x = 0%Z.
Proof.
  intros H0 H1.
  pose proof (rne_mono H0) as L. pose proof (rne_mono H1) as U.
  change (rne 0) with 0%Z in L. change (rne (1 # 2)) with 0%Z in U. lia.
Qed.

(** What [nearest] returns is on the grid: rounding it again changes
    nothing. *)
Lemma nearest_idem (q : Q) :
  (0 < q)%Q -> (0 < nearest q)%Q -> (nearest (nearest q) == nearest q)%Q.
Proof.
  intros Hq Hr. destruct (ilog2_spec Hq) as [L U].
  set (E := ilog2 q) in *.
  assert (Hdef : (nearest q
                  == inject_Z (rne (q / pow2 (ulp_exp q))) * pow2 (ulp_exp q))%Q)
    by reflexivity.
  set (e := ulp_exp q) in *. set (m := rne (q / pow2 e)) in *.
  pose proof (pow2_pos e) as Pe.
  assert (HeE : (e <= E + 1)%Z).
  { destruct (Z.le_gt_cases e (E + 1)) as [H|H]; [exact H|]. exfalso.
    assert (Hm0 : m = 0%Z).
    { apply rne_small.
      - apply Qle_shift_div_l; [exact Pe | lra].
      - apply Qle_shift_div_r; [exact Pe|].
        assert (H' : (pow2 (E + 1) <= pow2 (e - 1))%Q) by (apply pow2_le; lia).
        assert (H2 : (pow2 e == pow2 1 * pow2 (e - 1))%Q).
        { rewrite <- pow2_add. now replace (1 + (e - 1))%Z with e by lia. }
        change (pow2 1) with 2%Q in H2. lra. }
    rewrite Hm0 in Hdef. change (inject_Z 0) with 0%Q in Hdef. lra. }
  assert (Hup : (nearest q <= pow2 (E + 1))%Q)
    by (apply nearest_le_pow2; [exact HeE | lra]).
  set (r := nearest q) in *.
  destruct (ilog2_spec Hr) as [L' U'].
  destruct (Qlt_le_dec r (pow2 (E + 1))) as [Hlt|Hge].
  - assert (HE' : (ilog2 r <= E)%Z).
    { destruct (Z.le_gt_cases (ilog2 r) E) as [H|H]; [exact H|]. exfalso.
      assert (H' : (pow2 (E + 1) <= pow2 (ilog2 r))%Q)
        by (apply pow2_le; lia). lra. }
    assert (He' : (ulp_exp r <= e)%Z) by (unfold e, ulp_exp; fold E; lia).
    apply nearest_grid with (m := (m * 2 ^ (e - ulp_exp r))%Z).
    rewrite inject_Z_mult, <- pow2_Z by lia.
    rewrite <- Qmult_assoc, <- pow2_add.
    replace (e - ulp_exp r + ulp_exp r)%Z with e by lia. exact Hdef.
  - assert (Er : (r == pow2 (E + 1))%Q) by lra.
    assert (HE' : ilog2 r = (E + 1)%Z).
    { apply ilog2_unique; rewrite Er; [lra|]. apply pow2_lt. lia. }
    assert (He' : (ulp_exp r <= E + 1)%Z).
    { unfold ulp_exp. rewrite HE'. unfold e, ulp_exp in HeE. lia. }
    apply nearest_grid with (m := (2 ^ (E + 1 - ulp_exp r))%Z).
    rewrite Er at 1. now apply pow2_grid.
Qed.

(** Every number the rounding returns is a double. *)
Lemma round_is_double (q : Q) : is_double (round q) = true.
Proof.
  assert (Hpos : forall x, (0 < x)%Q -> overflow (nearest x) = false ->
                      round (nearest x) = Fin (Qred (nearest x))).
  { intros x Hx Ho. pose proof (nearest_nonneg Hx) as Hn.
    destruct (Qle_lt_or_eq _ _ Hn) as [Hr|Hz].
    - rewrite (round_pos Hr).
      pose proof (nearest_idem Hx Hr) as Ei.
      rewrite (overflow_comp Ei), Ho. f_equal. now apply Qred_complete.
    - rewrite (round_zero (Qeq_sym _ _ Hz)). f_equal.
      change 0%Q with (Qred 0). now apply Qred_complete. }
  destruct (Q_dec q 0) as [[Hq|Hq]|Hq].
  - rewrite (round_neg Hq). destruct (overflow _) eqn:Ho; [reflexivity|].
    cbn [is_double].
    rewrite (round_comp (Qred_correct _)).
    assert (Hq' : (0 < - q)%Q) by lra.
    pose proof (nearest_nonneg Hq') as Hn.
    destruct (Qle_lt_or_eq _ _ Hn) as [Hr|Hz].
    + assert (Hr' : (- nearest (- q) < 0)%Q) by lra.
      rewrite (round_neg Hr').
      assert (Ei : (nearest (- - nearest (- q)) == nearest (- q))%Q).
      { rewrite (nearest_comp (q := (- - nearest (- q))%Q)
                              (q' := nearest (- q))); [|lra|ring].
        now apply nearest_idem. }
      rewrite (overflow_comp Ei), Ho. cbn [same]. apply Qeq_bool_iff.
      rewrite !Qred_correct. now rewrite Ei.
    + rewrite round_zero by lra. cbn [same]. apply Qeq_bool_iff.
      rewrite Qred_correct. lra.
  - rewrite (round_pos Hq). destruct (overflow _) eqn:Ho; [reflexivity|].
    cbn [is_double]. rewrite (round_comp (Qred_correct _)).
    rewrite (Hpos q Hq Ho). cbn [same]. apply Qeq_bool_iff. reflexivity.
  - rewrite (round_zero Hq). reflexivity.
Qed.

End Rounding.

(** * Properties of [deviceWidths] *)

Open Scope string_scope.

Lemma cssValue_defined (v : string) :
  cssValue (Some v) = Ok (magnitude v, unit_of v).
Proof.
  unfold cssValue, magnitude, unit_of.
  destruct (valueRegex v) as [[value unit]|]; reflexivity.
Qed.

(** ** The selection of a rule *)

Lemma match_expression (device : Device) (c : MediaCondition) :
  ((c.(mediaFeature) =? "min-width") && Num.geb device.(w) (magnitude c.(value))
   || (c.(mediaFeature) =? "max-width") && Num.leb device.(w) (magnitude c.(value))
   || (c.(mediaFeature) =? "min-height") && Num.geb device.(h) (magnitude c.(value))
   || (c.(mediaFeature) =? "max-height") && Num.leb device.(h) (magnitude c.(value)))%bool
  = condition_holds device c.
Proof.
  unfold condition_holds. destruct c as [f v]. cbn [mediaFeature value].
  destruct (String.eqb_spec f "min-width") as [->|_].
  { cbn. now destruct (Num.geb _ _). }
  destruct (String.eqb_spec f "max-width") as [->|_].
  { cbn. now destruct (Num.leb _ _). }
  destruct (String.eqb_spec f "min-height") as [->|_].
  { cbn. now destruct (Num.geb _ _). }
  destruct (String.eqb_spec f "max-height") as [->|_].
  { cbn. now destruct (Num.leb _ _). }
  reflexivity.
Qed.

Lemma conditionsLoop_px (device : Device) (conds : list MediaCondition) :
  conditions_px conds ->
  conditionsLoop device conds = Ok (forallb (condition_holds device) conds).
Proof.
  induction 1 as [|c rest Hc _ IH]; [reflexivity|].
  cbn [conditionsLoop forallb]. rewrite cssValue_defined. cbn [bind].
  rewrite Hc. cbn [String.eqb Ascii.eqb Bool.eqb negb].
  rewrite match_expression.
  destruct (condition_holds device c); [exact IH | reflexivity].
Qed.

(** A rule whose conditions are in [px] and hold ends the scan: the rules
    after it are not even looked at. *)
Lemma whichSize_hit (device : Device) (s : Size) (post : list Size)
  (imgWidth : option string) :
  conditions_px s.(conditions) -> rule_matches device s = true ->
  whichSize device (s :: post) imgWidth = Ok (Some s.(width)).
Proof.
  intros Hpx Hm. cbn [whichSize]. rewrite (conditionsLoop_px _ Hpx).
  unfold rule_matches in Hm. rewrite Hm. reflexivity.
Qed.

(** A rule with a failing condition hands its own width on to the rest of
    the scan. *)
Lemma whichSize_miss (device : Device) (s : Size) (post : list Size)
  (imgWidth : option string) :
  conditions_px s.(conditions) -> rule_matches device s = false ->
  whichSize device (s :: post) imgWidth
  = whichSize device post (Some s.(width)).
Proof.
  intros Hpx Hm. cbn [whichSize]. rewrite (conditionsLoop_px _ Hpx).
  unfold rule_matches in Hm. rewrite Hm. reflexivity.
Qed.

Lemma whichSize_first_match (device : Device) (pre : list Size) (r : Size)
  (post : list Size) (imgWidth : option string) :
  rules_px (pre ++ [r]) ->
  Forall (fun s => rule_matches device s = false) pre ->
  rule_matches device r = true ->
  whichSize device (pre ++ r :: post) imgWidth = Ok (Some r.(width)).
Proof.
  revert imgWidth. induction pre as [|s pre IH]; intros imgWidth Hpx Hpre Hr.
  - apply whichSize_hit; [| exact Hr]. now inversion Hpx.
  - inversion Hpx; subst. inversion Hpre; subst.
    cbn [app]. rewrite whichSize_miss by assumption. now apply IH.
Qed.

Lemma find_first_match (device : Device) (pre : list Size) (r : Size)
  (post : list Size) :
  Forall (fun s => rule_matches device s = false) pre ->
  rule_matches device r = true ->
  first_matching_rule device (pre ++ r :: post) = Some r.
Proof.
  unfold first_matching_rule.
  induction 1 as [|s pre Hs _ IH]; intros Hr; cbn [app find].
  - now rewrite Hr.
  - rewrite Hs. now apply IH.
Qed.

Lemma last_cons_default (A : Type) (l : list A) (x d d' : A) :
  last (x :: l) d = last (x :: l) d'.
Proof.
  revert x. induction l as [|y l IH]; intros x; [reflexivity|].
  change (last (y :: l) d = last (y :: l) d'). apply IH.
Qed.

(** When no rule matches, the scan ends on the width of the last rule. *)
Lemma whichSize_all_miss (device : Device) (sizes : list Size)
  (imgWidth : option string) :
  rules_px sizes ->
  Forall (fun s => rule_matches device s = false) sizes ->
  whichSize device sizes imgWidth
  = Ok (last (map (fun s => Some s.(width)) sizes) imgWidth).
Proof.
  revert imgWidth. induction sizes as [|s rest IH]; intros imgWidth Hpx Hall.
  - reflexivity.
  - inversion Hpx; subst. inversion Hall; subst.
    rewrite whichSize_miss by assumption. rewrite IH by assumption.
    destruct rest as [|s0 rest]; [reflexivity|].
    f_equal. cbn [map]. apply (last_cons_default (map _ rest)).
Qed.

(** ** The widths of one device *)

Lemma scaleWidth_defined (device : Device) (imgWidth : string) (d : number) :
  scaleWidth device (Some imgWidth) d
  = Ok (Num.ceil (Num.mul (effectiveWidth device imgWidth) d)).
Proof.
  unfold scaleWidth, effectiveWidth. rewrite cssValue_defined. reflexivity.
Qed.

Lemma forEach_dppx_defined (device : Device) (imgWidth : string)
  (densities needWidths : list number) :
  forEach_dppx device (Some imgWidth) densities needWidths
  = Ok (scaledWidths (effectiveWidth device imgWidth) densities needWidths).
Proof.
  revert needWidths. induction densities as [|d rest IH]; intros needWidths.
  - reflexivity.
  - cbn [forEach_dppx]. rewrite scaleWidth_defined. cbn [bind].
    rewrite IH. reflexivity.
Qed.

Lemma deviceWidths_selected (sizes : list Size) (device : Device)
  (imgWidth : string) :
  whichSize device sizes None = Ok (Some imgWidth) ->
  deviceWidths sizes device
  = Ok (scaledWidths (effectiveWidth device imgWidth) device.(dppx) []).
Proof.
  intros Hsel. unfold deviceWidths. rewrite Hsel. cbn [bind].
  apply forEach_dppx_defined.
Qed.

Lemma same_refl (x : number) : Num.same x x = true.
Proof.
  destruct x; try reflexivity. cbn. apply Qeq_bool_iff. reflexivity.
Qed.

Lemma same_trans (x y z : number) :
  Num.same x y = true -> Num.same y z = true -> Num.same x z = true.
Proof.
  destruct x, y, z; cbn; try congruence.
  rewrite !Qeq_bool_iff. intros E1 E2. now rewrite E1.
Qed.

Lemma Set_has_add_same (x : number) (s : list number) :
  Set_has x (Set_add x s) = true.
Proof.
  unfold Set_add, Set_has.
  destruct (existsb (Num.same x) s) eqn:E; [exact E|].
  rewrite existsb_app. cbn. rewrite same_refl. now rewrite orb_true_r.
Qed.

Lemma Set_has_add_other (x y : number) (s : list number) :
  Set_has x s = true -> Set_has x (Set_add y s) = true.
Proof.
  unfold Set_add, Set_has. intros Hx.
  destruct (existsb (Num.same y) s); [exact Hx|].
  rewrite existsb_app, Hx. reflexivity.
Qed.

Lemma scaledWidths_keeps (eff x : number) (densities needWidths : list number) :
  Set_has x needWidths = true ->
  Set_has x (scaledWidths eff densities needWidths) = true.
Proof.
  revert needWidths. unfold scaledWidths.
  induction densities as [|d rest IH]; intros needWidths Hx; [exact Hx|].
  cbn [fold_left]. apply IH. now apply Set_has_add_other.
Qed.

(** The width of every density is in the set that is returned. *)
Lemma scaledWidths_complete (eff d : number) (densities needWidths : list number) :
  In d densities ->
  Set_has (Num.ceil (Num.mul eff d))
          (scaledWidths eff densities needWidths) = true.
Proof.
  revert needWidths.
  induction densities as [|d0 rest IH]; intros needWidths Hin; [easy|].
  destruct Hin as [->|Hin].
  - change (Set_has (Num.ceil (Num.mul eff d))
              (scaledWidths eff rest
                 (Set_add (Num.ceil (Num.mul eff d)) needWidths)) = true).
    apply scaledWidths_keeps, Set_has_add_same.
  - apply (IH _ Hin).
Qed.

(** [Math.ceil] of a finite number rounds up to the next integer. *)
Lemma ceil_finite (q : Q) :
  exists z : Z,
    Num.ceil (Fin q) = Num.of_Z z
    /\ (q <= inject_Z z)%Q /\ (inject_Z z < q + 1)%Q
    /\ ((0 < q)%Q <-> (0 < z)%Z).
Proof.
  exists (Qceiling q). split; [reflexivity|].
  pose proof (Qle_ceiling q) as Hle.
  pose proof (Qceiling_lt q) as Hlt.
  assert (Hup : (inject_Z (Qceiling q) < q + 1)%Q).
  { unfold Z.sub in Hlt. rewrite inject_Z_plus in Hlt.
    change (inject_Z (Z.opp 1)) with (-1 # 1)%Q in Hlt.
    revert Hlt. generalize (inject_Z (Qceiling q)). intros x Hlt. lra. }
  repeat split; try assumption.
  - intros Hq. rewrite Zlt_Qlt. change (inject_Z 0) with 0%Q.
    eapply Qlt_le_trans; eassumption.
  - intros Hz. assert (H1 : (inject_Z 1 <= inject_Z (Qceiling q))%Q)
      by (rewrite <- Zle_Qle; lia).
    change (inject_Z 1) with 1%Q in H1.
    revert Hup H1. generalize (inject_Z (Qceiling q)). intros x Hup H1. lra.
Qed.

(** The rotation flag is never read. *)
Lemma conditionsLoop_flip (w h : number) (dppx : list number) (b b' : bool)
  (conds : list MediaCondition) :
  conditionsLoop (mkDevice w h dppx b) conds
  = conditionsLoop (mkDevice w h dppx b') conds.
Proof.
  induction conds as [|c rest IH]; [reflexivity|].
  cbn [conditionsLoop]. rewrite cssValue_defined. cbn. rewrite IH.
  reflexivity.
Qed.

Lemma whichSize_flip (w h : number) (dppx : list number) (b b' : bool)
  (sizes : list Size) (imgWidth : option string) :
  whichSize (mkDevice w h dppx b) sizes imgWidth
  = whichSize (mkDevice w h dppx b') sizes imgWidth.
Proof.
  revert imgWidth. induction sizes as [|s rest IH]; intros imgWidth.
  - reflexivity.
  - cbn [whichSize]. rewrite (conditionsLoop_flip w h dppx b b').
    destruct (conditionsLoop _ _) as [[|]|e]; cbn [bind]; auto.
Qed.

Lemma forEach_dppx_flip (w h : number) (dppx : list number) (b b' : bool)
  (imgWidth : option string) (densities needWidths : list number) :
  forEach_dppx (mkDevice w h dppx b) imgWidth densities needWidths
  = forEach_dppx (mkDevice w h dppx b') imgWidth densities needWidths.
Proof.
  revert needWidths. induction densities as [|d rest IH]; intros needWidths.
  - reflexivity.
  - cbn [forEach_dppx].
    change (scaleWidth (mkDevice w h dppx b) imgWidth d)
      with (scaleWidth (mkDevice w h dppx b') imgWidth d).
    destruct (scaleWidth _ _ _); cbn [bind]; auto.
Qed.

Lemma deviceWidths_flip (sizes : list Size) (w h : number)
  (dppx : list number) (b b' : bool) :
  deviceWidths sizes (mkDevice w h dppx b)
  = deviceWidths sizes (mkDevice w h dppx b').
Proof.
  unfold deviceWidths. rewrite (whichSize_flip w h dppx b b').
  destruct (whichSize _ _ _); cbn [bind]; [|reflexivity].
  apply forEach_dppx_flip.
Qed.

(** ** The resolver's tests of the repository that concern widths *)

Example test_basic_min_width :
  deviceWidths templateSizes (mkDevice (num 800) (num 700) [num 1] false)
  = Ok [num 400]
  /\ deviceWidths templateSizes (mkDevice (num 500) (num 600) [num 1] false)
     = Ok [num 500].
Proof. split; reflexivity. Qed.

Example test_basic_max_height :
  let sizes := [ mkSize [mkCond "max-height" "680px"] "400px";
                 mkSize [] "500px" ] in
  deviceWidths sizes (mkDevice (num 800) (num 700) [num 1] false) = Ok [num 500]
  /\ deviceWidths sizes (mkDevice (num 500) (num 600) [num 1] false)
     = Ok [num 400].
Proof. split; reflexivity. Qed.

Example test_vw_and_dppx :
  let sizes := [ mkSize [mkCond "min-width" "680px"] "50vw";
                 mkSize [] "75vw" ] in
  deviceWidths sizes (mkDevice (num 800) (num 700) [num 1] false) = Ok [num 400]
  /\ deviceWidths sizes (mkDevice (num 500) (num 600) [num 2; num 1] false)
     = Ok [num 750; num 375].
Proof. split; reflexivity. Qed.

Example test_rounds_up_subpixels :
  deviceWidths [ mkSize [mkCond "min-width" "680px"] "399.2px";
                 mkSize [] "500px" ]
               (mkDevice (num 800) (num 700) [num 1] false)
  = Ok [num 400].
Proof. reflexivity. Qed.

Example test_multiple_conditions :
  let sizes := [ mkSize [mkCond "min-width" "1536px"] "718.5px";
                 mkSize [mkCond "min-width" "1280px"] "590px";
                 mkSize [mkCond "min-width" "1024px"] "468px";
                 mkSize [mkCond "min-width" "768px"] "704px";
                 mkSize [mkCond "min-width" "640px"] "576px";
                 mkSize [] "100vw" ] in
  map (fun width => deviceWidths sizes (mkDevice (num width) (num 400) [num 1] false))
      [1920; 1440; 1200; 820; 680; 600]%Z
  = map (fun width => Ok [num width]) [719; 590; 468; 704; 576; 600]%Z.
Proof. reflexivity. Qed.

Example test_and_queries :
  let sizes := [ mkSize [mkCond "max-width" "780px";
                         mkCond "max-height" "720px"] "600px";
                 mkSize [] "400px" ] in
  deviceWidths sizes (mkDevice (num 600) (num 480) [num 1] false) = Ok [num 600]
  /\ deviceWidths sizes (mkDevice (num 800) (num 600) [num 1] false)
     = Ok [num 400]
  /\ deviceWidths sizes (mkDevice (num 772) (num 728) [num 1] false)
     = Ok [num 400].
Proof. repeat split; reflexivity. Qed.

(** ** Claims about [deviceWidths] *)

(** C1.  The specification asks for the implicit fallback [100vw] when every
    rule fails.  On the input of the repository's test of that fallback (the
    single rule [(min-width: 680px) 400px] and a device 555 wide) the rule
    does not match, and [deviceWidths] answers [400], the width of the rule
    that failed; [555], which is [100vw] on this device, is what it answers
    only once the rule [100vw] is written out. *)
Theorem C1_no_implicit_fallback :
  let sizes := [ mkSize [mkCond "min-width" "680px"] "400px" ] in
  Forall (fun s => rule_matches failDevice s = false) sizes
  /\ deviceWidths sizes failDevice = Ok [num 400]
  /\ deviceWidths (sizes ++ [mkSize [] "100vw"]) failDevice = Ok [num 555]
  /\ map (fun d => Num.ceil (Num.mul failDevice.(w) d)) failDevice.(dppx)
     = [num 555].
Proof.
  cbv zeta. repeat split.
  - repeat constructor.
Qed.

(** C2.  The first rule all of whose conditions hold is the one selected:
    with [px] conditions up to that rule, a rule [r] that matches after
    rules [pre] that do not is the first matching rule, its width is the one
    the scan ends on and the one the widths are computed from, whatever
    rules [post] follow it.  Two overlapping rules swapped give different
    widths. *)
Theorem C2_first_matching_rule_wins (device : Device) (pre : list Size)
  (r : Size) (post : list Size) :
  rules_px (pre ++ [r]) ->
  Forall (fun s => rule_matches device s = false) pre ->
  rule_matches device r = true ->
  first_matching_rule device (pre ++ r :: post) = Some r
  /\ whichSize device (pre ++ r :: post) None = Ok (Some r.(width))
  /\ deviceWidths (pre ++ r :: post) device
     = Ok (scaledWidths (effectiveWidth device r.(width)) device.(dppx) [])
  /\ (let a := mkSize [mkCond "min-width" "100px"] "300px" in
      let b := mkSize [mkCond "min-width" "200px"] "400px" in
      let d := mkDevice (num 500) (num 600) [num 1] false in
      rule_matches d a = true /\ rule_matches d b = true
      /\ deviceWidths [a; b] d = Ok [num 300]
      /\ deviceWidths [b; a] d = Ok [num 400]).
Proof.
  intros Hpx Hpre Hr.
  assert (Hsel : whichSize device (pre ++ r :: post) None = Ok (Some r.(width)))
    by now apply whichSize_first_match.
  split; [now apply find_first_match|].
  split; [exact Hsel|].
  split; [now apply deviceWidths_selected|].
  cbv zeta. repeat split.
Qed.

Lemma C2_first_matching_rule_wins_witness :
  let device := mkDevice (num 800) (num 700) [num 1] false in
  let miss := mkSize [mkCond "min-width" "1024px"] "468px" in
  let hit := mkSize [mkCond "min-width" "680px"] "400px" in
  whichSize device ([miss] ++ hit :: [mkSize [] "500px"]) None
  = Ok (Some "400px").
Proof.
  cbv zeta.
  refine (proj1 (proj2 (@C2_first_matching_rule_wins
    (mkDevice (num 800) (num 700) [num 1] false)
    [mkSize [mkCond "min-width" "1024px"] "468px"]
    (mkSize [mkCond "min-width" "680px"] "400px")
    [mkSize [] "500px"] _ _ _))).
  - repeat constructor.
  - repeat constructor.
  - reflexivity.
Defined.

(** C3.  The rotation flag is not read: a device that can rotate yields the
    widths of the same device that cannot.  On the input of the repository's
    test of a device that can rotate (500 by 800 against
    [(min-width: 680px) 400px, 500px]) the answer is [500] alone; [400],
    the width of the variant 800 by 500, is missing. *)
Theorem C3_flip_ignored :
  (forall sizes w h dppx,
      deviceWidths sizes (mkDevice w h dppx true)
      = deviceWidths sizes (mkDevice w h dppx false))
  /\ deviceWidths templateSizes (mkDevice (num 500) (num 800) [num 1] true)
     = Ok [num 500]
  /\ deviceWidths templateSizes (mkDevice (num 800) (num 500) [num 1] false)
     = Ok [num 400]
  /\ Set_has (num 400) [num 500] = false.
Proof.
  split; [intros; apply deviceWidths_flip|].
  repeat split.
Qed.

(** C4.  A width token never raises an error: a [vw] token is the percentage
    of the device width, and a token with any other unit, [em] included, is
    read as its magnitude in pixels.  So [10em] resolves to [10] where the
    specification asks for an error naming [em]; the same unit in a
    condition does raise that error. *)
Theorem C4_width_unit_unchecked :
  (forall device imgWidth d,
      scaleWidth device (Some imgWidth) d
      = Ok (Num.ceil (Num.mul (effectiveWidth device imgWidth) d)))
  /\ (forall device imgWidth,
      unit_of imgWidth = "vw" ->
      effectiveWidth device imgWidth
      = Num.div (Num.mul device.(w) (magnitude imgWidth)) (Num.of_Z 100))
  /\ (forall device imgWidth,
      unit_of imgWidth <> "vw" ->
      effectiveWidth device imgWidth = magnitude imgWidth)
  /\ unit_of "10em" = "em"
  /\ deviceWidths [mkSize [] "10em"] (mkDevice (num 1000) (num 800) [num 1] false)
     = Ok [num 10]
  /\ deviceWidths [mkSize [mkCond "min-width" "10em"] "400px"]
       (mkDevice (num 1000) (num 800) [num 1] false)
     = Throw (Error "Invalid query unit em: only px is supported").
Proof.
  split; [intros; apply scaleWidth_defined|].
  split.
  { intros device imgWidth Hu. unfold effectiveWidth. now rewrite Hu. }
  split.
  { intros device imgWidth Hu. unfold effectiveWidth.
    destruct (String.eqb_spec (unit_of imgWidth) "vw"); [contradiction|].
    reflexivity. }
  repeat split.
Qed.

(** C5, as amended.  Once a width token is selected, the result is the set
    obtained by adding [ceil(effectiveWidth * d)] for each density [d] in
    the order of the device record, the effective width and the product
    being the doubles the code computes; the width of every density is in
    it; when the product is finite, the width is an integer, not below the
    product and less than one above it, and positive exactly when the
    product is.  The densities [4, 3.2, 2, 1.5, 1] against [400px] give
    [1600, 1280, 800, 600, 400] in that order; and [35.2vw] on a device
    375 wide gives [133, 265, 397] for the densities [1, 2, 3], since
    [375 * 35.2 / 100] is above [132] in doubles. *)
Theorem C5_widths_per_density (sizes : list Size) (device : Device)
  (imgWidth : string) :
  whichSize device sizes None = Ok (Some imgWidth) ->
  let eff := effectiveWidth device imgWidth in
  deviceWidths sizes device = Ok (scaledWidths eff device.(dppx) [])
  /\ (forall d, In d device.(dppx) ->
        Set_has (Num.ceil (Num.mul eff d))
                (scaledWidths eff device.(dppx) []) = true)
  /\ (forall d q, Num.mul eff d = Fin q ->
        exists z : Z,
          Num.ceil (Num.mul eff d) = Num.of_Z z
          /\ (q <= inject_Z z)%Q /\ (inject_Z z < q + 1)%Q
          /\ ((0 < q)%Q <-> (0 < z)%Z))
  /\ deviceWidths templateSizes
       (mkDevice (num 800) (num 700)
                 [num 4; Num.round (32 # 10); num 2; Num.round (15 # 10);
                  num 1] false)
     = Ok [num 1600; num 1280; num 800; num 600; num 400]
  /\ deviceWidths [mkSize [] "35.2vw"]
       (mkDevice (num 375) (num 667) [num 1; num 2; num 3] false)
     = Ok [num 133; num 265; num 397]
  /\ deviceWidths [mkSize [] "1.1px"]
       (mkDevice (num 375) (num 667) [num 100] false)
     = Ok [num 111].
Proof.
  intros Hsel eff.
  split; [now apply deviceWidths_selected|].
  split; [intros d Hd; now apply scaledWidths_complete|].
  split; [|repeat split; vm_compute; reflexivity].
  intros d q Hq. rewrite Hq. apply ceil_finite.
Qed.

Lemma C5_widths_per_density_witness :
  deviceWidths templateSizes
    (mkDevice (num 800) (num 700) [Num.round (15 # 10)] false)
  = Ok (scaledWidths (num 400) [Num.round (15 # 10)] []).
Proof.
  refine (proj1 (@C5_widths_per_density templateSizes
    (mkDevice (num 800) (num 700) [Num.round (15 # 10)] false) "400px" _)).
  reflexivity.
Defined.

(** C5, as stated, fails: the width token [0px] yields the width [0], which
    is not a positive integer. *)
Lemma C5_zero_width_counterexample :
  deviceWidths [mkSize [] "0px"] (mkDevice (num 800) (num 700) [num 1] false)
  = Ok [num 0]
  /\ ~ (exists z : Z, num 0 = Num.of_Z z /\ (0 < z)%Z).
Proof.
  split; [reflexivity|].
  intros [z [Hz Hpos]]. unfold num, Num.of_Z, inject_Z in Hz.
  injection Hz as Hz. lia.
Qed.

(** C10, as amended.  With an empty rule list no width token is assigned;
    the call throws the type error of [undefined.match] as soon as the
    device has a density, and returns the empty set when it has none. *)
Theorem C10_empty_rule_list (w h : number) (flip : bool) :
  (forall d densities,
      deviceWidths [] (mkDevice w h (d :: densities) flip) = Throw TypeError)
  /\ deviceWidths [] (mkDevice w h [] flip) = Ok [].
Proof.
  split; reflexivity.
Qed.

(** C10, as stated, fails: on a device without densities the call with an
    empty rule list returns, it does not throw. *)
Lemma C10_no_density_counterexample :
  deviceWidths [] (mkDevice (num 800) (num 700) [] false) = Ok []
  /\ deviceWidths [] (mkDevice (num 800) (num 700) [] false) <> Throw TypeError.
Proof.
  split; [reflexivity | discriminate].
Qed.

Close Scope string_scope.

(** * Properties of [filterSizes] *)

Section Scan.

Context {T : Type} `{Candidate T}.

Lemma skipn_cons_nth (l : list T) (j : nat) (b : T) (rest : list T) :
  skipn j l = b :: rest ->
  nth_error l j = Some b /\ skipn (j + 1) l = rest.
Proof.
  revert l. induction j as [|j IH]; intros l E.
  - cbn in E. subst l. split; reflexivity.
  - destruct l as [|x l]; [discriminate|]. cbn in E. apply IH in E.
    exact E.
Qed.

Lemma skipn_nil_nth (l : list T) (j : nat) :
  skipn j l = [] -> nth_error l j = None /\ skipn (j + 1) l = [].
Proof.
  revert l. induction j as [|j IH]; intros l E.
  - cbn in E. subst l. split; reflexivity.
  - destruct l as [|x l]; [split; reflexivity|]. cbn in E. apply IH in E.
    exact E.
Qed.

Variable factor : number.
Variable sorted : list T.

(** A falsy reference with the probe index past the end: the loop spins. *)
Lemma filterLoop_spins (fuel i j : nat) (a : T) (filtered : list T) :
  nth_error sorted i = Some a -> toBoolean a = false ->
  skipn j sorted = [] ->
  filterLoop fuel sorted factor i j filtered = None.
Proof.
  intros Ha Hfalsy. revert j.
  induction fuel as [|fuel IH]; intros j Hj; [reflexivity|].
  cbn [filterLoop]. rewrite Ha.
  destruct (skipn_nil_nth _ _ Hj) as [Hb Hj'].
  rewrite Hb, Hfalsy. cbn. apply IH, Hj'.
Qed.

(** The loop returns what [scan] computes, given fuel for every probe. *)
Lemma filterLoop_scan_returns (rest : list T) :
  forall (fuel i j : nat) (a : T) (filtered r : list T),
    nth_error sorted i = Some a -> skipn j sorted = rest ->
    scan factor a rest = Some r -> (List.length rest < fuel)%nat ->
    filterLoop fuel sorted factor i j filtered = Some (filtered ++ r).
Proof.
  induction rest as [|b rest IH]; intros fuel i j a filtered r Ha Hj Hs Hf;
    (destruct fuel as [|fuel]; [inversion Hf|]);
    cbn [filterLoop]; rewrite Ha; cbn [scan] in Hs.
  - destruct (skipn_nil_nth _ _ Hj) as [Hb _]. rewrite Hb.
    destruct (toBoolean a); [|discriminate].
    injection Hs as <-. reflexivity.
  - destruct (skipn_cons_nth _ _ Hj) as [Hb Hj']. rewrite Hb.
    cbn [toBoolean_opt axis_w_opt axis_h_opt]. fold (scale a b).
    destruct (toBoolean a && negb (toBoolean b)).
    { injection Hs as <-. reflexivity. }
    cbn [List.length] in Hf.
    destruct (Num.ltb (scale a b) factor).
    + destruct (scan factor b rest) as [r'|] eqn:Hs'; [|discriminate].
      injection Hs as <-.
      rewrite (IH fuel j (j + 1)%nat b (filtered ++ [a]) r' Hb Hj' Hs')
        by lia.
      now rewrite <- app_assoc.
    + apply (IH fuel i (j + 1)%nat a filtered r Ha Hj' Hs). lia.
Qed.

(** ... and never returns when [scan] does not. *)
Lemma filterLoop_scan_diverges (rest : list T) :
  forall (fuel i j : nat) (a : T) (filtered : list T),
    nth_error sorted i = Some a -> skipn j sorted = rest ->
    scan factor a rest = None ->
    filterLoop fuel sorted factor i j filtered = None.
Proof.
  induction rest as [|b rest IH]; intros fuel i j a filtered Ha Hj Hs;
    cbn [scan] in Hs.
  - destruct (toBoolean a) eqn:Hfalsy; [discriminate|].
    now apply filterLoop_spins with (a := a).
  - destruct fuel as [|fuel]; [reflexivity|].
    cbn [filterLoop]. rewrite Ha.
    destruct (skipn_cons_nth _ _ Hj) as [Hb Hj']. rewrite Hb.
    cbn [toBoolean_opt axis_w_opt axis_h_opt]. fold (scale a b).
    destruct (toBoolean a && negb (toBoolean b)); [discriminate|].
    destruct (Num.ltb (scale a b) factor).
    + destruct (scan factor b rest) eqn:Hs'; [discriminate|].
      now apply IH with (a := b).
    + now apply IH with (a := a).
Qed.

(** Whatever the loop returns is what [scan] computes. *)
Lemma filterLoop_returns_scan (rest : list T) (fuel i j : nat) (a : T)
  (filtered out : list T) :
  nth_error sorted i = Some a -> skipn j sorted = rest ->
  filterLoop fuel sorted factor i j filtered = Some out ->
  exists r, scan factor a rest = Some r /\ out = filtered ++ r.
Proof.
  intros Ha Hj Hout.
  destruct (scan factor a rest) as [r|] eqn:Hs.
  - exists r. split; [reflexivity|].
    destruct (Nat.lt_ge_cases (List.length rest) fuel) as [Hf|Hf].
    + rewrite (@filterLoop_scan_returns rest fuel i j a filtered r
                 Ha Hj Hs Hf) in Hout.
      now injection Hout.
    + (* less fuel: a run that returns early returns the same list *)
      clear Hf. revert fuel i j a filtered r Ha Hj Hs Hout.
      induction rest as [|b rest IH];
        intros fuel i j a filtered r Ha Hj Hs Hout;
        (destruct fuel as [|fuel]; [discriminate|]);
        cbn [filterLoop] in Hout; rewrite Ha in Hout; cbn [scan] in Hs.
      * destruct (skipn_nil_nth _ _ Hj) as [Hb _]. rewrite Hb in Hout.
        destruct (toBoolean a); [|discriminate].
        cbn in Hout. injection Hs as <-. now injection Hout.
      * destruct (skipn_cons_nth _ _ Hj) as [Hb Hj']. rewrite Hb in Hout.
        cbn [toBoolean_opt axis_w_opt axis_h_opt] in Hout.
        fold (scale a b) in Hout.
        destruct (toBoolean a && negb (toBoolean b)).
        { injection Hs as <-. now injection Hout. }
        destruct (Num.ltb (scale a b) factor).
        -- destruct (scan factor b rest) as [r'|] eqn:Hs'; [|discriminate].
           injection Hs as <-.
           rewrite (IH fuel j (j + 1)%nat b (filtered ++ [a]) r' Hb Hj'
                      Hs' Hout).
           now rewrite <- app_assoc.
        -- now apply (IH fuel i (j + 1)%nat a filtered r).
  - now rewrite (@filterLoop_scan_diverges rest fuel i j a filtered
                   Ha Hj Hs) in Hout.
Qed.

End Scan.

Section FilterSizesRuns.

Context {T : Type} `{Candidate T}.

Lemma insert_perm (x : T) (l : list T) : Permutation (x :: l) (insert x l).
Proof.
  induction l as [|y l IH]; cbn [insert]; [reflexivity|].
  destruct (Num.gtb _ _); [|reflexivity].
  rewrite perm_swap. now apply perm_skip.
Qed.

Lemma sort_perm (l : list T) : Permutation l (sort l).
Proof.
  induction l as [|x l IH]; cbn [sort]; [reflexivity|].
  rewrite <- insert_perm. now apply perm_skip.
Qed.

Lemma sort_length (l : list T) : List.length (sort l) = List.length l.
Proof. symmetry. apply Permutation_length, sort_perm. Qed.

Lemma filterLoop_start (fuel : nat) (factor : number) (sorted : list T) :
  (List.length sorted < fuel)%nat ->
  forall r, scanAll factor sorted = Some r ->
  filterLoop fuel sorted factor 0 1 [] = Some r.
Proof.
  intros Hf r Hs. destruct sorted as [|a rest].
  - destruct fuel; [inversion Hf|]. cbn in *. exact Hs.
  - cbn [scanAll] in Hs. cbn [List.length] in Hf.
    apply (@filterLoop_scan_returns T _ factor (a :: rest) rest fuel 0 1 a
             [] r eq_refl eq_refl Hs).
    lia.
Qed.

(** Enough fuel, one unit more than the list is long, gives the result
    of [scanAll] on the sorted list. *)
Lemma filterSizes_returns (fuel : nat) (l : list T) (factor : option number)
  (r : list T) :
  scanAll (factor_arg factor) (sort l) = Some r ->
  (List.length l < fuel)%nat ->
  filterSizes fuel l factor = Some r.
Proof.
  intros Hs Hf. unfold filterSizes. apply filterLoop_start; [|exact Hs].
  now rewrite sort_length.
Qed.

Lemma filterSizes_diverges (l : list T) (factor : option number) :
  scanAll (factor_arg factor) (sort l) = None ->
  forall fuel, filterSizes fuel l factor = None.
Proof.
  intros Hs fuel. unfold filterSizes.
  destruct (sort l) as [|a rest]; [discriminate|]. cbn [scanAll] in Hs.
  exact (@filterLoop_scan_diverges T _ (factor_arg factor) (a :: rest) rest
           fuel 0 1 a [] eq_refl eq_refl Hs).
Qed.

Lemma filterSizes_sound (fuel : nat) (l : list T) (factor : option number)
  (r : list T) :
  filterSizes fuel l factor = Some r ->
  scanAll (factor_arg factor) (sort l) = Some r.
Proof.
  unfold filterSizes. intros Hr.
  destruct (sort l) as [|a rest].
  - destruct fuel; [discriminate|]. cbn in Hr. exact Hr.
  - destruct (@filterLoop_returns_scan T _ (factor_arg factor) (a :: rest)
                rest fuel 0 1 a [] r eq_refl eq_refl Hr) as [r' [Hs ->]].
    exact Hs.
Qed.

End FilterSizesRuns.

(** ** Claims about the repository's samples and about termination *)

(** The other [filterSizes] tests of the repository. *)

Example test_stricter_factor_widths :
  filterSizes 12 sampleWidths (Some (Num.round (6 # 10)))
  = Some (map num [2000; 1440; 1100; 801; 380; 250]%Z)
  /\ filterSizes 12 sampleWidths (Some (Num.round (5 # 10)))
     = Some (map num [2000; 1100; 380; 250]%Z).
Proof. split; vm_compute; reflexivity. Qed.

Example test_dimensions_by_area :
  filterSizes 12 sampleDevices None
  = Some (dims [(1900, 1600); (2000, 1125); (1440, 810); (380, 2000);
                (1000, 5625 # 10); (801, 450); (250, 500); (200, 200)]%Q)
  /\ filterSizes 12 sampleDevices (Some (Num.round (7 # 10)))
     = Some (dims [(1900, 1600); (1440, 810); (380, 2000); (801, 450);
                   (250, 500); (200, 200)]%Q)
  /\ filterSizes 12 sampleDevices (Some (Num.round (35 # 100)))
     = Some (dims [(1900, 1600); (380, 2000); (250, 500); (200, 200)]%Q).
Proof. repeat split; vm_compute; reflexivity. Qed.

Example test_factor_one :
  filterSizes 12 sampleWidths (Some (Fin 1)) = Some (sort sampleWidths)
  /\ filterSizes 12 sampleDevices (Some (Fin 1)) = Some (sort sampleDevices).
Proof. split; vm_compute; reflexivity. Qed.

(** C6.  On the sample widths of the repository's test, with the default
    factor, [filterSizes] returns [2000, 1440, 1100, 801, 380, 250, 200]:
    twelve units of fuel are enough, and so is any larger amount. *)
Theorem C6_sample_widths_default_factor :
  forall fuel : nat,
    filterSizes (12 + fuel) sampleWidths None
    = Some (map num [2000; 1440; 1100; 801; 380; 250; 200]%Z).
Proof.
  intros fuel. apply filterSizes_returns.
  - vm_compute. reflexivity.
  - cbn. lia.
Qed.

(** C7.  [filterSizes] does not terminate on the list [[0]]: the only
    reference is [0], which is falsy, so the test [a && !b] that ends the
    loop is never true, and the scale product is [NaN], so the loop only
    moves the probe index; no amount of fuel gives a result, whatever the
    factor.  [widthsFromSizes] reaches this list from the rule [0px], here
    with a catalog of one device of densities [2] and [1]. *)
Theorem C7_filterSizes_zero_diverges :
  (forall (fuel : nat) (factor : option number),
      filterSizes fuel [num 0] factor = None)
  /\ (forall (fuel : nat) (minScale : option number),
      widthsFromSizes fuel [mkDevice (num 800) (num 700) [num 2; num 1] false]
                      [mkSize [] "0px"] minScale
      = Ok None).
Proof.
  split.
  - intros fuel factor. apply filterSizes_diverges. reflexivity.
  - intros fuel minScale. unfold widthsFromSizes.
    change (collectWidths [mkSize [] "0px"]
              [mkDevice (num 800) (num 700) [num 2; num 1] false] [])
      with (Ok [num 0]).
    cbn [bind]. f_equal. apply filterSizes_diverges. reflexivity.
Qed.

(** ** The order the sort works with *)

Module Order.

Lemma gtb_sub_Fin (a b : Q) :
  Num.gtb (Num.sub (Fin b) (Fin a)) (Num.of_Z 0) = true <-> (a < b)%Q.
Proof.
  unfold Num.gtb, Num.sub, Num.ltb, Num.of_Z.
  change (inject_Z 0) with 0%Q.
  destruct (0 ?= b - a)%Q eqn:E.
  - apply Qeq_alt in E. split; intros Hx; [discriminate | lra].
  - apply Qlt_alt in E. split; intros Hx; [lra | reflexivity].
  - apply Qgt_alt in E. split; intros Hx; [discriminate | lra].
Qed.

Lemma desc_Fin (a b : Q) : desc (Fin a) (Fin b) <-> (b <= a)%Q.
Proof.
  unfold desc. pose proof (gtb_sub_Fin a b) as G.
  destruct (Num.gtb _ _).
  - split; [discriminate|]. intros Hle.
    assert (a < b)%Q by now apply G. lra.
  - split; [|reflexivity]. intros _.
    destruct (Qlt_le_dec a b) as [Hlt|Hle]; [|exact Hle].
    apply G in Hlt. discriminate.
Qed.

(** The comparator never asks for both orders. *)
Lemma gtb_antisym (x y : number) :
  Num.gtb (Num.sub y x) (Num.of_Z 0) = true -> desc y x.
Proof.
  destruct x as [| |a|], y as [| |b|]; cbn; try congruence; try reflexivity.
  intros Hab. apply desc_Fin.
  assert (a < b)%Q by now apply gtb_sub_Fin. lra.
Qed.

(** Transitivity needs the middle element to be a number. *)
Lemma desc_trans (x y z : number) :
  y <> NaN -> desc x y -> desc y z -> desc x z.
Proof.
  destruct x as [| |a|], y as [| |b|], z as [| |c|];
    intros Hy Hxy Hyz; try reflexivity; try congruence;
    try (cbv in Hxy; discriminate); try (cbv in Hyz; discriminate).
  apply desc_Fin. apply desc_Fin in Hxy, Hyz. lra.
Qed.

End Order.

(** ** Sorted lists and the result of the loop *)

Section SortedScan.

Context {T : Type} `{Candidate T}.

Lemma insert_head (x y : T) (l : list T) :
  ordered x y -> insert x (y :: l) = x :: y :: l.
Proof.
  unfold ordered, desc. intros Hxy. cbn [insert].
  unfold compareFn. now rewrite Hxy.
Qed.

Lemma insert_HdRel (x y : T) (l : list T) :
  ordered y x -> HdRel ordered y l -> HdRel ordered y (insert x l).
Proof.
  intros Hyx Hy. destruct l as [|z l]; cbn [insert].
  - now constructor.
  - destruct (Num.gtb _ _); constructor; [|exact Hyx].
    now inversion Hy.
Qed.

Lemma insert_Sorted (x : T) (l : list T) :
  Sorted ordered l -> Sorted ordered (insert x l).
Proof.
  induction 1 as [|y l Hl IH Hy]; cbn [insert].
  - repeat constructor.
  - destruct (Num.gtb (compareFn x y) (Num.of_Z 0)) eqn:E.
    + constructor; [exact IH|].
      apply insert_HdRel; [|exact Hy].
      apply Order.gtb_antisym. exact E.
    + repeat constructor; assumption.
Qed.

(** Neighbours in a sorted list are in order, whatever the list holds. *)
Lemma sort_Sorted (l : list T) : Sorted ordered (sort l).
Proof.
  induction l as [|x l IH]; cbn [sort]; [constructor|].
  now apply insert_Sorted.
Qed.

(** Sorting a list whose neighbours are in order changes nothing. *)
Lemma Sorted_sort_id (l : list T) : Sorted ordered l -> sort l = l.
Proof.
  induction 1 as [|x l Hl IH Hx]; [reflexivity|].
  cbn [sort]. rewrite IH.
  destruct Hx as [|y l Hxy]; [reflexivity|].
  now apply insert_head.
Qed.

Variable factor : number.

Lemma scan_head (rest : list T) :
  forall a r, scan factor a rest = Some r -> exists tl, r = a :: tl.
Proof.
  induction rest as [|b rest IH]; intros a r Hs; cbn [scan] in Hs.
  - destruct (toBoolean a); [|discriminate]. injection Hs as <-. now exists [].
  - destruct (toBoolean a && negb (toBoolean b)).
    { injection Hs as <-. now exists []. }
    destruct (Num.ltb (scale a b) factor); [|now apply IH].
    destruct (scan factor b rest) as [r'|]; [|discriminate].
    injection Hs as <-. now exists r'.
Qed.

(** The result of the loop, scanned again, is kept whole. *)
Lemma scan_fixed (rest : list T) :
  forall a r, scan factor a rest = Some r ->
  exists tl, r = a :: tl /\ scan factor a tl = Some (a :: tl).
Proof.
  induction rest as [|b rest IH]; intros a r Hs; cbn [scan] in Hs.
  - destruct (toBoolean a) eqn:Ha; [|discriminate]. injection Hs as <-.
    exists []. cbn [scan]. now rewrite Ha.
  - destruct (toBoolean a && negb (toBoolean b)) eqn:Hbreak.
    { injection Hs as <-. exists []. cbn [scan].
      apply andb_prop in Hbreak. now rewrite (proj1 Hbreak). }
    destruct (Num.ltb (scale a b) factor) eqn:Hlt; [|now apply IH].
    destruct (scan factor b rest) as [r'|] eqn:Hs'; [|discriminate].
    injection Hs as <-.
    destruct (IH b r' Hs') as [tl [-> Hfix]].
    exists (b :: tl). split; [reflexivity|].
    cbn [scan]. now rewrite Hbreak, Hlt, Hfix.
Qed.

(** Both kinds of candidate have this property: against a falsy
    reference no probe is ever kept. *)
Hypothesis falsy_reference :
  forall (a b : T) (f : number),
    toBoolean a = false -> Num.ltb (scale a b) f = false.

Lemma scan_Some_truthy (rest : list T) :
  forall a r, scan factor a rest = Some r -> toBoolean a = true.
Proof.
  induction rest as [|b rest IH]; intros a r Hs; cbn [scan] in Hs.
  - now destruct (toBoolean a).
  - destruct (toBoolean a) eqn:Ha; [reflexivity|].
    cbn [andb] in Hs. rewrite (falsy_reference a b factor Ha) in Hs.
    rewrite <- Ha. now apply (IH a r).
Qed.

(** The result of the loop has its neighbours in order.  [m] is the last
    probe passed over (or the reference itself). *)
Lemma scan_Sorted (rest : list T) :
  forall a m r,
    toBoolean a = true ->
    Sorted ordered (m :: rest) ->
    (forall c, ordered m c -> ordered a c) ->
    (forall x, In x rest -> toBoolean x = true -> sortKey x <> NaN) ->
    scan factor a rest = Some r ->
    Sorted ordered r.
Proof.
  induction rest as [|b rest IH]; intros a m r Ha Hsorted Hm Hkey Hs;
    cbn [scan] in Hs.
  - rewrite Ha in Hs. injection Hs as <-. repeat constructor.
  - rewrite Ha in Hs. cbn [andb] in Hs.
    destruct (toBoolean b) eqn:Hb; cbn [negb] in Hs.
    2:{ injection Hs as <-. repeat constructor. }
    inversion Hsorted as [|? ? Hrest Hhd]; subst.
    inversion Hhd as [|? ? Hmb]; subst.
    assert (Hab : ordered a b) by now apply Hm.
    assert (Hkb : sortKey b <> NaN) by (apply Hkey; [now left | exact Hb]).
    assert (Hkey' : forall x, In x rest -> toBoolean x = true ->
                              sortKey x <> NaN)
      by (intros x Hx; apply Hkey; now right).
    destruct (Num.ltb (scale a b) factor).
    + destruct (scan factor b rest) as [r'|] eqn:Hs'; [|discriminate].
      injection Hs as <-.
      assert (Hr' : Sorted ordered r')
        by (apply (IH b b r' Hb Hrest (fun c Hc => Hc) Hkey' Hs')).
      destruct (scan_head _ _ Hs') as [tl ->].
      constructor; [exact Hr' | now constructor].
    + apply (IH a b r Ha Hrest); [|exact Hkey'|exact Hs].
      intros c Hbc. unfold ordered in *.
      now apply Order.desc_trans with (y := sortKey b).
Qed.

(** Filtering the result of a filtering again returns it unchanged, and
    does return, with one unit of fuel more than the result is long. *)
Lemma filterSizes_twice (l : list T) (r : list T) (fuel : nat) :
  (forall x, In x l -> toBoolean x = true -> sortKey x <> NaN) ->
  filterSizes fuel l (Some factor) = Some r ->
  forall fuel', (List.length r < fuel')%nat ->
           filterSizes fuel' r (Some factor) = Some r.
Proof.
  intros Hkey Hr fuel' Hfuel'.
  apply filterSizes_sound in Hr. cbn [factor_arg] in Hr.
  apply filterSizes_returns; [|exact Hfuel']. cbn [factor_arg].
  pose proof (sort_Sorted l) as Hsorted.
  assert (Hin : forall x, In x (sort l) -> In x l)
    by (intros x; apply Permutation_in; symmetry; apply sort_perm).
  destruct (sort l) as [|a rest]; cbn [scanAll] in Hr.
  - injection Hr as <-. reflexivity.
  - assert (Hord : Sorted ordered r).
    { apply (scan_Sorted (rest := rest) (a := a) (m := a)); auto.
      - now apply scan_Some_truthy with (rest := rest) (r := r).
      - intros x Hx. apply Hkey, Hin. now right. }
    rewrite (Sorted_sort_id Hord).
    destruct (scan_fixed _ _ Hr) as [tl [-> Hfix]]. exact Hfix.
Qed.

End SortedScan.

Section Termination.

Context {T : Type} `{Candidate T}.

(** With truthy candidates only, the loop ends. *)
Lemma scan_truthy_returns (factor : number) (rest : list T) :
  forall a, toBoolean a = true ->
       Forall (fun x => toBoolean x = true) rest ->
       exists r, scan factor a rest = Some r.
Proof.
  induction rest as [|b rest IH]; intros a Ha Hrest; cbn [scan].
  - rewrite Ha. now exists [a].
  - inversion Hrest as [|? ? Hb Hrest']; subst.
    rewrite Ha, Hb. cbn [negb andb].
    destruct (Num.ltb (scale a b) factor); [|now apply IH].
    destruct (IH b Hb Hrest') as [r' ->]. now exists (a :: r').
Qed.

Lemma filterSizes_truthy_returns (l : list T) (factor : option number) :
  Forall (fun x => toBoolean x = true) l ->
  exists r, forall fuel, (List.length l < fuel)%nat ->
               filterSizes fuel l factor = Some r.
Proof.
  intros Hl.
  assert (Hs : Forall (fun x => toBoolean x = true) (sort l))
    by (eapply Permutation_Forall; [apply sort_perm | exact Hl]).
  assert (Hr : exists r, scanAll (factor_arg factor) (sort l) = Some r).
  { destruct (sort l) as [|a rest]; [now exists []|].
    inversion Hs; subst. now apply scan_truthy_returns. }
  destruct Hr as [r Hr]. exists r. intros fuel Hf.
  now apply filterSizes_returns.
Qed.

End Termination.

(** ** The two kinds of candidate *)

Lemma number_falsy_reference (a b f : number) :
  toBoolean a = false -> Num.ltb (scale a b) f = false.
Proof.
  unfold scale. cbn [toBoolean axis_w axis_h Candidate_number].
  destruct a as [| |qa|]; cbn [Num.truthy]; try discriminate.
  - intros _. now destruct b.
  - destruct (Num.Qsign qa) eqn:Ea; try discriminate. intros _.
    destruct b as [| |qb|]; cbn [Num.div]; rewrite ?Ea;
      try destruct (Num.Qsign qb); now destruct f.
Qed.

Lemma number_truthy_key (x : number) :
  toBoolean x = true -> sortKey x <> NaN.
Proof. now destruct x. Qed.

Lemma Dimension_falsy_reference (a b : Dimension) (f : number) :
  toBoolean a = false -> Num.ltb (scale a b) f = false.
Proof. discriminate. Qed.

(** C8, as amended.  Filtering is idempotent, for every factor, given or
    defaulted: when [filterSizes] returns [r] on a list, it returns [r] on
    [r], with one unit of fuel more than [r] is long.  For widths this
    holds for every list; for dimension pairs, for every list in which no
    area is [NaN] (with such an area the comparator is inconsistent and
    the order [sort] produces is left to the engine).  The first call does
    return on every list of widths without falsy element and on every list
    of dimension pairs. *)
Theorem C8_filtering_idempotent :
  (forall (L : list number) (factor : option number) (fuel : nat)
          (r : list number),
      filterSizes fuel L factor = Some r ->
      forall fuel', (List.length r < fuel')%nat ->
               filterSizes fuel' r factor = Some r)
  /\ (forall (L : list Dimension) (factor : option number) (fuel : nat)
             (r : list Dimension),
      (forall d, In d L -> sortKey d <> NaN) ->
      filterSizes fuel L factor = Some r ->
      forall fuel', (List.length r < fuel')%nat ->
               filterSizes fuel' r factor = Some r)
  /\ (forall (L : list number) (factor : option number),
      Forall (fun x => Num.truthy x = true) L ->
      exists r,
        (forall fuel, (List.length L < fuel)%nat ->
                 filterSizes fuel L factor = Some r)
        /\ (forall fuel', (List.length r < fuel')%nat ->
                    filterSizes fuel' r factor = Some r))
  /\ (forall (L : list Dimension) (factor : option number),
      (forall d, In d L -> sortKey d <> NaN) ->
      exists r,
        (forall fuel, (List.length L < fuel)%nat ->
                 filterSizes fuel L factor = Some r)
        /\ (forall fuel', (List.length r < fuel')%nat ->
                    filterSizes fuel' r factor = Some r)).
Proof.
  assert (Hdim : forall (L : list Dimension) (factor : option number)
                        (fuel : nat) (r : list Dimension),
             (forall d, In d L -> sortKey d <> NaN) ->
             filterSizes fuel L factor = Some r ->
             forall fuel', (List.length r < fuel')%nat ->
                      filterSizes fuel' r factor = Some r).
  { intros L factor fuel r Hkey Hr fuel' Hf.
    change (filterSizes fuel' r (Some (factor_arg factor)) = Some r).
    apply (@filterSizes_twice Dimension _ (factor_arg factor)
             Dimension_falsy_reference L r fuel); [|exact Hr|exact Hf].
    intros d Hd _. now apply Hkey. }
  assert (Hnum : forall (L : list number) (factor : option number)
                        (fuel : nat) (r : list number),
             filterSizes fuel L factor = Some r ->
             forall fuel', (List.length r < fuel')%nat ->
                      filterSizes fuel' r factor = Some r).
  { intros L factor fuel r Hr fuel' Hf.
    change (filterSizes fuel' r (Some (factor_arg factor)) = Some r).
    apply (@filterSizes_twice number _ (factor_arg factor)
             number_falsy_reference L r fuel); [|exact Hr|exact Hf].
    intros x _. apply number_truthy_key. }
  split; [exact Hnum|]. split; [exact Hdim|]. split.
  - intros L factor Htruthy.
    destruct (@filterSizes_truthy_returns number Candidate_number L factor)
      as [r Hr]; [exact Htruthy|].
    exists r. split; [exact Hr|].
    apply (Hnum L factor (S (List.length L)) r). apply Hr. lia.
  - intros L factor Hkey.
    destruct (@filterSizes_truthy_returns Dimension Candidate_Dimension
                L factor) as [r Hr].
    { apply Forall_forall. reflexivity. }
    exists r. split; [exact Hr|].
    apply (Hdim L factor (S (List.length L)) r Hkey). apply Hr. lia.
Qed.

Lemma C8_filtering_idempotent_witness :
  filterSizes 8 (map num [2000; 1440; 1100; 801; 380; 250; 200]%Z) None
  = Some (map num [2000; 1440; 1100; 801; 380; 250; 200]%Z).
Proof.
  refine (proj1 C8_filtering_idempotent sampleWidths None 12%nat
            (map num [2000; 1440; 1100; 801; 380; 250; 200]%Z) _ 8%nat _).
  - vm_compute. reflexivity.
  - cbn. lia.
Defined.

(** C8, as stated, fails for dimension pairs with an area that is [NaN]:
    of the pairs -1 by 1, [NaN] by 1 and 1 by 1, given in that order,
    [filterSizes] returns the first and the third, and on these two it
    returns the third and the first. *)
Lemma C8_NaN_area_counterexample :
  let L := [mkDim (num (-1)) (num 1); mkDim NaN (num 1);
            mkDim (num 1) (num 1)] in
  let r := [mkDim (num (-1)) (num 1); mkDim (num 1) (num 1)] in
  let r' := [mkDim (num 1) (num 1); mkDim (num (-1)) (num 1)] in
  (exists d, In d L /\ sortKey d = NaN)
  /\ (forall fuel : nat, filterSizes (4 + fuel) L None = Some r)
  /\ (forall fuel : nat, filterSizes (3 + fuel) r None = Some r')
  /\ r <> r'.
Proof.
  cbv zeta. split; [|split; [|split]].
  - exists (mkDim NaN (num 1)). split; [cbn; tauto | reflexivity].
  - intros fuel. apply filterSizes_returns; [vm_compute; reflexivity|].
    cbn. lia.
  - intros fuel. apply filterSizes_returns; [vm_compute; reflexivity|].
    cbn. lia.
  - discriminate.
Qed.

(** ** Factor 1 *)

Section KeepAll.

Context {T : Type} `{Candidate T}.

(** A class [pos] of candidates that are truthy, have a finite key, and
    of which a smaller one is always kept after a larger one. *)
Variable pos : T -> Prop.
Hypothesis pos_truthy : forall x, pos x -> toBoolean x = true.
Hypothesis pos_key : forall x, pos x -> exists q, sortKey x = Fin q.
Hypothesis pos_scale :
  forall x y qx qy,
    pos x -> pos y -> sortKey x = Fin qx -> sortKey y = Fin qy ->
    (qy < qx)%Q -> Num.ltb (scale x y) (Fin 1) = true.

Lemma scan_keeps_all (rest : list T) :
  forall a, Forall pos (a :: rest) -> distinct_keys (a :: rest) ->
       Sorted ordered (a :: rest) ->
       scan (Fin 1) a rest = Some (a :: rest).
Proof.
  induction rest as [|b rest IH]; intros a Hpos Hdist Hsorted; cbn [scan].
  - inversion Hpos; subst. now rewrite pos_truthy.
  - inversion Hpos as [|? ? Ha Hpos']; subst.
    inversion Hpos' as [|? ? Hb _]; subst.
    inversion Hsorted as [|? ? Hsorted' Hhd]; subst.
    inversion Hhd as [|? ? Hab]; subst.
    inversion Hdist as [|? ? Hnotin Hdist']; subst.
    rewrite (pos_truthy Ha), (pos_truthy Hb). cbn [negb andb].
    destruct (pos_key Ha) as [qa Hqa]. destruct (pos_key Hb) as [qb Hqb].
    assert (Hlt : (qb < qa)%Q).
    { unfold ordered in Hab. rewrite Hqa, Hqb in Hab.
      apply Order.desc_Fin in Hab.
      destruct (Qle_lt_or_eq _ _ Hab) as [Hlt|Heq]; [exact Hlt|].
      exfalso. apply Hnotin. left. unfold keyQ. rewrite Hqa, Hqb.
      now apply Qred_complete. }
    rewrite (pos_scale Ha Hb Hqa Hqb Hlt).
    now rewrite (IH b Hpos' Hdist' Hsorted').
Qed.

Lemma filterSizes_keeps_all (l : list T) (fuel : nat) :
  Forall pos l -> distinct_keys l -> (List.length l < fuel)%nat ->
  filterSizes fuel l (Some (Fin 1)) = Some (sort l).
Proof.
  intros Hpos Hdist Hfuel. apply filterSizes_returns; [|exact Hfuel].
  cbn [factor_arg].
  assert (Hpos' : Forall pos (sort l))
    by (eapply Permutation_Forall; [apply sort_perm | exact Hpos]).
  assert (Hdist' : distinct_keys (sort l)).
  { unfold distinct_keys in *.
    eapply Permutation_NoDup; [|exact Hdist].
    apply Permutation_map, sort_perm. }
  pose proof (sort_Sorted l) as Hsorted.
  destruct (sort l) as [|a rest]; [reflexivity|].
  now apply scan_keeps_all.
Qed.

End KeepAll.

Lemma Qsign_pos (q : Q) : (0 < q)%Q -> Num.Qsign q = Gt.
Proof. intros Hq. unfold Num.Qsign. exact (proj1 (Qgt_alt q 0) Hq). Qed.

Lemma ltb_Fin (a b : Q) : (a < b)%Q -> Num.ltb (Fin a) (Fin b) = true.
Proof.
  intros Hab. unfold Num.ltb.
  now rewrite (proj1 (Qlt_alt a b) Hab).
Qed.

(** The two doubles next below [1], and the square of the first. *)
Lemma below_one :
  Num.round (1 - Num.pow2 (-53)) = Fin (Qred (1 - Num.pow2 (-53)))
  /\ Num.round (Qred (1 - Num.pow2 (-53)) * Qred (1 - Num.pow2 (-53)))
     = Fin (Qred (1 - Num.pow2 (-52)))
  /\ (Qred (1 - Num.pow2 (-52)) < 1)%Q.
Proof. repeat split; vm_compute; reflexivity. Qed.

(** Of two positive doubles the smaller has a scale product below [1]
    against the greater: the quotient is at most the double next below
    [1], and so is its square. *)
Lemma number_pos_scale (x y : number) (qx qy : Q) :
  positive_double x -> positive_double y ->
  sortKey x = Fin qx -> sortKey y = Fin qy ->
  (qy < qx)%Q -> Num.ltb (scale x y) (Fin 1) = true.
Proof.
  cbn [sortKey Candidate_number]. intros [Hx Dx] [Hy Dy] -> -> Hlt.
  cbn [positive] in Hx, Hy. unfold scale.
  cbn [axis_w axis_h Candidate_number Num.div]. rewrite (Qsign_pos Hx).
  destruct below_one as [C1 [C2 C3]].
  pose proof (Rounding.double_below Hy Hlt Dx Dy) as Hq.
  assert (Hle : (qy / qx <= 1 - Num.pow2 (-53))%Q)
    by (apply Qle_shift_div_r; [exact Hx | lra]).
  assert (H0 : (0 <= qy / qx)%Q) by (apply Qle_shift_div_l; lra).
  pose proof (Rounding.round_mono Hle) as Hr. rewrite C1 in Hr.
  destruct (Rounding.round_nonneg H0) as [E|[r [E Hr0]]];
    rewrite E in *; [discriminate|].
  apply Rounding.leb_Fin in Hr. cbn [Num.mul].
  assert (Hsq : (r * r <= Qred (1 - Num.pow2 (-53))
                          * Qred (1 - Num.pow2 (-53)))%Q) by nra.
  assert (Hsq0 : (0 <= r * r)%Q) by nra.
  pose proof (Rounding.round_mono Hsq) as Hr2. rewrite C2 in Hr2.
  destruct (Rounding.round_nonneg Hsq0) as [E2|[u [E2 Hu0]]];
    rewrite E2 in *; [discriminate|].
  apply Rounding.leb_Fin in Hr2. apply ltb_Fin. lra.
Qed.

Lemma desc_leb (x y : number) :
  x <> NaN -> y <> NaN -> desc x y -> Num.geb x y = true.
Proof.
  destruct x as [| |a|], y as [| |b|]; intros Hx Hy Hd;
    try congruence; try reflexivity; try (cbv in Hd; discriminate).
  apply Order.desc_Fin in Hd. unfold Num.geb, Num.leb.
  destruct (b ?= a)%Q eqn:E; try reflexivity.
  apply Qgt_alt in E. lra.
Qed.

Lemma geb_trans (x y z : number) :
  Num.geb x y = true -> Num.geb y z = true -> Num.geb x z = true.
Proof.
  unfold Num.geb.
  destruct x as [| |a|], y as [| |b|], z as [| |c|]; cbn;
    try congruence; try reflexivity.
  destruct (b ?= a)%Q eqn:E1; try discriminate;
    destruct (c ?= b)%Q eqn:E2; try discriminate; intros _ _;
    destruct (c ?= a)%Q eqn:E3; try reflexivity;
    apply Qgt_alt in E3;
    try apply Qeq_alt in E1; try apply Qlt_alt in E1;
    try apply Qeq_alt in E2; try apply Qlt_alt in E2; lra.
Qed.

(** A list of numbers other than [NaN] whose neighbours are in order is
    in descending order. *)
Lemma Sorted_descending (l : list number) :
  Forall (fun x => x <> NaN) l -> Sorted ordered l ->
  StronglySorted (fun x y => Num.geb x y = true) l.
Proof.
  intros Hnan Hord. apply Sorted_StronglySorted.
  { intros x y z. apply geb_trans. }
  induction Hord as [|x r Hr IH Hhd]; [constructor|].
  inversion Hnan as [|? ? Hx Hnan']; subst.
  constructor; [now apply IH|].
  destruct Hhd as [|y r Hxy]; constructor.
  inversion Hnan'; subst. now apply desc_leb.
Qed.

(** C9, as amended.  With factor [1] nothing is discarded from a list of
    positive widths no two of which are equal: the result is the sorted
    list, which is a permutation of the input in descending order.  (The
    widths are doubles, as every JavaScript number is.)  For dimension
    pairs this fails even when no two areas are equal. *)
Theorem C9_factor_one_keeps_distinct :
  (forall (L : list number) (fuel : nat),
      Forall positive_double L -> distinct_keys L ->
      (List.length L < fuel)%nat ->
      filterSizes fuel L (Some (Fin 1)) = Some (sort L))
  /\ (forall L : list number,
      Forall positive_double L ->
      Permutation L (sort L)
      /\ StronglySorted (fun x y => Num.geb x y = true) (sort L)).
Proof.
  split.
  - intros L fuel. apply (@filterSizes_keeps_all number _ positive_double).
    + intros [| |q|] [Hq _]; cbn in *; try contradiction.
      now rewrite (Qsign_pos Hq).
    + intros [| |q|] [Hq _]; cbn in *; try contradiction. now exists q.
    + apply number_pos_scale.
  - intros L Hpos. split; [apply sort_perm|].
    apply Sorted_descending; [|apply sort_Sorted].
    eapply Permutation_Forall; [apply sort_perm|].
    eapply Forall_impl; [|exact Hpos].
    intros [| |q|] [Hq _]; cbn in Hq; try contradiction. discriminate.
Qed.

Lemma C9_factor_one_keeps_distinct_witness :
  filterSizes 4 [num 300; num 100; num 200] (Some (Fin 1))
  = Some [num 300; num 200; num 100].
Proof.
  refine (proj1 C9_factor_one_keeps_distinct [num 300; num 100; num 200]
            4%nat _ _ _).
  - repeat constructor.
  - unfold distinct_keys.
    repeat (constructor; [vm_compute; intuition discriminate|]).
    constructor.
  - cbn. lia.
Defined.

(** C9, as stated, fails.  Of two equal widths the second is discarded,
    since the scale product [1] is not less than the factor [1].  And of
    the two dimension pairs 2 by 3.6 and 1.5 by 4.8 the second, whose area
    is the smaller one, is discarded: the product of the two quotients
    rounds to [1]. *)
Lemma C9_duplicate_counterexample :
  sort [num 5; num 5] = [num 5; num 5]
  /\ (forall fuel : nat,
         filterSizes (3 + fuel) [num 5; num 5] (Some (Fin 1)) = Some [num 5])
  /\ (let a := mkDim (num 2) (Num.round (36 # 10)) in
      let b := mkDim (Num.round (15 # 10)) (Num.round (48 # 10)) in
      positive_sides a /\ positive_sides b
      /\ Num.ltb (sortKey b) (sortKey a) = true
      /\ scale a b = Fin 1
      /\ forall fuel : nat,
           filterSizes (3 + fuel) [a; b] (Some (Fin 1)) = Some [a]).
Proof.
  split; [reflexivity|]. split.
  - intros fuel. apply filterSizes_returns; [reflexivity | cbn; lia].
  - cbv zeta. split; [split; vm_compute; reflexivity|].
    split; [split; vm_compute; reflexivity|].
    split; [vm_compute; reflexivity|]. split; [vm_compute; reflexivity|].
    intros fuel. apply filterSizes_returns; [vm_compute; reflexivity|].
    cbn. lia.
Qed.

(** * Further properties of [cssValue] and [deviceWidths] *)

(** ** The set of widths *)

Lemma same_sym (x y : number) : Num.same x y = Num.same y x.
Proof.
  destruct x as [| |a|], y as [| |b|]; try reflexivity. cbn.
  destruct (Qeq_bool a b) eqn:E1, (Qeq_bool b a) eqn:E2; try reflexivity.
  - apply Qeq_bool_iff in E1. symmetry in E1. apply Qeq_bool_iff in E1.
    congruence.
  - apply Qeq_bool_iff in E2. symmetry in E2. apply Qeq_bool_iff in E2.
    congruence.
Qed.

Lemma Set_unique_snoc (x : number) (s : list number) :
  Set_unique s -> Set_has x s = false -> Set_unique (s ++ [x]).
Proof.
  induction s as [|y s IH]; cbn [Set_unique app]; intros Hs Hx.
  - split; [reflexivity | exact I].
  - destruct Hs as [Hy Hs]. unfold Set_has in *. cbn [existsb] in Hx.
    apply orb_false_elim in Hx. destruct Hx as [Hxy Hx]. split.
    + rewrite existsb_app, Hy. cbn. now rewrite same_sym, Hxy.
    + now apply IH.
Qed.

Lemma Set_add_unique (x : number) (s : list number) :
  Set_unique s -> Set_unique (Set_add x s).
Proof.
  intros Hs. unfold Set_add.
  destruct (existsb (Num.same x) s) eqn:E; [exact Hs|].
  now apply Set_unique_snoc.
Qed.

Lemma Set_add_In (x y : number) (s : list number) :
  In y (Set_add x s) -> y = x \/ In y s.
Proof.
  unfold Set_add. destruct (existsb _ _); [now right|].
  intros Hin. apply in_app_or in Hin. destruct Hin as [Hin|[<-|[]]]; auto.
Qed.

Lemma Set_add_length (x : number) (s : list number) :
  (List.length (Set_add x s) <= S (List.length s))%nat.
Proof.
  unfold Set_add. destruct (existsb _ _); [lia|].
  rewrite length_app. cbn. lia.
Qed.

Lemma scaledWidths_unique (eff : number) (densities needWidths : list number) :
  Set_unique needWidths -> Set_unique (scaledWidths eff densities needWidths).
Proof.
  revert needWidths. unfold scaledWidths.
  induction densities as [|d rest IH]; intros needWidths Hs; [exact Hs|].
  cbn [fold_left]. now apply IH, Set_add_unique.
Qed.

Lemma scaledWidths_In (eff y : number) (densities needWidths : list number) :
  In y (scaledWidths eff densities needWidths) ->
  In y needWidths
  \/ exists d, In d densities /\ y = Num.ceil (Num.mul eff d).
Proof.
  revert needWidths. unfold scaledWidths.
  induction densities as [|d rest IH]; intros needWidths Hy; [now left|].
  cbn [fold_left] in Hy. destruct (IH _ Hy) as [Hin|[d' [Hd' ->]]].
  - destruct (Set_add_In _ _ _ Hin) as [->|Hin'].
    + right. exists d. split; [now left | reflexivity].
    + now left.
  - right. exists d'. split; [now right | reflexivity].
Qed.

Lemma scaledWidths_length (eff : number) (densities needWidths : list number) :
  (List.length (scaledWidths eff densities needWidths)
   <= List.length densities + List.length needWidths)%nat.
Proof.
  revert needWidths. unfold scaledWidths.
  induction densities as [|d rest IH]; intros needWidths; [cbn; lia|].
  cbn [fold_left List.length]. specialize (IH (Set_add (Num.ceil (Num.mul eff d)) needWidths)).
  pose proof (Set_add_length (Num.ceil (Num.mul eff d)) needWidths). lia.
Qed.

(** The width the scan ends on is the width of one of the rules. *)
Lemma whichSize_Some_in (device : Device) (sizes : list Size) :
  forall imgWidth wd,
    whichSize device sizes imgWidth = Ok (Some wd) ->
    imgWidth = Some wd \/ exists s, In s sizes /\ s.(width) = wd.
Proof.
  induction sizes as [|s rest IH]; intros imgWidth wd Hsel; cbn [whichSize] in Hsel.
  - left. now injection Hsel.
  - destruct (conditionsLoop device s.(conditions)) as [[|]|e];
      cbn [bind] in Hsel; [| |discriminate].
    + right. exists s. split; [now left | now injection Hsel].
    + destruct (IH _ _ Hsel) as [E|[s' [Hs' E]]].
      * right. exists s. split; [now left | now injection E].
      * right. exists s'. split; [now right | exact E].
Qed.

Lemma whichSize_None (device : Device) (sizes : list Size) :
  forall imgWidth,
    whichSize device sizes imgWidth = Ok None ->
    imgWidth = None /\ sizes = [].
Proof.
  induction sizes as [|s rest IH]; intros imgWidth Hsel; cbn [whichSize] in Hsel.
  - split; [now injection Hsel | reflexivity].
  - destruct (conditionsLoop device s.(conditions)) as [[|]|e];
      cbn [bind] in Hsel; try discriminate.
    destruct (IH _ Hsel) as [E _]. discriminate.
Qed.

(** ** Errors *)

Open Scope string_scope.

Lemma conditionsLoop_Throw (device : Device) (conds : list MediaCondition)
  (e : exn) :
  conditionsLoop device conds = Throw e ->
  exists c, In c conds /\ unit_of c.(value) <> "px"
            /\ e = unitError (unit_of c.(value)).
Proof.
  induction conds as [|c rest IH]; cbn [conditionsLoop]; [discriminate|].
  rewrite cssValue_defined. cbn [bind].
  destruct (String.eqb_spec (unit_of (value c)) "px") as [Hpx|Hpx];
    cbn [negb].
  - rewrite match_expression.
    destruct (condition_holds device c); cbn [negb]; [|discriminate].
    intros Hrest. destruct (IH Hrest) as [c' [Hin Hc']].
    exists c'. split; [now right | exact Hc'].
  - intros [= <-]. exists c. split; [now left|]. split; [exact Hpx|reflexivity].
Qed.

Lemma whichSize_Throw (device : Device) (sizes : list Size) (e : exn) :
  forall imgWidth,
    whichSize device sizes imgWidth = Throw e ->
    exists s c, In s sizes /\ In c s.(conditions)
                /\ unit_of c.(value) <> "px"
                /\ e = unitError (unit_of c.(value)).
Proof.
  induction sizes as [|s rest IH]; intros imgWidth Hsel;
    cbn [whichSize] in Hsel; [discriminate|].
  destruct (conditionsLoop device s.(conditions)) as [[|]|e'] eqn:Hc;
    cbn [bind] in Hsel; [discriminate| |].
  - destruct (IH _ Hsel) as [s' [c [Hs' Hc']]].
    exists s', c. split; [now right | exact Hc'].
  - injection Hsel as ->. destruct (conditionsLoop_Throw _ _ Hc) as [c [Hin Hc']].
    exists s, c. split; [now left|]. split; assumption.
Qed.

Lemma whichSize_px_returns (device : Device) (sizes : list Size) :
  rules_px sizes ->
  forall imgWidth, exists r, whichSize device sizes imgWidth = Ok r.
Proof.
  induction 1 as [|s rest Hs _ IH]; intros imgWidth; cbn [whichSize].
  - now exists imgWidth.
  - rewrite (conditionsLoop_px _ Hs). cbn [bind].
    destruct (forallb _ _); [now eexists | apply IH].
Qed.

(** X1.  The widths [deviceWidths] returns are unique: no two elements of
    the list it returns are the same number. *)
Theorem X1_deviceWidths_unique (sizes : list Size) (device : Device)
  (ws : list number) :
  deviceWidths sizes device = Ok ws -> Set_unique ws.
Proof.
  unfold deviceWidths. destruct (whichSize device sizes None) as [[wd|]|e];
    cbn [bind]; [| |discriminate].
  - rewrite forEach_dppx_defined. intros [= <-].
    now apply scaledWidths_unique.
  - destruct device.(dppx); cbn; [|discriminate]. now intros [= <-].
Qed.

Lemma X1_deviceWidths_unique_witness :
  Set_unique [num 1; num 2].
Proof.
  apply (@X1_deviceWidths_unique [mkSize [] "0.4px"]
           (mkDevice (num 800) (num 700) [num 1; num 2; num 3; num 4] false)).
  reflexivity.
Defined.

(** X2.  [deviceWidths] returns at most one width per density, and every
    width it returns is [ceil(effectiveWidth * d)] for a density [d] of the
    device and the width token of one of the rules, the effective width
    and the product being the doubles the code computes. *)
Theorem X2_deviceWidths_from_densities (sizes : list Size) (device : Device)
  (ws : list number) :
  deviceWidths sizes device = Ok ws ->
  (List.length ws <= List.length device.(dppx))%nat
  /\ forall x, In x ws ->
       exists s d, In s sizes /\ In d device.(dppx)
                   /\ x = Num.ceil (Num.mul (effectiveWidth device s.(width)) d).
Proof.
  unfold deviceWidths.
  destruct (whichSize device sizes None) as [[wd|]|e] eqn:Hsel;
    cbn [bind]; [| |discriminate].
  - rewrite forEach_dppx_defined. intros [= <-]. split.
    + pose proof (scaledWidths_length (effectiveWidth device wd)
                    device.(dppx) []) as Hlen. cbn in Hlen. lia.
    + intros x Hx. destruct (scaledWidths_In _ _ _ _ Hx) as [[]|[d [Hd ->]]].
      destruct (whichSize_Some_in _ _ _ Hsel) as [E|[s [Hs <-]]];
        [discriminate|].
      now exists s, d.
  - destruct device.(dppx); cbn; [|discriminate]. intros [= <-].
    split; [cbn; lia | intros x []].
Qed.

Lemma X2_deviceWidths_from_densities_witness :
  let device := mkDevice (num 375) (num 667) [num 1; num 2; num 3] false in
  exists s d, In s [mkSize [] "35.2vw"] /\ In d device.(dppx)
              /\ num 133
                 = Num.ceil (Num.mul (effectiveWidth device s.(width)) d).
Proof.
  cbv zeta.
  apply (proj2 (@X2_deviceWidths_from_densities [mkSize [] "35.2vw"]
           (mkDevice (num 375) (num 667) [num 1; num 2; num 3] false)
           [num 133; num 265; num 397]
           ltac:(vm_compute; reflexivity))).
  now left.
Defined.

(** X3.  [deviceWidths] fails in two ways only: with the error
    [Invalid query unit u: only px is supported] for the unit [u], other
    than [px], of a condition of one of the rules; or with the type error,
    when the rule list is empty and the device has a density. *)
Theorem X3_deviceWidths_errors (sizes : list Size) (device : Device)
  (e : exn) :
  deviceWidths sizes device = Throw e ->
  (e = TypeError /\ sizes = [] /\ device.(dppx) <> [])
  \/ (exists s c, In s sizes /\ In c s.(conditions)
                  /\ unit_of c.(value) <> "px"
                  /\ e = unitError (unit_of c.(value))).
Proof.
  unfold deviceWidths.
  destruct (whichSize device sizes None) as [[wd|]|e'] eqn:Hsel; cbn [bind].
  - rewrite forEach_dppx_defined. discriminate.
  - destruct (whichSize_None _ _ _ Hsel) as [_ ->].
    destruct device.(dppx) as [|d ds]; cbn; [discriminate|].
    intros [= <-]. left. repeat split. discriminate.
  - intros [= <-]. right. exact (whichSize_Throw _ _ _ Hsel).
Qed.

Lemma X3_deviceWidths_errors_witness :
  (TypeError = TypeError /\ @nil Size = [] /\ [num 1] <> [])
  \/ (exists s c, In s [] /\ In c s.(conditions)
                  /\ unit_of c.(value) <> "px"
                  /\ TypeError = unitError (unit_of c.(value))).
Proof.
  apply (@X3_deviceWidths_errors []
           (mkDevice (num 800) (num 700) [num 1] false) TypeError).
  reflexivity.
Defined.

(** X4.  With a rule list that is not empty and whose condition values are
    all in [px], [deviceWidths] returns a set of widths, whatever the
    device. *)
Theorem X4_deviceWidths_returns (sizes : list Size) (device : Device) :
  sizes <> [] -> rules_px sizes ->
  exists ws, deviceWidths sizes device = Ok ws.
Proof.
  intros Hne Hpx. unfold deviceWidths.
  destruct (whichSize_px_returns device Hpx None) as [[wd|] Hsel];
    rewrite Hsel; cbn [bind].
  - rewrite forEach_dppx_defined. now eexists.
  - destruct (whichSize_None _ _ _ Hsel) as [_ E]. contradiction.
Qed.

Lemma X4_deviceWidths_returns_witness :
  exists ws, deviceWidths templateSizes failDevice = Ok ws.
Proof.
  apply X4_deviceWidths_returns.
  - discriminate.
  - repeat constructor.
Defined.

Close Scope string_scope.
(** ** [cssValue] *)

Lemma dropWhile_all (p : ascii -> bool) (g s : string) :
  string_all p g = true ->
  Str.dropWhile p (g ++ s)%string = Str.dropWhile p s.
Proof.
  induction g as [|c g IH]; cbn; [reflexivity|].
  intros Hg. apply andb_prop in Hg. destruct Hg as [Hc Hg].
  rewrite Hc. now apply IH.
Qed.

Lemma takeWhile_all (p : ascii -> bool) (g s : string) :
  string_all p g = true ->
  Str.takeWhile p (g ++ s)%string = (g ++ Str.takeWhile p s)%string.
Proof.
  induction g as [|c g IH]; cbn; [reflexivity|].
  intros Hg. apply andb_prop in Hg. destruct Hg as [Hc Hg].
  rewrite Hc. now rewrite IH.
Qed.

Lemma takeWhile_self (p : ascii -> bool) (s : string) :
  string_all p s = true -> Str.takeWhile p s = s.
Proof.
  induction s as [|c s IH]; cbn; [reflexivity|].
  intros Hs. apply andb_prop in Hs. destruct Hs as [Hc Hs].
  rewrite Hc. now rewrite IH.
Qed.

Lemma dropWhile_self_nil (p : ascii -> bool) (s : string) :
  string_all p s = true -> Str.dropWhile p s = EmptyString.
Proof.
  induction s as [|c s IH]; cbn; [reflexivity|].
  intros Hs. apply andb_prop in Hs. destruct Hs as [Hc Hs].
  rewrite Hc. now apply IH.
Qed.

Lemma string_all_impl (p q : ascii -> bool) (s : string) :
  (forall c, p c = true -> q c = true) ->
  string_all p s = true -> string_all q s = true.
Proof.
  intros Hpq. induction s as [|c s IH]; cbn; [reflexivity|].
  intros Hs. apply andb_prop in Hs. destruct Hs as [Hc Hs].
  now rewrite (Hpq _ Hc), IH.
Qed.

Lemma string_all_takeWhile (p : ascii -> bool) (s : string) :
  string_all p (Str.takeWhile p s) = true.
Proof.
  induction s as [|c s IH]; cbn; [reflexivity|].
  destruct (p c) eqn:Hc; cbn; [now rewrite Hc|reflexivity].
Qed.

Lemma all_digits_string_all (s : string) :
  Str.all_digits s = string_all Str.is_digit s.
Proof. induction s as [|c s IH]; cbn; [reflexivity | now rewrite IH]. Qed.

Lemma valueRegex_has_numeric (s : string) :
  has_numeric s = true <-> valueRegex s <> None.
Proof.
  unfold has_numeric, valueRegex.
  induction s as [|c s IH]; cbn.
  - split; [discriminate | congruence].
  - destruct (Str.is_digit_or_dot c); cbn.
    + split; [discriminate | reflexivity].
    + exact IH.
Qed.

(** A digit is worth between 0 and 9. *)
Lemma digit_value_bounds (c : ascii) :
  Str.is_digit c = true ->
  (0 <= Z.of_nat (nat_of_ascii c) - 48 <= 9)%Z.
Proof.
  unfold Str.is_digit. intros Hc. apply andb_prop in Hc.
  destruct Hc as [H1 H2]. apply Nat.leb_le in H1, H2. lia.
Qed.

Lemma digits_value_nonneg (s : string) :
  forall acc, string_all Str.is_digit s = true -> (0 <= acc)%Z ->
         (0 <= Str.digits_value s acc)%Z.
Proof.
  induction s as [|c s IH]; cbn [Str.digits_value string_all];
    intros acc Hs Hacc; [exact Hacc|].
  apply andb_prop in Hs. destruct Hs as [Hc Hs].
  apply IH; [exact Hs|]. pose proof (digit_value_bounds _ Hc). lia.
Qed.

Lemma Number_nonneg (s : string) (q : Q) :
  Number_ s = Fin q -> (0 <= q)%Q.
Proof.
  unfold Number_. set (t := Str.trim s).
  destruct (valueRegex t) as [m|].
  - destruct (Str.dropWhile Str.is_digit t) as [|c fp] eqn:Hafter.
    + apply Rounding.round_Fin_nonneg.
      change 0%Q with (inject_Z 0). rewrite <- Zle_Qle.
      apply digits_value_nonneg; [apply string_all_takeWhile | lia].
    + destruct (Ascii.eqb c "." && Str.all_digits fp
                && negb (String.eqb (Str.takeWhile Str.is_digit t) EmptyString
                         && String.eqb fp EmptyString))%bool eqn:Hc;
        [|discriminate].
      apply Rounding.round_Fin_nonneg.
      apply andb_prop in Hc. destruct Hc as [Hc _].
      apply andb_prop in Hc. destruct Hc as [_ Hfp].
      rewrite all_digits_string_all in Hfp.
      unfold Qle. cbn [Qnum Qden]. rewrite Z.mul_1_r. cbn [Z.mul].
      apply digits_value_nonneg; [exact Hfp|].
      apply digits_value_nonneg; [apply string_all_takeWhile | lia].
  - destruct (String.eqb t EmptyString); [intros [= <-]; discriminate|].
    destruct (String.eqb t "Infinity" || String.eqb t "+Infinity")%bool;
      [discriminate|].
    destruct (String.eqb t "-Infinity"); discriminate.
Qed.

(** X5.  The magnitude [cssValue] returns is never a negative number: a
    sign in front of the digits is not read, so that [-5px] has the
    magnitude [5]. *)
Theorem X5_magnitude_never_negative :
  (forall (v : string) (q : Q) (unit : string),
      cssValue (Some v) = Ok (Fin q, unit) -> (0 <= q)%Q)
  /\ cssValue (Some "-5px"%string) = Ok (num 5, "px"%string).
Proof.
  split; [|reflexivity].
  intros v q unit. rewrite cssValue_defined. intros [= Hm _].
  unfold magnitude in Hm.
  destruct (valueRegex v) as [[value u]|]; now apply Number_nonneg in Hm.
Qed.

Lemma X5_magnitude_never_negative_witness : (0 <= 5)%Q.
Proof.
  apply (proj1 X5_magnitude_never_negative "-5px"%string 5%Q "px"%string).
  reflexivity.
Defined.

(** X6.  [cssValue] ignores whatever precedes the first digit or dot: a
    prefix without digit and dot, in front of a string that holds a digit
    or a dot, changes neither the magnitude nor the unit. *)
Theorem X6_cssValue_ignores_prefix (g s : string) :
  has_numeric g = false -> has_numeric s = true ->
  cssValue (Some (g ++ s)%string) = cssValue (Some s).
Proof.
  intros Hg Hs. unfold has_numeric in Hg. apply negb_false_iff in Hg.
  apply valueRegex_has_numeric in Hs.
  assert (E : valueRegex (g ++ s)%string = valueRegex s)
    by (unfold valueRegex; now rewrite (dropWhile_all _ _ s Hg)).
  unfold cssValue. rewrite E.
  destruct (valueRegex s) as [[value unit]|]; [reflexivity | contradiction].
Qed.

Lemma X6_cssValue_ignores_prefix_witness :
  cssValue (Some "calc(50vw"%string) = cssValue (Some "50vw"%string).
Proof.
  apply (@X6_cssValue_ignores_prefix "calc("%string "50vw"%string);
    reflexivity.
Defined.
Lemma append_nil_r (s : string) : (s ++ EmptyString)%string = s.
Proof. induction s as [|c s IH]; cbn; [reflexivity | now rewrite IH]. Qed.

Lemma rev_app_rev_app (s : string) :
  forall a b, Str.rev_app (Str.rev_app s a) b = Str.rev_app a (s ++ b)%string.
Proof.
  induction s as [|c s IH]; intros a b; cbn; [reflexivity|].
  rewrite IH. reflexivity.
Qed.

Lemma string_all_rev_app (p : ascii -> bool) (s : string) :
  forall acc, string_all p (Str.rev_app s acc)
         = (string_all p s && string_all p acc)%bool.
Proof.
  induction s as [|c s IH]; intros acc; cbn; [reflexivity|].
  rewrite IH. cbn. now destruct (p c), (string_all p s), (string_all p acc).
Qed.

Lemma string_all_dropWhile (p q : ascii -> bool) (s : string) :
  string_all p s = true -> string_all p (Str.dropWhile q s) = true.
Proof.
  induction s as [|c s IH]; cbn; [reflexivity|].
  intros Hs. destruct (q c); [|exact Hs].
  apply andb_prop in Hs. now apply IH.
Qed.

Lemma string_all_app (p : ascii -> bool) (s t : string) :
  string_all p (s ++ t)%string = (string_all p s && string_all p t)%bool.
Proof.
  induction s as [|c s IH]; cbn; [reflexivity|].
  rewrite IH. now destruct (p c).
Qed.

Lemma dropWhile_none (p : ascii -> bool) (s : string) :
  string_all (fun c => negb (p c)) s = true -> Str.dropWhile p s = s.
Proof.
  destruct s as [|c s]; cbn; [reflexivity|].
  intros Hs. apply andb_prop in Hs. destruct Hs as [Hc _].
  apply negb_true_iff in Hc. now rewrite Hc.
Qed.

(** A string without blank is its own trimming. *)
Lemma trim_no_space (s : string) :
  string_all (fun c => negb (Str.is_space c)) s = true -> Str.trim s = s.
Proof.
  intros Hs. unfold Str.trim. rewrite (dropWhile_none _ _ Hs).
  rewrite dropWhile_none
    by (rewrite string_all_rev_app, Hs; reflexivity).
  rewrite rev_app_rev_app. cbn. apply append_nil_r.
Qed.

Lemma trim_keeps (p : ascii -> bool) (s : string) :
  string_all p s = true -> string_all p (Str.trim s) = true.
Proof.
  intros Hs. unfold Str.trim. rewrite string_all_rev_app.
  rewrite string_all_dropWhile; [reflexivity|].
  rewrite string_all_rev_app.
  rewrite string_all_dropWhile; [reflexivity | exact Hs].
Qed.

Lemma digit_not_space (c : ascii) :
  Str.is_digit_or_dot c = true -> negb (Str.is_space c) = true.
Proof.
  unfold Str.is_digit_or_dot, Str.is_digit, Str.is_space.
  intros Hc. apply negb_true_iff.
  destruct (Ascii.eqb c "."%char) eqn:E.
  { apply Ascii.eqb_eq in E. rewrite E. reflexivity. }
  rewrite orb_false_r in Hc. apply andb_prop in Hc. destruct Hc as [H1 H2].
  apply Nat.leb_le in H1, H2.
  apply orb_false_iff. split.
  - apply andb_false_iff. right. apply Nat.leb_gt. lia.
  - apply Nat.eqb_neq. lia.
Qed.

Lemma digit_is_numeric (c : ascii) :
  Str.is_digit c = true -> Str.is_digit_or_dot c = true.
Proof. unfold Str.is_digit_or_dot. now intros ->. Qed.

Lemma takeWhile_stop (p : ascii -> bool) (u : string) :
  match u with
  | EmptyString => true
  | String c _ => negb (p c)
  end = true ->
  Str.takeWhile p u = EmptyString /\ Str.dropWhile p u = u.
Proof.
  destruct u as [|c u]; cbn; [now split|].
  intros Hc. apply negb_true_iff in Hc. rewrite Hc. now split.
Qed.

(** The regular expression on a run of digits and dots followed by a unit. *)
Lemma valueRegex_token (n u : string) :
  n <> EmptyString ->
  string_all Str.is_digit_or_dot n = true ->
  no_leading_numeric u = true ->
  string_all (fun c => negb (Str.is_digit c)) u = true ->
  valueRegex (n ++ u)%string = Some (n, u).
Proof.
  intros Hne Hn Hu0 Hu. unfold valueRegex.
  destruct (takeWhile_stop Str.is_digit_or_dot u Hu0) as [Ht Hd].
  assert (Hdrop : Str.dropWhile (fun c => negb (Str.is_digit_or_dot c))
                    (n ++ u)%string = (n ++ u)%string).
  { destruct n as [|c n]; [contradiction|]. cbn in *.
    apply andb_prop in Hn. destruct Hn as [Hc _]. now rewrite Hc. }
  rewrite Hdrop.
  destruct (n ++ u)%string as [|c0 r] eqn:E.
  { destruct n; [contradiction | discriminate]. }
  rewrite <- E. rewrite (takeWhile_all _ _ u Hn), Ht, append_nil_r.
  rewrite (dropWhile_all _ _ u Hn), Hd.
  now rewrite (takeWhile_self _ _ Hu).
Qed.

Lemma Number_digits (ip : string) :
  ip <> EmptyString -> string_all Str.is_digit ip = true ->
  Number_ ip = Num.round (inject_Z (Str.digits_value ip 0)).
Proof.
  intros Hne Hip. unfold Number_.
  assert (Hnum : string_all Str.is_digit_or_dot ip = true)
    by (eapply string_all_impl; [apply digit_is_numeric | exact Hip]).
  rewrite trim_no_space
    by (eapply string_all_impl; [apply digit_not_space | exact Hnum]).
  pose proof (@valueRegex_token ip EmptyString Hne Hnum eq_refl eq_refl)
    as Hre.
  rewrite append_nil_r in Hre. rewrite Hre.
  now rewrite (dropWhile_self_nil _ _ Hip), (takeWhile_self _ _ Hip).
Qed.

Lemma Number_decimal (ip fp : string) :
  ip <> EmptyString ->
  string_all Str.is_digit ip = true -> string_all Str.is_digit fp = true ->
  Number_ (ip ++ String "."%char fp)%string
  = Num.round (Str.digits_value fp (Str.digits_value ip 0)
               # Z.to_pos (10 ^ Z.of_nat (String.length fp))).
Proof.
  intros Hne Hip Hfp. unfold Number_.
  assert (Hnum : string_all Str.is_digit_or_dot (ip ++ String "."%char fp)
                 = true).
  { rewrite string_all_app. cbn [string_all].
    rewrite (string_all_impl _ _ _ digit_is_numeric Hip).
    now rewrite (string_all_impl _ _ _ digit_is_numeric Hfp). }
  rewrite trim_no_space
    by (eapply string_all_impl; [apply digit_not_space | exact Hnum]).
  assert (Hne' : (ip ++ String "."%char fp)%string <> EmptyString)
    by (destruct ip; [contradiction | discriminate]).
  pose proof (@valueRegex_token _ EmptyString Hne' Hnum eq_refl eq_refl)
    as Hre.
  rewrite append_nil_r in Hre. rewrite Hre.
  rewrite (dropWhile_all _ _ _ Hip), (takeWhile_all _ _ _ Hip).
  cbn [Str.dropWhile Str.takeWhile]. change (Str.is_digit ".") with false.
  cbv iota. rewrite append_nil_r, all_digits_string_all, Hfp.
  destruct ip as [|c ip]; [contradiction|]. reflexivity.
Qed.

(** X7.  A token made of digits and a unit is read as the double nearest
    to the integer written, which is that integer when it is at most
    [2^53], with that unit; and a token with a decimal point as the double
    nearest to the decimal number written: [cssValue] of [ip ++ u] is the
    rounded value of the digits [ip] with the unit [u], and of
    [ip ++ "." ++ fp ++ u] the rounded value of [ip.fp], provided [u]
    holds no digit and does not begin with a dot. *)
Theorem X7_cssValue_reads_tokens (ip u : string) :
  ip <> EmptyString ->
  string_all Str.is_digit ip = true ->
  no_leading_numeric u = true ->
  string_all (fun c => negb (Str.is_digit c)) u = true ->
  cssValue (Some (ip ++ u)%string)
  = Ok (Num.round (inject_Z (Str.digits_value ip 0)), u)
  /\ ((Str.digits_value ip 0 <= 2 ^ 53)%Z ->
      cssValue (Some (ip ++ u)%string) = Ok (num (Str.digits_value ip 0), u))
  /\ forall fp,
      string_all Str.is_digit fp = true ->
      cssValue (Some ((ip ++ String "."%char fp) ++ u)%string)
      = Ok (Num.round (Str.digits_value fp (Str.digits_value ip 0)
                       # Z.to_pos (10 ^ Z.of_nat (String.length fp))), u).
Proof.
  intros Hne Hip Hu0 Hu.
  assert (Hnum : string_all Str.is_digit_or_dot ip = true)
    by (eapply string_all_impl; [apply digit_is_numeric | exact Hip]).
  assert (Hint : cssValue (Some (ip ++ u)%string)
                 = Ok (Num.round (inject_Z (Str.digits_value ip 0)), u)).
  { unfold cssValue. rewrite (@valueRegex_token ip u Hne Hnum Hu0 Hu).
    now rewrite Number_digits. }
  split; [exact Hint|]. split.
  - intros Hle. rewrite Hint. unfold num, Num.of_Z.
    rewrite Rounding.round_Z; [reflexivity|].
    split; [|exact Hle]. apply digits_value_nonneg; [exact Hip | lia].
  - intros fp Hfp. unfold cssValue.
    rewrite valueRegex_token; try assumption.
    + now rewrite Number_decimal.
    + destruct ip; [contradiction | discriminate].
    + rewrite string_all_app. cbn [string_all]. rewrite Hnum.
      now rewrite (string_all_impl _ _ _ digit_is_numeric Hfp).
Qed.

Lemma X7_cssValue_reads_tokens_witness :
  cssValue (Some "680px"%string) = Ok (num 680, "px"%string)
  /\ cssValue (Some "9007199254740993px"%string)
     = Ok (num 9007199254740992, "px"%string)
  /\ cssValue (Some "35.2vw"%string)
     = Ok (Fin (2476979795053773 # 70368744177664), "vw"%string).
Proof.
  split; [|split].
  - apply (proj1 (proj2 (@X7_cssValue_reads_tokens "680"%string "px"%string
                           ltac:(discriminate) eq_refl eq_refl eq_refl))).
    vm_compute. discriminate.
  - refine (eq_trans
              (proj1 (@X7_cssValue_reads_tokens "9007199254740993"%string
                        "px"%string ltac:(discriminate) eq_refl eq_refl
                        eq_refl)) _).
    vm_compute. reflexivity.
  - refine (eq_trans
              (proj2 (proj2 (@X7_cssValue_reads_tokens "35"%string
                               "vw"%string ltac:(discriminate) eq_refl
                               eq_refl eq_refl)) "2"%string eq_refl) _).
    vm_compute. reflexivity.
Defined.

Lemma valueRegex_none (v : string) :
  has_numeric v = false -> valueRegex v = None.
Proof.
  intros Hv. destruct (valueRegex v) eqn:E; [|reflexivity].
  assert (Hn : valueRegex v <> None) by congruence.
  apply valueRegex_has_numeric in Hn. congruence.
Qed.

Lemma scaledWidths_NaN (densities : list number) :
  scaledWidths NaN densities [NaN] = [NaN].
Proof.
  induction densities as [|d rest IH]; [reflexivity|].
  unfold scaledWidths in *. cbn [fold_left]. exact IH.
Qed.

(** X8.  A width token without any digit and any dot, such as [auto],
    raises no error: unless it is blank or a signed [Infinity], its
    magnitude is [NaN], and [deviceWidths] returns the set that holds
    [NaN] alone for every device that has a density.  (The token is taken
    to be ASCII: the blanks [Number] strips are modelled for ASCII only.) *)
Theorem X8_token_without_digit (v : string) (w h d : number)
  (ds : list number) (flip : bool) :
  ascii_only v = true ->
  has_numeric v = false ->
  Str.trim v <> EmptyString ->
  Str.trim v <> "Infinity"%string ->
  Str.trim v <> "+Infinity"%string ->
  Str.trim v <> "-Infinity"%string ->
  cssValue (Some v) = Ok (NaN, EmptyString)
  /\ deviceWidths [mkSize [] v] (mkDevice w h (d :: ds) flip) = Ok [NaN].
Proof.
  intros _ Hv H0 H1 H2 H3.
  assert (Hnum : Number_ v = NaN).
  { unfold Number_. rewrite valueRegex_none.
    - apply String.eqb_neq in H0, H1, H2, H3.
      now rewrite H0, H1, H2, H3.
    - unfold has_numeric in *. apply negb_false_iff in Hv.
      apply negb_false_iff. now apply trim_keeps. }
  assert (Hcss : cssValue (Some v) = Ok (NaN, EmptyString)).
  { unfold cssValue. rewrite (valueRegex_none _ Hv). now rewrite Hnum. }
  split; [exact Hcss|].
  rewrite (@deviceWidths_selected [mkSize [] v] _ v eq_refl).
  unfold effectiveWidth, unit_of, magnitude.
  rewrite (valueRegex_none _ Hv), Hnum. cbn [String.eqb dppx].
  f_equal. apply (scaledWidths_NaN ds).
Qed.

Lemma X8_token_without_digit_witness :
  deviceWidths [mkSize [] "auto"%string]
    (mkDevice (num 800) (num 700) [num 2; num 1] false) = Ok [NaN].
Proof.
  apply (proj2 (@X8_token_without_digit "auto"%string (num 800) (num 700)
                  (num 2) [num 1] false eq_refl eq_refl
                  ltac:(discriminate) ltac:(discriminate)
                  ltac:(discriminate) ltac:(discriminate))).
Defined.
(** * Further properties of [filterSizes] *)

Section Selection.

Context {T : Type} `{Candidate T}.

Variable factor : number.

Lemma Subseq_nil_l (A : Type) (l : list A) : Subseq [] l.
Proof. induction l; [apply Subseq_nil | now apply Subseq_skip]. Qed.

Lemma scan_Subseq (rest : list T) :
  forall a r, scan factor a rest = Some r -> Subseq r (a :: rest).
Proof.
  induction rest as [|b rest IH]; intros a r Hs; cbn [scan] in Hs.
  - destruct (toBoolean a); [|discriminate]. injection Hs as <-.
    apply Subseq_keep, Subseq_nil.
  - destruct (toBoolean a && negb (toBoolean b)).
    { injection Hs as <-. apply Subseq_keep, Subseq_nil_l. }
    destruct (Num.ltb (scale a b) factor).
    + destruct (scan factor b rest) as [r'|] eqn:Hs'; [|discriminate].
      injection Hs as <-. apply Subseq_keep. now apply IH.
    + specialize (IH a r Hs). inversion IH; subst.
      * now apply Subseq_skip, Subseq_skip.
      * now apply Subseq_keep, Subseq_skip.
Qed.

Lemma Subseq_length (A : Type) (r l : list A) :
  Subseq r l -> (List.length r <= List.length l)%nat.
Proof. induction 1; cbn; lia. Qed.

Lemma Subseq_In (A : Type) (r l : list A) (x : A) :
  Subseq r l -> In x r -> In x l.
Proof.
  induction 1 as [|y r l _ IH|y r l _ IH]; cbn; intros Hx; auto.
  destruct Hx as [->|Hx]; auto.
Qed.

(** Neighbours in the result have a scale product below the factor. *)
Lemma scan_neighbours (rest : list T) :
  forall a r, scan factor a rest = Some r ->
         Sorted (fun x y => Num.ltb (scale x y) factor = true) r.
Proof.
  induction rest as [|b rest IH]; intros a r Hs; cbn [scan] in Hs.
  - destruct (toBoolean a); [|discriminate]. injection Hs as <-.
    repeat constructor.
  - destruct (toBoolean a && negb (toBoolean b)).
    { injection Hs as <-. repeat constructor. }
    destruct (Num.ltb (scale a b) factor) eqn:Hlt; [|now apply (IH a)].
    destruct (scan factor b rest) as [r'|] eqn:Hs'; [|discriminate].
    injection Hs as <-.
    destruct (@scan_head T _ factor rest b r' Hs') as [tl ->].
    constructor; [now apply (IH b) | now constructor].
Qed.

(** With truthy candidates only, a candidate that is left out has a scale
    product not below the factor against a candidate that is kept. *)
Lemma scan_covers (rest : list T) :
  forall a r,
    Forall (fun x => toBoolean x = true) (a :: rest) ->
    scan factor a rest = Some r ->
    forall x, In x (a :: rest) ->
         In x r \/ exists k, In k r /\ Num.ltb (scale k x) factor = false.
Proof.
  induction rest as [|b rest IH]; intros a r Hall Hs x Hx; cbn [scan] in Hs.
  - destruct (toBoolean a); [|discriminate]. injection Hs as <-.
    left. exact Hx.
  - inversion Hall as [|? ? Ha Hrest]; subst.
    inversion Hrest as [|? ? Hb Hrest']; subst.
    rewrite Ha, Hb in Hs. cbn [negb andb] in Hs.
    destruct (Num.ltb (scale a b) factor) eqn:Hlt.
    + destruct (scan factor b rest) as [r'|] eqn:Hs'; [|discriminate].
      injection Hs as <-. destruct Hx as [<-|Hx]; [left; now left|].
      destruct (IH b r' Hrest Hs' x Hx) as [Hin|[k [Hk Hkx]]].
      * left. now right.
      * right. exists k. split; [now right | exact Hkx].
    + destruct (@scan_head T _ factor rest a r Hs) as [tl ->].
      destruct Hx as [<-|[<-|Hx]].
      * left. now left.
      * right. exists a. split; [now left | exact Hlt].
      * apply (IH a (a :: tl)); auto. now right.
Qed.

End Selection.
(** X9.  [filterSizes] only selects: what it returns is never longer than
    the input and holds candidates of the input only.  When no sort key is
    [NaN], so that the order of the sorted list is the same in every
    engine, it is the sorted list with some candidates left out, and the
    first candidate of the sorted list is always kept. *)
Theorem X9_filterSizes_selects (T : Type) (C : Candidate T) (L : list T)
  (factor : option number) (fuel : nat) (r : list T) :
  filterSizes fuel L factor = Some r ->
  (List.length r <= List.length L)%nat
  /\ (forall x, In x r -> In x L)
  /\ (Forall (fun x => sortKey x <> NaN) L ->
      Subseq r (sort L) /\ hd_error r = hd_error (sort L)).
Proof.
  intros Hr. apply filterSizes_sound in Hr.
  assert (Hsub : Subseq r (sort L)).
  { destruct (sort L) as [|a rest]; cbn [scanAll] in Hr.
    - injection Hr as <-. apply Subseq_nil.
    - now apply scan_Subseq with (factor := factor_arg factor). }
  split; [|split].
  - rewrite <- (sort_length L). now apply Subseq_length.
  - intros x Hx. apply Permutation_in with (l := sort L).
    + symmetry. apply sort_perm.
    + now apply Subseq_In with (r := r).
  - intros _. split; [exact Hsub|].
    destruct (sort L) as [|a rest]; cbn [scanAll] in Hr.
    + now injection Hr as <-.
    + destruct (@scan_head T _ _ _ _ _ Hr) as [tl ->]. reflexivity.
Qed.

Lemma X9_filterSizes_selects_witness :
  (List.length (map num [2000; 1440; 1100; 801; 380; 250; 200]%Z)
   <= List.length sampleWidths)%nat
  /\ hd_error (map num [2000; 1440; 1100; 801; 380; 250; 200]%Z)
     = hd_error (sort sampleWidths).
Proof.
  assert (Hr : filterSizes 12 sampleWidths None
               = Some (map num [2000; 1440; 1100; 801; 380; 250; 200]%Z))
    by (vm_compute; reflexivity).
  destruct (@X9_filterSizes_selects number _ sampleWidths None 12%nat _ Hr)
    as [Hlen [_ Hsorted]].
  split; [exact Hlen|]. apply Hsorted.
  repeat constructor; discriminate.
Defined.

(** X10.  Any two neighbours of the list [filterSizes] returns have a scale
    product below the factor, the product being the one the code computes:
    the two quotients and their product, each rounded to a double. *)
Theorem X10_filterSizes_neighbours (T : Type) (C : Candidate T) (L : list T)
  (factor : option number) (fuel : nat) (r : list T) :
  filterSizes fuel L factor = Some r ->
  Sorted (fun x y => Num.ltb (scale x y) (factor_arg factor) = true) r.
Proof.
  intros Hr. apply filterSizes_sound in Hr.
  destruct (sort L) as [|a rest]; cbn [scanAll] in Hr.
  - injection Hr as <-. constructor.
  - now apply scan_neighbours with (rest := rest) (a := a).
Qed.

Lemma X10_filterSizes_neighbours_witness :
  Sorted (fun x y => Num.ltb (scale x y) (factor_arg None) = true)
         (map num [2000; 1440; 1100; 801; 380; 250; 200]%Z).
Proof.
  refine (@X10_filterSizes_neighbours number _ sampleWidths None 12%nat _ _).
  vm_compute. reflexivity.
Defined.

(** X11.  When no candidate is falsy (no width is [0] or [NaN]; a dimension
    pair never is), every candidate [filterSizes] leaves out has a scale
    product, as the code computes it, that is not below the factor against
    a candidate it keeps. *)
Theorem X11_filterSizes_covers (T : Type) (C : Candidate T) (L : list T)
  (factor : option number) (fuel : nat) (r : list T) :
  Forall (fun x => toBoolean x = true) L ->
  filterSizes fuel L factor = Some r ->
  forall x, In x L ->
       In x r
       \/ exists k, In k r
                    /\ Num.ltb (scale k x) (factor_arg factor) = false.
Proof.
  intros Hall Hr x Hx. apply filterSizes_sound in Hr.
  assert (Hall' : Forall (fun x => toBoolean x = true) (sort L))
    by (eapply Permutation_Forall; [apply sort_perm | exact Hall]).
  assert (Hx' : In x (sort L))
    by (apply Permutation_in with (l := L); [apply sort_perm | exact Hx]).
  destruct (sort L) as [|a rest]; [contradiction|]. cbn [scanAll] in Hr.
  now apply scan_covers with (rest := rest) (a := a).
Qed.

Lemma X11_filterSizes_covers_witness :
  In (num 1900) (map num [2000; 1440; 1100; 801; 380; 250; 200]%Z)
  \/ exists k, In k (map num [2000; 1440; 1100; 801; 380; 250; 200]%Z)
               /\ Num.ltb (scale k (num 1900)) (factor_arg None) = false.
Proof.
  refine (@X11_filterSizes_covers number _ sampleWidths None 12%nat _ _ _
            (num 1900) _).
  - repeat constructor.
  - vm_compute. reflexivity.
  - cbn. tauto.
Defined.

(** ** Widths *)

Lemma number_scan_truthy (factor : number) (rest : list number) :
  forall a r, scan factor a rest = Some r ->
         Forall (fun x => Num.truthy x = true) r.
Proof.
  induction rest as [|b rest IH]; intros a r Hs.
  - pose proof (@scan_Some_truthy number _ factor number_falsy_reference
                  [] a r Hs) as Ha.
    cbn [scan] in Hs. rewrite Ha in Hs.
    injection Hs as <-. constructor; [exact Ha | constructor].
  - pose proof (@scan_Some_truthy number _ factor number_falsy_reference
                  (b :: rest) a r Hs) as Ha.
    cbn [scan] in Hs. destruct (toBoolean a && negb (toBoolean b)).
    { injection Hs as <-. constructor; [exact Ha | constructor]. }
    destruct (Num.ltb (scale a b) factor); [|now apply (IH a)].
    destruct (scan factor b rest) as [r'|] eqn:Hs'; [|discriminate].
    injection Hs as <-. constructor; [exact Ha | now apply (IH b)].
Qed.

(** A truthy reference always gets the loop over widths to its end. *)
Lemma number_scan_returns (factor : number) (rest : list number) :
  forall a, Num.truthy a = true -> exists r, scan factor a rest = Some r.
Proof.
  induction rest as [|b rest IH]; intros a Ha; cbn [scan].
  - cbn [toBoolean Candidate_number]. rewrite Ha. now eexists.
  - cbn [toBoolean Candidate_number]. rewrite Ha. cbn [andb].
    destruct (Num.truthy b) eqn:Hb; cbn [negb]; [|now eexists].
    destruct (Num.ltb (scale a b) factor); [|now apply IH].
    destruct (IH b Hb) as [r' ->]. now eexists.
Qed.

Lemma number_filter_descending (L : list number) (factor : option number)
  (fuel : nat) (r : list number) :
  filterSizes fuel L factor = Some r ->
  Forall (fun x => Num.truthy x = true) r
  /\ StronglySorted (fun x y => Num.geb x y = true) r.
Proof.
  intros Hr. apply filterSizes_sound in Hr.
  pose proof (sort_Sorted L) as Hsorted.
  destruct (sort L) as [|a rest]; cbn [scanAll] in Hr.
  { injection Hr as <-. split; constructor. }
  assert (Htruthy : Forall (fun x => Num.truthy x = true) r)
    by (now apply number_scan_truthy with (factor := factor_arg factor)
                                           (rest := rest) (a := a)).
  split; [exact Htruthy|].
  assert (Hord : Sorted ordered r).
  { apply (@scan_Sorted number _ (factor_arg factor) rest a a r); auto.
    - now apply (@scan_Some_truthy number _ (factor_arg factor)
                   number_falsy_reference rest a r).
    - intros x _. apply number_truthy_key. }
  apply Sorted_StronglySorted.
  { intros x y z. apply geb_trans. }
  clear - Htruthy Hord.
  induction Hord as [|x r Hr IH Hhd]; [constructor|].
  inversion Htruthy as [|? ? Hx Htr]; subst.
  constructor; [now apply IH|].
  destruct Hhd as [|y r Hxy]; constructor.
  inversion Htr; subst.
  apply desc_leb; [now destruct x | now destruct y | exact Hxy].
Qed.

(** X12.  The widths [filterSizes] returns are numbers other than [0] and
    [NaN], in descending order: each one is greater than or equal to every
    one after it. *)
Theorem X12_widths_descending (L : list number) (factor : option number)
  (fuel : nat) (r : list number) :
  filterSizes fuel L factor = Some r ->
  Forall (fun x => Num.truthy x = true) r
  /\ StronglySorted (fun x y => Num.geb x y = true) r.
Proof. apply number_filter_descending. Qed.

Lemma X12_widths_descending_witness :
  Forall (fun x => Num.truthy x = true)
         (map num [2000; 1440; 1100; 801; 380; 250; 200]%Z).
Proof.
  refine (proj1 (@X12_widths_descending sampleWidths None 12%nat _ _)).
  vm_compute. reflexivity.
Defined.

(** X13.  On widths none of which is [NaN] the sorted list is in
    descending order, the same in every engine, and [filterSizes] returns
    exactly when the list is empty or its greatest element, the first of
    the sorted list, is not [0]: it then returns within one iteration more
    than the list is long, and otherwise no number of iterations gives a
    result. *)
Theorem X13_widths_termination (L : list number) (factor : option number) :
  Forall (fun x => x <> NaN) L ->
  StronglySorted (fun x y => Num.geb x y = true) (sort L)
  /\ (head_truthy (sort L) = true ->
      exists r, forall fuel, (List.length L < fuel)%nat ->
                        filterSizes fuel L factor = Some r)
  /\ (head_truthy (sort L) = false ->
      forall fuel, filterSizes fuel L factor = None).
Proof.
  intros Hnan. split; [|split; intros Hhd].
  - apply Sorted_descending; [|apply sort_Sorted].
    eapply Permutation_Forall; [apply sort_perm | exact Hnan].
  - assert (Hs : exists r, scanAll (factor_arg factor) (sort L) = Some r).
    { destruct (sort L) as [|a rest]; [now eexists|].
      now apply number_scan_returns. }
    destruct Hs as [r Hs]. exists r. intros fuel Hfuel.
    now apply filterSizes_returns.
  - apply filterSizes_diverges.
    destruct (sort L) as [|a rest]; [discriminate|]. cbn [scanAll].
    destruct (scan (factor_arg factor) a rest) as [r|] eqn:Hs; [|reflexivity].
    apply (@scan_Some_truthy number _ (factor_arg factor)
             number_falsy_reference) in Hs.
    cbn in Hhd, Hs. congruence.
Qed.

Lemma X13_widths_termination_witness :
  (exists r, forall fuel, (3 < fuel)%nat ->
        filterSizes fuel [num 0; num 5; num 4] None = Some r)
  /\ (forall fuel, filterSizes fuel [num 0; num (-5)] None = None).
Proof.
  split.
  - apply (proj1 (proj2 (@X13_widths_termination [num 0; num 5; num 4] None
                           ltac:(repeat constructor; discriminate)))).
    reflexivity.
  - apply (proj2 (proj2 (@X13_widths_termination [num 0; num (-5)] None
                           ltac:(repeat constructor; discriminate)))).
    reflexivity.
Defined.

(** X14.  On dimension pairs [filterSizes] always returns, within one
    iteration more than the list is long. *)
Theorem X14_dimensions_terminate (L : list Dimension)
  (factor : option number) :
  exists r, forall fuel, (List.length L < fuel)%nat ->
                    filterSizes fuel L factor = Some r.
Proof.
  apply filterSizes_truthy_returns. apply Forall_forall. reflexivity.
Qed.
(** ** A larger factor never keeps fewer candidates *)

Section Monotone.

Context {T : Type} `{Candidate T}.

(** The two factors, and a class [pos] of candidates that are truthy, have
    a finite key, and of which one kept under the first factor after a
    reference is kept under the second factor after any reference that is
    not smaller. *)
Variables f1 f2 : number.
Variable pos : T -> Prop.
Hypothesis pos_truthy : forall x, pos x -> toBoolean x = true.
Hypothesis pos_key : forall x, pos x -> exists q, sortKey x = Fin q.
Hypothesis pos_kept :
  forall a1 a2 b,
    pos a1 -> pos a2 -> pos b -> ordered a2 a1 ->
    Num.ltb (scale a1 b) f1 = true -> Num.ltb (scale a2 b) f2 = true.

Lemma kept_nil (f : number) (a : T) : pos a -> kept f a [] = 1%nat.
Proof. intros Ha. unfold kept. cbn [scan]. now rewrite (pos_truthy Ha). Qed.

Lemma kept_cons (f : number) (a b : T) (rest : list T) :
  pos a -> pos b -> Forall pos rest ->
  kept f a (b :: rest)
  = if Num.ltb (scale a b) f then S (kept f b rest) else kept f a rest.
Proof.
  intros Ha Hb Hrest. unfold kept. cbn [scan].
  rewrite (pos_truthy Ha), (pos_truthy Hb). cbn [negb andb].
  destruct (Num.ltb (scale a b) f); [|reflexivity].
  destruct (@scan_truthy_returns T _ f rest b (pos_truthy Hb)) as [r' ->];
    [|reflexivity].
  eapply Forall_impl; [|exact Hrest]. exact pos_truthy.
Qed.

Lemma ordered_pos_trans (x y z : T) :
  pos y -> ordered x y -> ordered y z -> ordered x z.
Proof.
  intros Hy. unfold ordered. apply Order.desc_trans.
  destruct (pos_key Hy) as [q ->]. discriminate.
Qed.

Lemma ordered_pos_refl (x : T) : pos x -> ordered x x.
Proof.
  intros Hx. unfold ordered. destruct (pos_key Hx) as [q ->].
  apply Order.desc_Fin. lra.
Qed.

(** The two runs side by side: the run with the second factor is never
    behind, and is not behind by a whole candidate when its reference is
    not smaller. *)
Lemma kept_stays_ahead (rest : list T) :
  forall a1 a2,
    pos a1 -> pos a2 -> Forall pos rest ->
    Sorted ordered (a2 :: rest) ->
    (ordered a2 a1 -> (kept f1 a1 rest <= kept f2 a2 rest)%nat)
    /\ (kept f1 a1 rest <= S (kept f2 a2 rest))%nat.
Proof.
  induction rest as [|b rest IH]; intros a1 a2 Ha1 Ha2 Hrest Hsorted.
  - rewrite !kept_nil by assumption. split; intros; lia.
  - inversion Hrest as [|? ? Hb Hrest']; subst.
    inversion Hsorted as [|? ? Hsorted' Hhd]; subst.
    inversion Hhd as [|? ? Ha2b]; subst.
    rewrite !kept_cons by assumption.
    assert (Hskip : Sorted ordered (a2 :: rest)).
    { constructor; [now inversion Hsorted'|].
      inversion Hsorted' as [|? ? _ Hhd']; subst.
      destruct Hhd' as [|c rest Hbc]; constructor.
      now apply ordered_pos_trans with (y := b). }
    destruct (IH a1 a2 Ha1 Ha2 Hrest' Hskip) as [IHa IHb].
    destruct (IH b b Hb Hb Hrest' Hsorted') as [IHbb _].
    destruct (IH a1 b Ha1 Hb Hrest' Hsorted') as [_ IHa1b].
    destruct (IH b a2 Hb Ha2 Hrest' Hskip) as [IHba2 _].
    specialize (IHbb (ordered_pos_refl Hb)). specialize (IHba2 Ha2b).
    destruct (Num.ltb (scale a1 b) f1) eqn:E1.
    + split.
      * intros Hord. rewrite (pos_kept Ha1 Ha2 Hb Hord E1). lia.
      * destruct (Num.ltb (scale a2 b) f2); lia.
    + destruct (Num.ltb (scale a2 b) f2); split; intros; try lia.
      now apply IHa.
Qed.

Lemma filterSizes_monotone (L : list T) (fuel1 fuel2 : nat) (r1 r2 : list T) :
  Forall pos L ->
  filterSizes fuel1 L (Some f1) = Some r1 ->
  filterSizes fuel2 L (Some f2) = Some r2 ->
  (List.length r1 <= List.length r2)%nat.
Proof.
  intros Hpos H1 H2. apply filterSizes_sound in H1, H2.
  cbn [factor_arg] in H1, H2.
  assert (Hpos' : Forall pos (sort L))
    by (eapply Permutation_Forall; [apply sort_perm | exact Hpos]).
  pose proof (sort_Sorted L) as Hsorted.
  destruct (sort L) as [|a rest]; cbn [scanAll] in H1, H2.
  - injection H1 as <-. cbn. lia.
  - inversion Hpos' as [|? ? Ha Hrest]; subst.
    destruct (kept_stays_ahead Ha Ha Hrest Hsorted) as [Hle _].
    specialize (Hle (ordered_pos_refl Ha)). unfold kept in Hle.
    now rewrite H1, H2 in Hle.
Qed.

End Monotone.

Lemma ltb_Fin_iff (a b : Q) : Num.ltb (Fin a) (Fin b) = true <-> (a < b)%Q.
Proof.
  split; [|apply ltb_Fin]. unfold Num.ltb.
  destruct (a ?= b)%Q eqn:E; try discriminate.
  intros _. now apply Qlt_alt.
Qed.

(** The scale product of a width against a reference does not grow when
    the reference does: the quotient does not, and rounding keeps the
    order. *)
Lemma number_pos_kept (q1 q2 : Q) (a1 a2 b : number) :
  (q1 <= q2)%Q ->
  positive a1 -> positive a2 -> positive b -> ordered a2 a1 ->
  Num.ltb (scale a1 b) (Fin q1) = true ->
  Num.ltb (scale a2 b) (Fin q2) = true.
Proof.
  destruct a1 as [| |x1|], a2 as [| |x2|], b as [| |y|];
    cbn [positive]; try contradiction.
  intros Hq H1 H2 Hy Hord. unfold ordered in Hord.
  cbn [sortKey Candidate_number] in Hord. apply Order.desc_Fin in Hord.
  unfold scale. cbn [axis_w axis_h Candidate_number Num.div].
  rewrite (Qsign_pos H1), (Qsign_pos H2).
  assert (P1 : (0 <= y / x1)%Q) by (apply Qle_shift_div_l; lra).
  assert (P2 : (0 <= y / x2)%Q) by (apply Qle_shift_div_l; lra).
  assert (Hle : (y / x2 <= y / x1)%Q).
  { apply Qle_shift_div_r; [exact H2|].
    assert (E1 : (y / x1 * x1 == y)%Q) by (field; lra).
    revert E1 P1. generalize (y / x1)%Q. intros t E1 P1. nra. }
  pose proof (Rounding.round_mono Hle) as Hr.
  destruct (Rounding.round_nonneg P1) as [E1|[r1 [E1 R1]]]; rewrite E1 in *;
    [discriminate|].
  destruct (Rounding.round_nonneg P2) as [E2|[r2 [E2 R2]]]; rewrite E2 in *;
    [discriminate|].
  apply Rounding.leb_Fin in Hr. cbn [Num.mul].
  assert (S1 : (0 <= r1 * r1)%Q) by nra.
  assert (S2 : (0 <= r2 * r2)%Q) by nra.
  assert (Hsq : (r2 * r2 <= r1 * r1)%Q) by nra.
  pose proof (Rounding.round_mono Hsq) as Hr2.
  destruct (Rounding.round_nonneg S1) as [F1|[u1 [F1 U1]]]; rewrite F1 in *;
    [discriminate|].
  destruct (Rounding.round_nonneg S2) as [F2|[u2 [F2 U2]]]; rewrite F2 in *;
    [discriminate|].
  apply Rounding.leb_Fin in Hr2. rewrite !ltb_Fin_iff. lra.
Qed.

(** X15.  A larger factor never keeps fewer widths: on a list of positive
    widths the result for a factor is at most as long as the result for
    any factor that is not smaller. *)
Theorem X15_factor_monotone (L : list number) (q1 q2 : Q)
  (fuel1 fuel2 : nat) (r1 r2 : list number) :
  Forall positive L -> (q1 <= q2)%Q ->
  filterSizes fuel1 L (Some (Fin q1)) = Some r1 ->
  filterSizes fuel2 L (Some (Fin q2)) = Some r2 ->
  (List.length r1 <= List.length r2)%nat.
Proof.
  intros Hpos Hq.
  apply (@filterSizes_monotone number _ (Fin q1) (Fin q2) positive);
    try exact Hpos.
  - intros [| |q|]; cbn; try contradiction.
    intros Hx. now rewrite (Qsign_pos Hx).
  - intros [| |q|]; cbn; try contradiction. intros _. now exists q.
  - intros a1 a2 b. now apply number_pos_kept.
Qed.

Lemma X15_factor_monotone_witness :
  (List.length (map num [2000; 1100; 380; 250]%Z)
   <= List.length (map num [2000; 1440; 1100; 801; 380; 250]%Z))%nat.
Proof.
  refine (@X15_factor_monotone sampleWidths (1 # 2) (5 # 8)
            12%nat 12%nat _ _ _ _ _ _).
  - repeat constructor.
  - vm_compute. discriminate.
  - vm_compute. reflexivity.
  - vm_compute. reflexivity.
Defined.

(** ** A factor that is not positive *)

Lemma number_scale_not_below (a b f : number) :
  not_positive f -> Num.ltb (scale a b) f = false.
Proof.
  intros Hf. unfold scale. cbn [axis_w axis_h Candidate_number].
  destruct (Num.div b a) as [| |t|]; cbn [Num.mul].
  - reflexivity.
  - now destruct f.
  - assert (Ht : (0 <= t * t)%Q) by nra.
    destruct (Rounding.round_nonneg Ht) as [->|[r [-> Hr]]];
      [now destruct f|].
    destruct f as [| |q|]; cbn [not_positive] in Hf;
      try reflexivity; try contradiction.
    unfold Num.ltb. destruct (r ?= q)%Q eqn:E; try reflexivity.
    apply Qlt_alt in E. lra.
  - now destruct f.
Qed.

Lemma number_scan_first_only (f : number) (rest : list number) (a : number) :
  not_positive f -> Num.truthy a = true -> scan f a rest = Some [a].
Proof.
  intros Hf Ha. induction rest as [|b rest IH]; cbn [scan];
    cbn [toBoolean Candidate_number]; rewrite Ha; [reflexivity|].
  cbn [andb]. destruct (negb (Num.truthy b)); [reflexivity|].
  now rewrite (@number_scale_not_below a b f Hf).
Qed.

(** X16.  With a factor that is zero, negative or [NaN], [filterSizes] on
    widths none of which is [NaN] returns the first element of the sorted
    list, the greatest width, alone, provided it is not [0]. *)
Theorem X16_factor_not_positive (L : list number) (f a : number)
  (rest : list number) (fuel : nat) :
  not_positive f -> Forall (fun x => x <> NaN) L ->
  sort L = a :: rest -> Num.truthy a = true ->
  (List.length L < fuel)%nat ->
  filterSizes fuel L (Some f) = Some [a]
  /\ Forall (fun x => Num.geb a x = true) L.
Proof.
  intros Hf Hnan Hsort Ha Hfuel. split.
  - apply filterSizes_returns; [|exact Hfuel].
    rewrite Hsort. cbn [scanAll factor_arg].
    now apply number_scan_first_only.
  - assert (Hs : StronglySorted (fun x y => Num.geb x y = true) (sort L)).
    { apply Sorted_descending; [|apply sort_Sorted].
      eapply Permutation_Forall; [apply sort_perm | exact Hnan]. }
    eapply Permutation_Forall; [symmetry; apply sort_perm|].
    rewrite Hsort in *. inversion Hs as [|? ? _ Hall]; subst.
    constructor; [|exact Hall].
    destruct a as [| |q|]; try reflexivity; [discriminate|].
    apply Rounding.leb_Fin. lra.
Qed.

Lemma X16_factor_not_positive_witness :
  filterSizes 4 [num 200; num 2000; num 250] (Some (num 0))
  = Some [num 2000].
Proof.
  apply (@X16_factor_not_positive [num 200; num 2000; num 250] (num 0)
           (num 2000) [num 250; num 200] 4%nat).
  - cbn. discriminate.
  - repeat constructor; discriminate.
  - reflexivity.
  - reflexivity.
  - cbn. lia.
Defined.

(** * Properties of [widthsFromSizes] *)

Lemma fold_Set_add_unique (ws all : list number) :
  Set_unique all ->
  Set_unique (fold_left (fun s n => Set_add n s) ws all).
Proof.
  revert all. induction ws as [|x ws IH]; intros all Hall; [exact Hall|].
  cbn [fold_left]. now apply IH, Set_add_unique.
Qed.

Lemma fold_Set_add_keeps (ws all : list number) (x : number) :
  Set_has x all = true ->
  Set_has x (fold_left (fun s n => Set_add n s) ws all) = true.
Proof.
  revert all. induction ws as [|y ws IH]; intros all Hx; [exact Hx|].
  cbn [fold_left]. now apply IH, Set_has_add_other.
Qed.

Lemma fold_Set_add_has (ws all : list number) (x : number) :
  In x ws -> Set_has x (fold_left (fun s n => Set_add n s) ws all) = true.
Proof.
  revert all. induction ws as [|y ws IH]; intros all Hx; [contradiction|].
  cbn [fold_left]. destruct Hx as [->|Hx].
  - apply fold_Set_add_keeps, Set_has_add_same.
  - now apply IH.
Qed.

Lemma fold_Set_add_In (ws all : list number) (x : number) :
  In x (fold_left (fun s n => Set_add n s) ws all) -> In x all \/ In x ws.
Proof.
  revert all. induction ws as [|y ws IH]; intros all Hx; [now left|].
  cbn [fold_left] in Hx. destruct (IH _ Hx) as [Hin|Hin].
  - destruct (Set_add_In _ _ _ Hin) as [->|Hin']; [right; now left | now left].
  - right. now right.
Qed.

Lemma collectWidths_spec (sizes : list Size) (devices : list Device) :
  forall all out,
    Set_unique all ->
    collectWidths sizes devices all = Ok out ->
    Set_unique out
    /\ (forall x, Set_has x all = true -> Set_has x out = true)
    /\ (forall device, In device devices ->
          exists ws, deviceWidths sizes device = Ok ws
                     /\ forall x, In x ws -> Set_has x out = true)
    /\ (forall x, In x out ->
          In x all
          \/ exists device ws, In device devices
                               /\ deviceWidths sizes device = Ok ws
                               /\ In x ws).
Proof.
  induction devices as [|device rest IH]; intros all out Hall Hout;
    cbn [collectWidths] in Hout.
  - injection Hout as <-. repeat split; auto. intros device [].
  - destruct (deviceWidths sizes device) as [ws|e] eqn:Hws;
      cbn [bind] in Hout; [|discriminate].
    destruct (IH _ _ (@fold_Set_add_unique ws all Hall) Hout)
      as [Huniq [Hkeep [Hdev Hfrom]]].
    split; [exact Huniq|]. split; [|split].
    + intros x Hx. now apply Hkeep, fold_Set_add_keeps.
    + intros device' [<-|Hin].
      * exists ws. split; [exact Hws|].
        intros x Hx. now apply Hkeep, fold_Set_add_has.
      * destruct (Hdev _ Hin) as [ws' [Hws' Hin']]. now exists ws'.
    + intros x Hx. destruct (Hfrom x Hx) as [Hin|[device' [ws' [Hd [Hw Hi]]]]].
      * destruct (fold_Set_add_In _ _ _ Hin) as [Hin'|Hin']; [now left|].
        right. exists device, ws. repeat split; auto. now left.
      * right. exists device', ws'. repeat split; auto. now right.
Qed.

Lemma collectWidths_Throw (sizes : list Size) (devices : list Device)
  (e : exn) :
  forall all,
    collectWidths sizes devices all = Throw e ->
    exists device, In device devices /\ deviceWidths sizes device = Throw e.
Proof.
  induction devices as [|device rest IH]; intros all Hout;
    cbn [collectWidths] in Hout; [discriminate|].
  destruct (deviceWidths sizes device) as [ws|e'] eqn:Hws; cbn [bind] in Hout.
  - destruct (IH _ Hout) as [device' [Hin Hd]].
    exists device'. split; [now right | exact Hd].
  - injection Hout as <-. exists device. split; [now left | exact Hws].
Qed.

(** X17.  The widths gathered over the device catalog form a set: no width
    occurs twice in it, it holds the widths of every device of the catalog,
    and it holds nothing else. *)
Theorem X17_collectWidths_union (sizes : list Size) (devices : list Device)
  (all : list number) :
  collectWidths sizes devices [] = Ok all ->
  Set_unique all
  /\ (forall device, In device devices ->
        exists ws, deviceWidths sizes device = Ok ws
                   /\ forall x, In x ws -> Set_has x all = true)
  /\ (forall x, In x all ->
        exists device ws, In device devices
                          /\ deviceWidths sizes device = Ok ws
                          /\ In x ws).
Proof.
  intros Hall.
  destruct (@collectWidths_spec sizes devices [] all I Hall)
    as [Huniq [_ [Hdev Hfrom]]].
  split; [exact Huniq|]. split; [exact Hdev|].
  intros x Hx. destruct (Hfrom x Hx) as [[]|Hd]. exact Hd.
Qed.

Lemma X17_collectWidths_union_witness :
  Set_unique [num 800; num 400; num 1000; num 500].
Proof.
  refine (proj1 (@X17_collectWidths_union templateSizes
    [mkDevice (num 800) (num 700) [num 2; num 1] false;
     mkDevice (num 500) (num 600) [num 2; num 1] false;
     mkDevice (num 1000) (num 600) [num 1] false] _ _)).
  reflexivity.
Defined.

(** X18.  [widthsFromSizes] returns widths that [deviceWidths] computes for
    a device of the catalog, none of them [0] or [NaN], in descending
    order; and it fails only with the error of [deviceWidths] on one of
    the devices. *)
Theorem X18_widthsFromSizes (fuel : nat) (devices : list Device)
  (sizes : list Size) (minScale : option number) :
  (forall r, widthsFromSizes fuel devices sizes minScale = Ok (Some r) ->
     (forall x, In x r ->
        exists device ws, In device devices
                          /\ deviceWidths sizes device = Ok ws /\ In x ws)
     /\ Forall (fun x => Num.truthy x = true) r
     /\ StronglySorted (fun x y => Num.geb x y = true) r)
  /\ (forall e, widthsFromSizes fuel devices sizes minScale = Throw e ->
        exists device, In device devices
                       /\ deviceWidths sizes device = Throw e).
Proof.
  unfold widthsFromSizes. split.
  - intros r Hr.
    destruct (collectWidths sizes devices []) as [all|e] eqn:Hall;
      cbn [bind] in Hr; [|discriminate].
    injection Hr as Hr.
    destruct (@collectWidths_spec sizes devices [] all I Hall)
      as [_ [_ [_ Hfrom]]].
    split.
    + intros x Hx.
      assert (Hin : In x all).
      { apply filterSizes_sound in Hr.
        apply Permutation_in with (l := sort all);
          [symmetry; apply sort_perm|].
        destruct (sort all) as [|a rest]; cbn [scanAll] in Hr.
        - injection Hr as <-. contradiction.
        - apply Subseq_In with (r := r); [|exact Hx].
          now apply scan_Subseq with (factor := factor_arg minScale). }
      destruct (Hfrom x Hin) as [[]|Hd]. exact Hd.
    + now apply number_filter_descending with (L := all) (factor := minScale)
                                               (fuel := fuel).
  - intros e He.
    destruct (collectWidths sizes devices []) as [all|e'] eqn:Hall;
      cbn [bind] in He; [discriminate|].
    injection He as <-. now apply collectWidths_Throw with (all := []).
Qed.
(** * [filterSizes] behind its overloads *)

Section Morphism.

Context {T U : Type} (CT : Candidate T) (CU : Candidate U).

(** An embedding of candidates that the loop and the sort cannot tell from
    the candidates themselves. *)
Variable inj : T -> U.
Hypothesis inj_toBoolean : forall x, toBoolean (inj x) = toBoolean x.
Hypothesis inj_axis_w : forall x, axis_w (inj x) = axis_w x.
Hypothesis inj_axis_h : forall x, axis_h (inj x) = axis_h x.
Hypothesis inj_sortKey : forall x, sortKey (inj x) = sortKey x.

Lemma insert_map (x : T) (l : list T) :
  insert (inj x) (map inj l) = map inj (insert x l).
Proof.
  induction l as [|y l IH]; cbn [insert map]; [reflexivity|].
  unfold compareFn. rewrite !inj_sortKey.
  destruct (Num.gtb _ _); cbn [map]; [now rewrite IH | reflexivity].
Qed.

Lemma sort_map (l : list T) : sort (map inj l) = map inj (sort l).
Proof.
  induction l as [|x l IH]; cbn [sort map]; [reflexivity|].
  now rewrite IH, insert_map.
Qed.

Lemma filterLoop_map (factor : number) (sorted : list T) (fuel : nat) :
  forall i j filtered,
    filterLoop fuel (map inj sorted) factor i j (map inj filtered)
    = option_map (map inj) (filterLoop fuel sorted factor i j filtered).
Proof.
  induction fuel as [|fuel IH]; intros i j filtered; [reflexivity|].
  cbn [filterLoop]. rewrite !nth_error_map.
  destruct (nth_error sorted i) as [a|]; cbn [option_map]; [|reflexivity].
  rewrite inj_toBoolean, inj_axis_w, inj_axis_h.
  assert (Hb : toBoolean_opt (option_map inj (nth_error sorted j))
               = toBoolean_opt (nth_error sorted j))
    by (destruct (nth_error sorted j); cbn; [apply inj_toBoolean|reflexivity]).
  assert (Hw : axis_w_opt (option_map inj (nth_error sorted j))
               = axis_w_opt (nth_error sorted j))
    by (destruct (nth_error sorted j); cbn; [apply inj_axis_w|reflexivity]).
  assert (Hh : axis_h_opt (option_map inj (nth_error sorted j))
               = axis_h_opt (nth_error sorted j))
    by (destruct (nth_error sorted j); cbn; [apply inj_axis_h|reflexivity]).
  rewrite Hb, Hw, Hh.
  assert (Happ : map inj filtered ++ [inj a] = map inj (filtered ++ [a]))
    by (now rewrite map_app).
  rewrite Happ.
  destruct (toBoolean a && negb (toBoolean_opt (nth_error sorted j)));
    [reflexivity|].
  destruct (Num.ltb _ factor); apply IH.
Qed.

Lemma filterSizes_map (fuel : nat) (l : list T) (factor : option number) :
  filterSizes fuel (map inj l) factor
  = option_map (map inj) (filterSizes fuel l factor).
Proof.
  unfold filterSizes. rewrite sort_map.
  apply (filterLoop_map (factor_arg factor) (sort l) fuel 0 1 []).
Qed.

End Morphism.

Lemma isDimensionArray_numbers (n : number) (l : list number) :
  isDimensionArray (map ANumber (n :: l)) = false.
Proof. reflexivity. Qed.

Lemma isDimensionArray_Dimensions (l : list Dimension) :
  isDimensionArray (map Dimension_any l) = true.
Proof. induction l as [|d l IH]; [reflexivity | exact IH]. Qed.

(** X19.  The two overloads are what the untyped code does: on a list of
    numbers [filterSizes] behaves as the loop over widths, sorted by value,
    and on a list of dimension pairs as the loop over pairs, sorted by
    area; the tests [isDimension] and [isDimensionArray] it makes at run
    time select exactly these. *)
Theorem X19_overloads (fuel : nat) (factor : option number) :
  (forall l : list number,
      filterSizes_any fuel (map ANumber l) factor
      = option_map (map ANumber) (filterSizes fuel l factor))
  /\ (forall l : list Dimension,
      filterSizes_any fuel (map Dimension_any l) factor
      = option_map (map Dimension_any) (filterSizes fuel l factor)).
Proof.
  split.
  - intros l. unfold filterSizes_any. destruct l as [|n l].
    + destruct fuel; reflexivity.
    + rewrite isDimensionArray_numbers.
      now apply (@filterSizes_map number any Candidate_number any_by_value
                   ANumber).
  - intros l. unfold filterSizes_any.
    rewrite isDimensionArray_Dimensions.
    now apply (@filterSizes_map Dimension any Candidate_Dimension any_by_area
                 Dimension_any).
Qed.

Lemma other_objects_sorted (l : list any) :
  forallb other_object l = true -> @sort any any_by_value l = l.
Proof.
  induction l as [|x l IH]; [reflexivity|]. cbn [forallb sort].
  intros Hl. apply andb_prop in Hl. destruct Hl as [Hx Hl].
  rewrite (IH Hl). destruct l as [|y l]; [reflexivity|].
  cbn [insert]. unfold compareFn. cbn [sortKey any_by_value].
  destruct x as [n|wx hx dx]; [discriminate|]. cbn [toNumber].
  now destruct (toNumber y).
Qed.

Lemma other_objects_scan (factor : number) (rest : list any) (a : any) :
  other_object a = true -> forallb other_object rest = true ->
  @scan any any_by_value factor a rest = Some [a].
Proof.
  intros Ha. induction rest as [|b rest IH]; cbn [scan forallb].
  - destruct a; [discriminate | reflexivity].
  - intros Hl. apply andb_prop in Hl. destruct Hl as [Hb Hl].
    destruct a as [n|wa ha da]; [discriminate|].
    destruct b as [n|wb hb db]; [discriminate|].
    cbn [toBoolean any_by_value any_truthy negb andb].
    cbn [other_object] in Ha, Hb. apply negb_true_iff in Ha, Hb.
    unfold scale. cbn [axis_w axis_h any_by_value]. rewrite Ha, Hb.
    cbn [toNumber Num.div Num.mul Num.ltb]. now apply IH.
Qed.

(** X20.  A list of objects that [isDimension] rejects, such as devices
    (which have [dppx], and which the type of [filterSizes] accepts as
    dimension pairs), is not filtered by area: every difference and every
    scale product is [NaN], and [filterSizes] returns the first element of
    the list alone. *)
Theorem X20_devices_not_filtered (x : any) (l : list any)
  (factor : option number) (fuel : nat) :
  forallb other_object (x :: l) = true ->
  (List.length (x :: l) < fuel)%nat ->
  filterSizes_any fuel (x :: l) factor = Some [x].
Proof.
  intros Hl Hfuel. unfold filterSizes_any.
  assert (Hx : other_object x = true /\ forallb other_object l = true)
    by (cbn [forallb] in Hl; now apply andb_prop in Hl).
  destruct Hx as [Hx Hrest].
  assert (Hdim : isDimensionArray (x :: l) = false).
  { cbn [isDimensionArray forallb]. destruct x as [n|wx hx dx];
      [discriminate|]. cbn [other_object] in Hx.
    apply negb_true_iff in Hx. now rewrite Hx. }
  rewrite Hdim.
  apply (@filterSizes_returns any any_by_value); [|exact Hfuel].
  rewrite (other_objects_sorted _ Hl). cbn [scanAll].
  now apply other_objects_scan.
Qed.

Lemma X20_devices_not_filtered_witness :
  filterSizes_any 3
    (map Device_any [mkDevice (num 360) (num 640) [num 2] true;
                     mkDevice (num 1920) (num 1080) [num 1] false])
    None
  = Some [Device_any (mkDevice (num 360) (num 640) [num 2] true)].
Proof.
  apply (@X20_devices_not_filtered
           (Device_any (mkDevice (num 360) (num 640) [num 2] true))
           [Device_any (mkDevice (num 1920) (num 1080) [num 1] false)]
           None 3%nat).
  - reflexivity.
  - cbn. lia.
Defined.
(** * Properties of [parseSizes] *)

Lemma string_app_assoc (a b c : string) :
  ((a ++ b) ++ c)%string = (a ++ (b ++ c))%string.
Proof. induction a as [|x a IH]; cbn; [reflexivity | now rewrite IH]. Qed.

Lemma string_app_length (a b : string) :
  String.length (a ++ b)%string = (String.length a + String.length b)%nat.
Proof. induction a as [|x a IH]; cbn; [reflexivity | now rewrite IH]. Qed.

Lemma rev_app_acc (s : string) :
  forall acc, Str.rev_app s acc = (Sizes.rev s ++ acc)%string.
Proof.
  unfold Sizes.rev. induction s as [|c s IH]; intros acc; cbn; [reflexivity|].
  rewrite (IH (String c acc)), (IH (String c EmptyString)).
  now rewrite string_app_assoc.
Qed.

Lemma rev_app (a b : string) :
  Sizes.rev (a ++ b)%string = (Sizes.rev b ++ Sizes.rev a)%string.
Proof.
  unfold Sizes.rev at 1. revert b.
  assert (G : forall a b acc, Str.rev_app (a ++ b)%string acc
                              = Str.rev_app b (Str.rev_app a acc)).
  { clear. induction a as [|c a IH]; intros b acc; cbn; [reflexivity|].
    apply IH. }
  intros b. rewrite G. apply rev_app_acc.
Qed.

Lemma rev_involutive (s : string) : Sizes.rev (Sizes.rev s) = s.
Proof.
  unfold Sizes.rev. rewrite rev_app_rev_app. cbn. apply append_nil_r.
Qed.

Lemma rev_length (s : string) : String.length (Sizes.rev s) = String.length s.
Proof.
  induction s as [|c s IH]; [reflexivity|].
  change (String c s) with (String c EmptyString ++ s)%string.
  rewrite rev_app, string_app_length, IH. cbn. lia.
Qed.

Lemma string_all_rev (p : ascii -> bool) (s : string) :
  string_all p (Sizes.rev s) = string_all p s.
Proof.
  unfold Sizes.rev. rewrite string_all_rev_app. cbn.
  now rewrite andb_true_r.
Qed.

Lemma take_drop_length (p : ascii -> bool) (s : string) :
  (String.length (Str.takeWhile p s) + String.length (Str.dropWhile p s)
   = String.length s)%nat.
Proof.
  induction s as [|c s IH]; [reflexivity|]. cbn.
  destruct (p c); cbn; lia.
Qed.

Lemma substring_prefix (a b : string) :
  String.substring 0 (String.length a) (a ++ b)%string = a.
Proof.
  induction a as [|c a IH]; cbn.
  - now destruct b.
  - now rewrite IH.
Qed.

(** A segment without blank does not match the expression. *)
Lemma descriptorRegex_no_blank (d : string) :
  string_all (fun c => negb (Str.is_space c)) d = true ->
  Sizes.descriptorRegex d = None.
Proof.
  intros Hd. unfold Sizes.descriptorRegex.
  rewrite <- string_all_rev in Hd.
  rewrite (dropWhile_self_nil _ _ Hd). cbn [Str.takeWhile].
  now destruct (Str.takeWhile _ _).
Qed.

(** A segment that ends with a blank does not match either. *)
Lemma descriptorRegex_trailing_blank (d : string) (sp : ascii) :
  Str.is_space sp = true ->
  Sizes.descriptorRegex (d ++ String sp EmptyString)%string = None.
Proof.
  intros Hsp. unfold Sizes.descriptorRegex.
  rewrite rev_app. cbn [Sizes.rev Str.rev_app append Str.takeWhile].
  now rewrite Hsp.
Qed.

(** The clause is everything before the blank in front of the last word. *)
Lemma descriptorRegex_shape (cond width : string) (sp : ascii) :
  string_all (fun c => negb (Sizes.is_newline c)) cond = true ->
  Str.is_space sp = true ->
  width <> EmptyString ->
  string_all (fun c => negb (Str.is_space c)) width = true ->
  Sizes.descriptorRegex (cond ++ String sp width)%string
  = Some (cond, width).
Proof.
  intros Hcond Hsp Hne Hwidth. unfold Sizes.descriptorRegex.
  assert (Hrev : Sizes.rev (cond ++ String sp width)%string
                 = (Sizes.rev width ++ String sp (Sizes.rev cond))%string).
  { rewrite rev_app.
    change (String sp width) with (String sp EmptyString ++ width)%string.
    rewrite rev_app. cbn [Sizes.rev Str.rev_app].
    now rewrite string_app_assoc. }
  rewrite Hrev.
  assert (Hw : string_all (fun c => negb (Str.is_space c)) (Sizes.rev width)
               = true) by now rewrite string_all_rev.
  assert (Hword : Str.takeWhile (fun c => negb (Str.is_space c))
                    (Sizes.rev width ++ String sp (Sizes.rev cond))%string
                  = Sizes.rev width).
  { rewrite (takeWhile_all _ _ _ Hw). cbn [Str.takeWhile]. rewrite Hsp.
    cbn [negb]. apply append_nil_r. }
  assert (Hbefore : Str.dropWhile (fun c => negb (Str.is_space c))
                      (Sizes.rev width ++ String sp (Sizes.rev cond))%string
                    = String sp (Sizes.rev cond)).
  { rewrite (dropWhile_all _ _ _ Hw). cbn [Str.dropWhile]. now rewrite Hsp. }
  rewrite Hword, Hbefore.
  assert (Hblanks : Str.takeWhile Str.is_space (String sp (Sizes.rev cond))
                    = String sp (Str.takeWhile Str.is_space (Sizes.rev cond)))
    by (cbn [Str.takeWhile]; now rewrite Hsp).
  assert (Hfront : Str.dropWhile Str.is_space (String sp (Sizes.rev cond))
                   = Str.dropWhile Str.is_space (Sizes.rev cond))
    by (cbn [Str.dropWhile]; now rewrite Hsp).
  rewrite Hblanks, Hfront.
  destruct (Sizes.rev width) as [|c0 w0] eqn:Ew.
  { apply (f_equal Sizes.rev) in Ew. rewrite rev_involutive in Ew.
    now cbn in Ew. }
  rewrite <- Ew.
  rewrite (takeWhile_all _ _ _ Hcond).
  pose proof (take_drop_length Str.is_space (Sizes.rev cond)) as Hlen.
  rewrite rev_length in Hlen.
  set (front := Str.dropWhile Str.is_space (Sizes.rev cond)) in *.
  set (blanks := Str.takeWhile Str.is_space (Sizes.rev cond)) in *.
  set (tail := Str.takeWhile (fun c => negb (Sizes.is_newline c))
                 (String sp width)).
  cbn [String.length]. rewrite string_app_length.
  assert (Hle : (String.length front <=? String.length cond
                                        + String.length tail)%nat = true)
    by (apply Nat.leb_le; lia).
  rewrite Hle.
  replace (Nat.min (String.length cond + String.length tail)
             (String.length front + S (String.length blanks) - 1))
    with (String.length cond) by lia.
  now rewrite substring_prefix, rev_involutive.
Qed.


Section ParseSizes.

Variable mediaParser : string -> Sizes.MediaQueryNode.

Lemma split_go_length (s : string) :
  forall skip acc,
    List.length (Sizes.split_go skip acc s) = S (count_commas s).
Proof.
  induction s as [|c s IH]; intros skip acc; [reflexivity|].
  cbn [Sizes.split_go count_commas].
  destruct (Sizes.is_comma c); cbn [List.length].
  - now rewrite IH.
  - destruct (skip && Str.is_space c); now rewrite IH.
Qed.

Lemma mapM_length (ds : list string) :
  forall rules, Sizes.mapM mediaParser ds = Ok rules ->
           List.length rules = List.length ds.
Proof.
  induction ds as [|d ds IH]; intros rules Hr; cbn [Sizes.mapM] in Hr.
  - now injection Hr as <-.
  - destruct (Sizes.parseDescriptor mediaParser d); cbn [bind] in Hr;
      [|discriminate].
    destruct (Sizes.mapM mediaParser ds) as [rs|]; cbn [bind] in Hr;
      [|discriminate].
    injection Hr as <-. cbn. now rewrite (IH rs).
Qed.

(** X21.  [parseSizes] returns one rule per segment: one more than the
    string has commas, whatever the tokenizer returns. *)
Theorem X21_parseSizes_rule_count (s : string) (rules : list Size) :
  Sizes.parseSizes mediaParser s = Ok rules ->
  List.length rules = S (count_commas s).
Proof.
  unfold Sizes.parseSizes, Sizes.split. intros Hr.
  rewrite (mapM_length _ Hr). apply split_go_length.
Qed.

Lemma parseDescriptor_no_blank (d : string) :
  string_all (fun c => negb (Str.is_space c)) d = true ->
  Sizes.parseDescriptor mediaParser d = Ok (mkSize [] d).
Proof.
  intros Hd. unfold Sizes.parseDescriptor.
  now rewrite (descriptorRegex_no_blank _ Hd).
Qed.

Lemma split_go_all (p : ascii -> bool) (s : string) :
  forall skip acc,
    string_all p acc = true -> string_all p s = true ->
    Forall (fun d => string_all p d = true) (Sizes.split_go skip acc s).
Proof.
  induction s as [|c s IH]; intros skip acc Hacc Hs; cbn [Sizes.split_go].
  - constructor; [|constructor]. now rewrite string_all_rev.
  - cbn [string_all] in Hs. apply andb_prop in Hs. destruct Hs as [Hc Hs].
    destruct (Sizes.is_comma c).
    + constructor; [|now apply IH].
      rewrite string_all_rev. now apply string_all_dropWhile.
    + destruct (skip && Str.is_space c); apply IH; auto.
      cbn [string_all]. now rewrite Hc, Hacc.
Qed.

Lemma split_go_no_comma (s : string) :
  forall acc,
    count_commas s = O ->
    Sizes.split_go false acc s = [(Sizes.rev acc ++ s)%string].
Proof.
  induction s as [|c s IH]; intros acc Hs; cbn [Sizes.split_go].
  - now rewrite append_nil_r.
  - cbn [count_commas] in Hs. destruct (Sizes.is_comma c); [discriminate|].
    cbn [andb]. rewrite (IH _ Hs).
    change (String c acc) with (String c EmptyString ++ acc)%string.
    rewrite rev_app. cbn [Sizes.rev Str.rev_app].
    now rewrite string_app_assoc.
Qed.

Lemma mapM_no_blank (ds : list string) :
  Forall (fun d => string_all (fun c => negb (Str.is_space c)) d = true) ds ->
  Sizes.mapM mediaParser ds = Ok (map (mkSize []) ds).
Proof.
  induction 1 as [|d ds Hd _ IH]; cbn [Sizes.mapM map]; [reflexivity|].
  now rewrite (parseDescriptor_no_blank _ Hd), IH.
Qed.

(** X22.  An ASCII string without blank is parsed without the tokenizer, and
    never fails: each of its segments between commas becomes a rule without
    conditions, with the segment as its width; without comma it is the one
    rule that has the whole string as its width. *)
Theorem X22_parseSizes_no_blank (s : string) :
  ascii_only s = true ->
  string_all (fun c => negb (Str.is_space c)) s = true ->
  Sizes.parseSizes mediaParser s = Ok (map (mkSize []) (Sizes.split s))
  /\ (count_commas s = O ->
      Sizes.parseSizes mediaParser s = Ok [mkSize [] s]).
Proof.
  intros _ Hs.
  assert (E : Sizes.parseSizes mediaParser s
              = Ok (map (mkSize []) (Sizes.split s))).
  { unfold Sizes.parseSizes. apply mapM_no_blank.
    now apply split_go_all. }
  split; [exact E|].
  intros Hc. rewrite E. unfold Sizes.split.
  now rewrite (split_go_no_comma _ EmptyString Hc).
Qed.

(** X23.  In an ASCII segment that ends with a word after a blank, the width
    of the rule is that word and the condition clause is everything in
    front of the blank, provided the clause holds no line terminator: the
    expression splits the segment so, the rule returned for it has that
    width, and an empty clause gives the rule without conditions. *)
Theorem X23_descriptor_width (cond word : string) (sp : ascii) :
  ascii_only (cond ++ String sp word)%string = true ->
  string_all (fun c => negb (Sizes.is_newline c)) cond = true ->
  Str.is_space sp = true ->
  word <> EmptyString ->
  string_all (fun c => negb (Str.is_space c)) word = true ->
  Sizes.descriptorRegex (cond ++ String sp word)%string = Some (cond, word)
  /\ (forall size,
        Sizes.parseDescriptor mediaParser (cond ++ String sp word)%string
        = Ok size ->
        width size = word)
  /\ (cond = EmptyString ->
      Sizes.parseDescriptor mediaParser (String sp word)
      = Ok (mkSize [] word)).
Proof.
  intros _ Hcond Hsp Hne Hword.
  pose proof (@descriptorRegex_shape cond word sp Hcond Hsp Hne Hword) as Hre.
  split; [exact Hre|]. split.
  - intros size. unfold Sizes.parseDescriptor. rewrite Hre.
    destruct cond as [|c cond']; [now intros [= <-]|].
    destruct (Sizes.node_nodes _) as [|parsed ns]; [discriminate|].
    destruct (Sizes.nodesLoop _ _); cbn [bind]; [|discriminate].
    now intros [= <-].
  - intros ->. unfold Sizes.parseDescriptor.
    cbn [append] in Hre. now rewrite Hre.
Qed.

(** X24.  A segment that ends with a blank is not split: whatever it holds,
    a condition clause included, it becomes a rule without conditions
    whose width is the whole segment. *)
Theorem X24_descriptor_unsplit (d : string) (sp : ascii) :
  Str.is_space sp = true ->
  Sizes.parseDescriptor mediaParser (d ++ String sp EmptyString)%string
  = Ok (mkSize [] (d ++ String sp EmptyString)%string).
Proof.
  intros Hsp. unfold Sizes.parseDescriptor.
  now rewrite (@descriptorRegex_trailing_blank d sp Hsp).
Qed.

End ParseSizes.
Lemma X21_parseSizes_rule_count_witness :
  List.length [mkSize [mkCond "min-width" "680px"] "400px"; mkSize [] "100vw"]
  = 2%nat.
Proof.
  apply (@X21_parseSizes_rule_count sampleParser
           "(min-width: 680px) 400px, 100vw"%string).
  reflexivity.
Defined.

Lemma X22_parseSizes_no_blank_witness :
  Sizes.parseSizes sampleParser "50vw,400px"%string
  = Ok [mkSize [] "50vw"; mkSize [] "400px"].
Proof.
  apply (proj1 (@X22_parseSizes_no_blank sampleParser "50vw,400px"%string
                  eq_refl eq_refl)).
Defined.

Lemma X23_descriptor_width_witness :
  Sizes.descriptorRegex "(min-width: 680px) 400px"%string
  = Some ("(min-width: 680px)"%string, "400px"%string).
Proof.
  apply (proj1 (@X23_descriptor_width sampleParser
                  "(min-width: 680px)"%string "400px"%string " "%char
                  eq_refl eq_refl eq_refl ltac:(discriminate) eq_refl)).
Defined.

Lemma X24_descriptor_unsplit_witness :
  Sizes.parseDescriptor sampleParser "(min-width: 680px) 400px "%string
  = Ok (mkSize [] "(min-width: 680px) 400px ").
Proof.
  apply (@X24_descriptor_unsplit sampleParser
           "(min-width: 680px) 400px"%string " "%char eq_refl).
Defined.

(** ** The loop over the nodes *)

Lemma is_and_not_feature (node : Sizes.MediaQueryNode) :
  is_and node = true ->
  String.eqb (Sizes.node_type node) "media-feature-expression" = false.
Proof.
  unfold is_and. intros Hand. apply andb_prop in Hand.
  destruct Hand as [Ht _]. apply String.eqb_eq in Ht. now rewrite Ht.
Qed.

(** X25.  Of the nodes of a clause, the loop reads those in front of the
    first node that is neither a feature expression nor the keyword [and]:
    that node and whatever follows it are ignored (so that a clause with
    [not] or [or] yields the conditions in front of the keyword); the
    keyword [and] itself adds nothing; and a feature expression without a
    feature or without a value among its children is a type error. *)
Theorem X25_nodesLoop :
  (forall pre stop post acc,
      stops stop = true ->
      Sizes.nodesLoop (pre ++ stop :: post) acc = Sizes.nodesLoop pre acc)
  /\ (forall pre node post acc,
      is_and node = true ->
      Sizes.nodesLoop (pre ++ node :: post) acc
      = Sizes.nodesLoop (pre ++ post) acc)
  /\ (forall node rest acc,
      Sizes.node_type node = "media-feature-expression"%string ->
      Sizes.child_value "media-feature" node = Throw TypeError
      \/ Sizes.child_value "value" node = Throw TypeError ->
      Sizes.nodesLoop (node :: rest) acc = Throw TypeError).
Proof.
  split; [|split].
  - intros pre stop post. induction pre as [|n pre IH]; intros acc Hstop.
    + cbn [app Sizes.nodesLoop]. unfold stops in Hstop.
      apply andb_prop in Hstop. destruct Hstop as [H1 H2].
      apply negb_true_iff in H1, H2. now rewrite H1, H2.
    + cbn [app Sizes.nodesLoop].
      destruct (String.eqb (Sizes.node_type n) "media-feature-expression").
      * destruct (Sizes.child_value "media-feature" n); cbn [bind];
          [|reflexivity].
        destruct (Sizes.child_value "value" n); cbn [bind]; [|reflexivity].
        now apply IH.
      * destruct (_ && _)%bool; [now apply IH | reflexivity].
  - intros pre node post. induction pre as [|n pre IH]; intros acc Hand.
    + cbn [app Sizes.nodesLoop]. rewrite (is_and_not_feature _ Hand).
      unfold is_and in Hand. now rewrite Hand.
    + cbn [app Sizes.nodesLoop].
      destruct (String.eqb (Sizes.node_type n) "media-feature-expression").
      * destruct (Sizes.child_value "media-feature" n); cbn [bind];
          [|reflexivity].
        destruct (Sizes.child_value "value" n); cbn [bind]; [|reflexivity].
        now apply IH.
      * destruct (_ && _)%bool; [now apply IH | reflexivity].
  - intros node rest acc Ht Hmiss. cbn [Sizes.nodesLoop]. rewrite Ht.
    cbn [String.eqb Ascii.eqb Bool.eqb andb].
    destruct Hmiss as [-> | Hv]; [reflexivity|].
    unfold Sizes.child_value at 1.
    destruct (find _ (Sizes.node_nodes node)); cbn [bind]; [|reflexivity].
    now rewrite Hv.
Qed.
(** ** The parentheses of a clause *)

Lemma indexOf_go_lower (c : ascii) (from : nat) (s : string) :
  forall pos, (-1 <= Sizes.indexOf_go c from pos s)%Z.
Proof.
  induction s as [|x s IH]; intros pos; cbn [Sizes.indexOf_go]; [lia|].
  destruct (_ && _)%bool; [lia | apply IH].
Qed.

Lemma indexOf_go_none (c : ascii) (from : nat) (s : string) :
  forall pos,
    string_all (fun x => negb (Ascii.eqb x c)) s = true ->
    Sizes.indexOf_go c from pos s = (-1)%Z.
Proof.
  induction s as [|x s IH]; intros pos Hs; cbn [Sizes.indexOf_go];
    [reflexivity|].
  cbn [string_all] in Hs. apply andb_prop in Hs. destruct Hs as [Hx Hs].
  apply negb_true_iff in Hx. rewrite Hx, andb_false_r. now apply IH.
Qed.

Lemma indexOf_go_skip (c : ascii) (from : nat) (a b : string) :
  forall pos,
    string_all (fun x => negb (Ascii.eqb x c)) a = true ->
    Sizes.indexOf_go c from pos (a ++ b)%string
    = Sizes.indexOf_go c from (pos + String.length a) b.
Proof.
  induction a as [|x a IH]; intros pos Ha; cbn [append String.length].
  - now rewrite Nat.add_0_r.
  - cbn [string_all] in Ha. apply andb_prop in Ha. destruct Ha as [Hx Ha].
    apply negb_true_iff in Hx. cbn [Sizes.indexOf_go].
    rewrite Hx, andb_false_r, (IH _ Ha). f_equal. lia.
Qed.

Lemma indexOf_go_hit (c : ascii) (from pos : nat) (b : string) :
  (from <= pos)%nat ->
  Sizes.indexOf_go c from pos (String c b) = Z.of_nat pos.
Proof.
  intros Hle. cbn [Sizes.indexOf_go].
  apply Nat.leb_le in Hle. now rewrite Hle, Ascii.eqb_refl.
Qed.

(** X26.  The first and last character of a clause are taken off under the
    test the code makes, not for a clause in redundant parentheses: a
    clause that holds no opening parenthesis after its first character,
    such as a single condition, goes to the tokenizer as it is; an ASCII
    clause of two or more conditions, each in its parentheses, goes to the
    tokenizer without its first opening and its last closing
    parenthesis. *)
Theorem X26_clause_parentheses :
  (forall (c : ascii) (rest : string),
      string_all (fun x => negb (Ascii.eqb x "("%char)) rest = true ->
      Sizes.clause (String c rest) = String c rest)
  /\ (forall x t1 t2 : string,
      ascii_only (x ++ String ")"%char (t1 ++ String "("%char t2))%string
      = true ->
      string_all (fun c => negb (Ascii.eqb c "("%char)) x = true ->
      string_all (fun c => negb (Ascii.eqb c ")"%char)) x = true ->
      string_all (fun c => negb (Ascii.eqb c "("%char)) t1 = true ->
      string_all (fun c => negb (Sizes.is_newline c))
                 (x ++ String ")"%char (t1 ++ String "("%char t2))%string
      = true ->
      Sizes.clause
        (String "("%char
           ((x ++ String ")"%char (t1 ++ String "("%char t2))
            ++ String ")"%char EmptyString))%string
      = (x ++ String ")"%char (t1 ++ String "("%char t2))%string).
Proof.
  split.
  - intros c rest Hrest. unfold Sizes.clause.
    assert (Hopen : Sizes.indexOf "("%char 1 (String c rest) = (-1)%Z).
    { unfold Sizes.indexOf. cbn [Sizes.indexOf_go Nat.leb andb].
      now apply indexOf_go_none. }
    rewrite Hopen.
    assert (Hlow : (Sizes.indexOf ")"%char 0 (String c rest) <? -1)%Z = false)
      by (apply Z.ltb_ge; apply indexOf_go_lower).
    rewrite Hlow. now rewrite andb_false_r.
  - intros x t1 t2 _ Hx1 Hx2 Ht1 Hnl.
    set (body := (x ++ String ")"%char (t1 ++ String "("%char t2))%string)
      in *.
    assert (Hpar : Sizes.parenthesised
                     (String "("%char (body ++ String ")"%char EmptyString))
                   = true).
    { unfold Sizes.parenthesised. rewrite rev_app.
      cbn [Sizes.rev Str.rev_app append Ascii.eqb Bool.eqb andb].
      fold (Sizes.rev body). now rewrite string_all_rev. }
    assert (Hshape : (body ++ String ")"%char EmptyString)%string
                     = (x ++ String ")"%char
                             (t1 ++ String "("%char
                                     (t2 ++ String ")"%char EmptyString)))%string).
    { unfold body. rewrite string_app_assoc. cbn [append].
      rewrite string_app_assoc. reflexivity. }
    assert (Hclose : Sizes.indexOf ")"%char 0
                       (String "("%char (body ++ String ")"%char EmptyString))
                     = Z.of_nat (1 + String.length x)).
    { unfold Sizes.indexOf. cbn [Sizes.indexOf_go Ascii.eqb Bool.eqb andb].
      rewrite andb_false_r, Hshape, (indexOf_go_skip _ _ _ _ _ Hx2).
      apply indexOf_go_hit. lia. }
    assert (Hopen : Sizes.indexOf "("%char 1
                      (String "("%char (body ++ String ")"%char EmptyString))
                    = Z.of_nat (1 + String.length x + 1 + String.length t1)).
    { unfold Sizes.indexOf. cbn [Sizes.indexOf_go Nat.leb andb].
      rewrite Hshape, (indexOf_go_skip _ _ _ _ _ Hx1).
      cbn [Sizes.indexOf_go Ascii.eqb Bool.eqb andb]. rewrite andb_false_r.
      rewrite (indexOf_go_skip _ _ _ _ _ Ht1).
      rewrite indexOf_go_hit by lia. f_equal. lia. }
    unfold Sizes.clause. rewrite Hpar, Hclose, Hopen.
    assert (Hlt : (Z.of_nat (1 + String.length x)
                   <? Z.of_nat (1 + String.length x + 1 + String.length t1))%Z
                  = true) by (apply Z.ltb_lt; lia).
    rewrite Hlt. cbn [andb]. unfold Sizes.slice_1_m1.
    cbn [String.length]. rewrite string_app_length. cbn [String.length].
    replace (S (String.length body + 1) - 2)%nat with (String.length body)
      by lia.
    cbn [String.substring]. apply substring_prefix.
Qed.

Lemma X26_clause_parentheses_witness :
  Sizes.clause "(min-width: 680px)"%string = "(min-width: 680px)"%string
  /\ Sizes.clause "(max-width: 780px) and (max-height: 720px)"%string
     = "max-width: 780px) and (max-height: 720px"%string.
Proof.
  split.
  - apply (proj1 X26_clause_parentheses "("%char "min-width: 680px)"%string).
    reflexivity.
  - apply (proj2 X26_clause_parentheses "max-width: 780px"%string
             " and "%string "max-height: 720px"%string);
      reflexivity.
Defined.
(** ** From the string to the widths *)

Lemma deviceWidths_unconditional (wd : string) (rest : list Size)
  (device : Device) :
  deviceWidths (mkSize [] wd :: rest) device
  = deviceWidths [mkSize [] wd] device.
Proof. reflexivity. Qed.

Lemma collectWidths_unconditional (wd : string) (rest : list Size)
  (devices : list Device) :
  forall all,
    collectWidths (mkSize [] wd :: rest) devices all
    = collectWidths [mkSize [] wd] devices all.
Proof.
  induction devices as [|device devices IH]; intros all; [reflexivity|].
  cbn [collectWidths]. rewrite deviceWidths_unconditional.
  destruct (deviceWidths [mkSize [] wd] device); cbn [bind];
    [apply IH | reflexivity].
Qed.

Lemma split_go_cons (s : string) :
  forall skip acc, exists d ds, Sizes.split_go skip acc s = d :: ds.
Proof.
  induction s as [|c s IH]; intros skip acc; cbn [Sizes.split_go].
  - now eexists _, _.
  - destruct (Sizes.is_comma c); [now eexists _, _|].
    destruct (skip && Str.is_space c); apply IH.
Qed.

(** X27.  In an ASCII string without blank only the first segment counts:
    [widthsFromSizes] on the string is [widthsFromSizes] on the one rule
    without conditions that has the first segment as its width, since that
    rule matches every device and hides the rules after it; the tokenizer
    is not consulted. *)
Theorem X27_first_segment_wins
  (mediaParser : string -> Sizes.MediaQueryNode) (fuel : nat)
  (devices : list Device) (s : string) (minScale : option number) :
  ascii_only s = true ->
  string_all (fun c => negb (Str.is_space c)) s = true ->
  exists d ds,
    Sizes.split s = d :: ds
    /\ widthsFromSizesString mediaParser fuel devices s minScale
       = widthsFromSizes fuel devices [mkSize [] d] minScale.
Proof.
  intros _ Hs. destruct (split_go_cons s false EmptyString) as [d [ds Hsplit]].
  fold (Sizes.split s) in Hsplit.
  exists d, ds. split; [exact Hsplit|].
  assert (E : Sizes.parseSizes mediaParser s
              = Ok (map (mkSize []) (Sizes.split s))).
  { unfold Sizes.parseSizes. apply mapM_no_blank.
    now apply split_go_all. }
  unfold widthsFromSizesString. rewrite E, Hsplit. cbn [map bind].
  unfold widthsFromSizes. now rewrite collectWidths_unconditional.
Qed.

Lemma X27_first_segment_wins_witness :
  exists d ds,
    Sizes.split "50vw,400px"%string = d :: ds
    /\ widthsFromSizesString sampleParser 5
         [mkDevice (num 800) (num 700) [num 2; num 1] false]
         "50vw,400px"%string None
       = widthsFromSizes 5
           [mkDevice (num 800) (num 700) [num 2; num 1] false]
           [mkSize [] d] None.
Proof.
  apply X27_first_segment_wins; reflexivity.
Defined.
